(** * idb.ts: the singleton IndexedDB connection and the image-map upsert

  A shallow embedding of [src/idb.ts].  The browser's IndexedDB engine is
  the environment of the program: its object store, key generator, unique
  index and versioned open are modelled after the Indexed Database API
  (the algorithms "store a record into an object store", "generate a
  key" and "open a database"), the TypeScript functions are translated
  one by one on top of that model.

  Conventions.  JavaScript numbers that hold identifiers, rows, columns
  and milliseconds are integers ([Z]); an optional or nullable number is a
  [JsNum]; promises are modelled by their settlement; a mutable object
  (the transaction, the database handle, the closure variable [db]) is
  threaded as explicit state.  An asynchronous function is cut at its
  [await]s: between two of them it runs without interleaving, as it does
  on the event loop.  The upserts and the query take what
  [beginTransaction] yields as a parameter; [beginTransaction] itself is
  modelled further down, on the states of the connection manager.
  [debug] and [getStore] take no part in what is proved and are left
  out. *)

From Stdlib Require Import ZArith Lia DecimalString.
From stdpp Require Import base option list gmap strings sorting.

Local Open Scope Z_scope.

(** ** JavaScript values and the error classes of the module *)

Module Js.

(** A value of type [number | null | undefined]. *)
Inductive JsNum : Type :=
| JUndefined
| JNull
| JNumber (z : Z).

Definition isNull (val : JsNum) : bool :=
  match val with JNull => true | _ => false end.

Definition isUndefined (val : JsNum) : bool :=
  match val with JUndefined => true | _ => false end.

Definition isNil (val : JsNum) : bool := isNull val || isUndefined val.

(** Truthiness of an optional number, as tested by [if (x.id)]:
    [undefined] and [0] are falsy. *)
Definition truthy (val : option Z) : bool :=
  match val with
  | Some z => negb (z =? 0)
  | None => false
  end.

Inductive ErrorClass : Type :=
| ClsError
| ClsDOMException
| ClsTimeoutError
| ClsDatabaseError
| ClsDatabaseIndexError
| ClsDatabaseTimeoutError.

Global Instance ErrorClass_eq_dec : EqDecision ErrorClass.
Proof. solve_decision. Defined.

Definition class_name (c : ErrorClass) : string :=
  match c with
  | ClsError => "Error"
  | ClsDOMException => "DOMException"
  | ClsTimeoutError => "TimeoutError"
  | ClsDatabaseError => "DatabaseError"
  | ClsDatabaseIndexError => "DatabaseIndexError"
  | ClsDatabaseTimeoutError => "DatabaseTimeoutError"
  end.

(** [extends c] is the direct superclass of [c]. *)
Definition extends (c : ErrorClass) : option ErrorClass :=
  match c with
  | ClsError => None
  | ClsDOMException => Some ClsError
  | ClsTimeoutError => Some ClsError
  | ClsDatabaseError => Some ClsError
  | ClsDatabaseIndexError => Some ClsDatabaseError
  | ClsDatabaseTimeoutError => Some ClsDatabaseError
  end.

(** An error object: its class, its [name] and [message], and the error
    whose stack the constructor of [DatabaseError] appended to its own. *)
#[warnings="-register-all"]
Inductive JsError : Type :=
| MkError (cls : ErrorClass) (name message : string) (appended : option JsError).

Definition err_class (e : JsError) : ErrorClass :=
  match e with MkError c _ _ _ => c end.
Definition err_name (e : JsError) : string :=
  match e with MkError _ n _ _ => n end.
Definition err_message (e : JsError) : string :=
  match e with MkError _ _ m _ => m end.
Definition err_appended (e : JsError) : option JsError :=
  match e with MkError _ _ _ a => a end.

(** [e instanceof c]: the class of [e] is [c] or one of its subclasses
    (the hierarchy above is two levels deep). *)
Definition instanceof (e : JsError) (c : ErrorClass) : bool :=
  let k := err_class e in
  bool_decide (k = c)
  || bool_decide (extends k = Some c)
  || bool_decide (extends k ≫= extends = Some c).

(** A value caught or passed to [reject]: an error object, or [null]. *)
Definition Thrown : Type := option JsError.

(** [class DatabaseError extends Error { constructor(msg, err?) }], run
    for the class [cls] that [new] was applied to: [name] is the
    constructor's name, and the stack of [err] is appended when [err] is
    an [Error]. *)
Definition new_DatabaseError_as (cls : ErrorClass) (msg : string) (err : Thrown) : JsError :=
  MkError cls (class_name cls) msg
    (match err with
     | Some e => if instanceof e ClsError then Some e else None
     | None => None
     end).

Definition new_DatabaseError (msg : string) (err : Thrown) : JsError :=
  new_DatabaseError_as ClsDatabaseError msg err.

(** [class DatabaseIndexError { constructor() { super('Miss index') } }] *)
Definition new_DatabaseIndexError : JsError :=
  new_DatabaseError_as ClsDatabaseIndexError "Miss index" None.

(** [class DatabaseTimeoutError extends DatabaseError {}] *)
Definition new_DatabaseTimeoutError (msg : string) : JsError :=
  new_DatabaseError_as ClsDatabaseTimeoutError msg None.

Definition digit_string (n : Z) : string :=
  NilZero.string_of_int (Z.to_int n).

(** [class TimeoutError extends Error]: message [`Timeout ${timeout}`]. *)
Definition new_TimeoutError (timeout : Z) : JsError :=
  MkError ClsTimeoutError (class_name ClsTimeoutError)
    ("Timeout " +:+ digit_string timeout) None.

(** A [DOMException] raised by the engine, identified by its name. *)
Definition DOMException (name : string) : JsError :=
  MkError ClsDOMException name "" None.

End Js.

(** ** The IndexedDB engine (environment) *)

Module IDB.
Import Js.

(** [interface ImageMap { id?: number; row: number; col: number; data }] *)
Record ImageMap : Type := mkImageMap {
  id : option Z;
  row : Z;
  col : Z;
  data : list Byte.byte
}.

(** [{ ...imageMap, id: k }] *)
Definition with_id (k : option Z) (v : ImageMap) : ImageMap :=
  {| id := k; row := row v; col := col v; data := data v |}.

(** An index of an object store: [createIndex(name, keyPath, { unique })]. *)
Record IDBIndex : Type := mkIndex {
  idx_keyPath : list string;
  idx_unique : bool
}.

(** An object store created with [{ keyPath: 'id', autoIncrement: true }]:
    its records by primary key, the current number of its key generator
    and its indexes by name. *)
Record ObjectStore : Type := mkStore {
  records : gmap Z ImageMap;
  keygen : Z;
  indexes : gmap string IDBIndex
}.

(** Names of the [DOMException]s the engine raises here. *)
Inductive DOMError : Type :=
| ConstraintError
| DataError
| NotFoundError
| InvalidStateError
| AbortError
| VersionError.

Definition dom_name (e : DOMError) : string :=
  match e with
  | ConstraintError => "ConstraintError"
  | DataError => "DataError"
  | NotFoundError => "NotFoundError"
  | InvalidStateError => "InvalidStateError"
  | AbortError => "AbortError"
  | VersionError => "VersionError"
  end.

Definition dom_exception (e : DOMError) : JsError := DOMException (dom_name e).

(** Evaluating a key path on a record: the number held by the field, if
    any. *)
Definition field (v : ImageMap) (name : string) : option Z :=
  if decide (name = "id") then id v
  else if decide (name = "row") then Some (row v)
  else if decide (name = "col") then Some (col v)
  else None.

(** The key of a record in an index with an array key path; a record with
    no valid key is not in the index. *)
Definition index_key (ix : IDBIndex) (v : ImageMap) : option (list Z) :=
  mapM (field v) (idx_keyPath ix).

(** The record [v], stored under primary key [k], would break a
    uniqueness constraint of index [ix]: another record of the store has
    the same key in [ix]. *)
Definition conflicts_in (ix : IDBIndex) (k : Z) (v : ImageMap)
    (rs : gmap Z ImageMap) : Prop :=
  idx_unique ix = true ∧
  ∃ key, index_key ix v = Some key ∧
    map_Exists (λ k' v', k' ≠ k ∧ index_key ix v' = Some key) rs.

Global Instance conflicts_in_dec ix k v rs : Decision (conflicts_in ix k v rs).
Proof.
  unfold conflicts_in. destruct (index_key ix v) as [key|].
  - destruct (decide (idx_unique ix = true ∧
      map_Exists (λ k' v', k' ≠ k ∧ index_key ix v' = Some key) rs)) as [H|H].
    + left. destruct H. eauto.
    + right. intros [? (key' & [= <-] & ?)]. auto.
  - right. intros [? (key' & [=] & ?)].
Defined.

Definition constraint_violation (k : Z) (v : ImageMap) (s : ObjectStore) : bool :=
  bool_decide (map_Exists (λ _ ix, conflicts_in ix k v (records s)) (indexes s)).

(** The key generator: the largest number it hands out. *)
Definition KEY_MAX : Z := 2 ^ 53.

(** "Possibly update the key generator" for an explicit key [k]. *)
Definition bump_keygen (k : Z) (current : Z) : Z :=
  let value := Z.min k KEY_MAX in
  if current <=? value then value + 1 else current.

(** "Store a record into an object store".  [no_overwrite] is set for
    [add] and clear for [put].  A failed request leaves the store as it
    was. *)
Definition store_record (no_overwrite : bool) (v : ImageMap) (s : ObjectStore)
    : DOMError + ObjectStore :=
  match id v with
  | None =>
      (* no key at the key path: generate one and inject it *)
      if KEY_MAX <? keygen s then inl ConstraintError
      else
        let k := keygen s in
        let v' := with_id (Some k) v in
        if no_overwrite && bool_decide (is_Some (records s !! k))
        then inl ConstraintError
        else if constraint_violation k v' s then inl ConstraintError
        else inr {| records := <[k := v']> (records s);
                    keygen := k + 1;
                    indexes := indexes s |}
  | Some k =>
      if no_overwrite && bool_decide (is_Some (records s !! k))
      then inl ConstraintError
      else if constraint_violation k v s then inl ConstraintError
      else inr {| records := <[k := v]> (records s);
                  keygen := bump_keygen k (keygen s);
                  indexes := indexes s |}
  end.

(** [store.add(value)], [store.put(value)], [store.delete(key)] *)
Definition store_add : ImageMap → ObjectStore → DOMError + ObjectStore :=
  store_record true.

Definition store_put : ImageMap → ObjectStore → DOMError + ObjectStore :=
  store_record false.

Definition store_delete (k : Z) (s : ObjectStore) : ObjectStore :=
  {| records := delete k (records s);
     keygen := keygen s;
     indexes := indexes s |}.

(** Records are returned in ascending order of their primary key. *)
Definition key_le (a b : Z * ImageMap) : Prop := a.1 ≤ b.1.

Global Instance key_le_dec a b : Decision (key_le a b).
Proof. unfold key_le. apply _. Defined.

(** [index.getAll(IDBKeyRange.only(key))] on the index [ix]. *)
Definition index_getAll (ix : IDBIndex) (key : list Z) (s : ObjectStore)
    : list ImageMap :=
  (merge_sort key_le
     (map_to_list (filter (λ kv, index_key ix kv.2 = Some key) (records s)))).*2.

(** [store.createIndex(name, keyPath, { unique })] inside an upgrade
    transaction: fails when the index exists, or when the records already
    in the store break the uniqueness it asks for. *)
Definition createIndex (name : string) (ix : IDBIndex) (s : ObjectStore)
    : DOMError + ObjectStore :=
  if bool_decide (is_Some (indexes s !! name)) then inl ConstraintError
  else if bool_decide (map_Exists (λ k v, conflicts_in ix k v (records s)) (records s))
  then inl ConstraintError
  else inr {| records := records s;
              keygen := keygen s;
              indexes := <[name := ix]> (indexes s) |}.

(** A freshly created object store. *)
Definition empty_store : ObjectStore :=
  {| records := ∅; keygen := 1; indexes := ∅ |}.

End IDB.

(** ** Transactions over the [image_map] table *)

Module Tx.
Import Js IDB.

(** A request placed on the object store of a transaction. *)
Inductive Request : Type :=
| GetAll (index : string) (key : list Z)
| Add (v : ImageMap)
| Put (v : ImageMap)
| Delete (k : Z).

Inductive IDBTransactionMode : Type := readonly | readwrite.

(** A transaction on [image_map]: the connection [tx.db] it belongs to
    (a handle of the connection manager below), the table as the next
    request will see it, and the requests the engine has executed so far,
    oldest first.  Requests of one transaction are executed in the order in
    which they were placed. *)
Record IDBTransaction : Type := mkTx {
  tx_db : nat;
  tx_store : ObjectStore;
  tx_requests : list Request
}.

Definition executed (r : Request) (s : ObjectStore) (tx : IDBTransaction)
    : IDBTransaction :=
  {| tx_db := tx_db tx; tx_store := s; tx_requests := tx_requests tx ++ [r] |}.

(** Where an asynchronous function stands with respect to its
    transaction: it goes on with a value; or one of its requests failed,
    nothing handled the error event and the engine aborted the
    transaction; or the function threw. *)
Inductive Step (A : Type) : Type :=
| Next (a : A) (tx : IDBTransaction)
| Fail (e : DOMError) (tx : IDBTransaction)
| Throw (e : Thrown) (tx : IDBTransaction).
Arguments Next {A} a tx.
Arguments Fail {A} e tx.
Arguments Throw {A} e tx.

Definition M (A : Type) : Type := IDBTransaction → Step A.

Definition ret {A} (a : A) : M A := λ tx, Next a tx.

Definition bind {A B} (c : M A) (k : A → M B) : M B :=
  λ tx, match c tx with
        | Next a tx' => k a tx'
        | Fail e tx' => Fail e tx'
        | Throw e tx' => Throw e tx'
        end.

Notation "'let*' x ':=' c 'in' k" := (bind c (λ x, k))
  (at level 10, x pattern, c at level 100, k at level 200).
Notation "c ';;' k" := (bind c (λ _, k))
  (at level 100, k at level 200, right associativity).

(** [for (let x of xs) { body }] *)
Fixpoint for_of {A} (xs : list A) (body : A → M unit) : M unit :=
  match xs with
  | [] => ret tt
  | x :: xs' => body x ;; for_of xs' body
  end.

(** [xs.map(f)] where every [f x] places its request at once. *)
Fixpoint map_requests {A B} (f : A → M B) (xs : list A) : M (list B) :=
  match xs with
  | [] => ret []
  | x :: xs' => let* b := f x in let* bs := map_requests f xs' in ret (b :: bs)
  end.

(** [store.add], [store.put], [store.delete] placed on the transaction. *)
Definition write (r : Request) (res : DOMError + ObjectStore) : M unit :=
  λ tx, match res with
        | inr s' => Next tt (executed r s' tx)
        | inl e => Fail e (executed r (tx_store tx) tx)
        end.

Definition add (v : ImageMap) : M unit :=
  λ tx, write (Add v) (store_add v (tx_store tx)) tx.

Definition put (v : ImageMap) : M unit :=
  λ tx, write (Put v) (store_put v (tx_store tx)) tx.

Definition delete (k : Z) : M unit :=
  λ tx, write (Delete k) (inr (store_delete k (tx_store tx))) tx.

(** [IDBKeyRange.only([a, b])]: a [DataError] unless both are numbers. *)
Definition only (key : list JsNum) : option (list Z) :=
  mapM (λ x, match x with JNumber z => Some z | _ => None end) key.

(** [store.index(name).getAll(IDBKeyRange.only(key))] awaited through
    [request2promise]: [store.index] throws when there is no such index. *)
Definition index_getAll_only (name : string) (key : list JsNum) : M (list ImageMap) :=
  λ tx, match indexes (tx_store tx) !! name with
        | None => Throw (Some (dom_exception NotFoundError)) tx
        | Some ix =>
            match only key with
            | None => Throw (Some (dom_exception DataError)) tx
            | Some k =>
                Next (index_getAll ix k (tx_store tx))
                     (executed (GetAll name k) (tx_store tx) tx)
            end
        end.

(** What a call amounts to: it never had a transaction, or it ran in
    one. *)
Inductive Call (A : Type) : Type :=
| NoTx (e : Thrown)
| InTx (s : Step A).
Arguments NoTx {A} e.
Arguments InTx {A} s.

(** [await f(..., { transaction: tx })] inside a function that holds
    [tx]: a rejection is thrown in the caller. *)
Definition await {A} (call : IDBTransaction → Call A) : M A :=
  λ tx, match call tx with
        | NoTx e => Throw e tx
        | InTx s => s
        end.

(** The end of the transaction of a call. *)
Inductive Outcome : Type :=
| Committed (s : ObjectStore)
| Aborted (cause : DOMError)
| Uncaught (e : Thrown) (s : option ObjectStore).

(** What the engine was asked and how the transaction ended.  When
    every request succeeded the transaction completes and the promise
    of [transaction2promise] resolves; when a request failed the
    transaction is rolled back and the call rejects; when the function
    threw, the requests placed before still commit. *)
Definition finish {A} (c : Call A) : list Request * Outcome :=
  match c with
  | NoTx e => ([], Uncaught e None)
  | InTx (Next _ tx) => (tx_requests tx, Committed (tx_store tx))
  | InTx (Fail e tx) => (tx_requests tx, Aborted e)
  | InTx (Throw e tx) => (tx_requests tx, Uncaught e (Some (tx_store tx)))
  end.

End Tx.

(** ** The query and the three upserts *)

Module Store.
Import Js IDB Tx.

Definition IMAGE_MAP : string := "image_map".

Record QueryParam : Type := mkQuery {
  q_row : JsNum;
  q_col : JsNum
}.

Record QueryOptions : Type := mkOptions {
  transaction : option IDBTransaction
}.

Section WithSession.

(** What [await beginTransaction(storeNames, mode)] yields: a transaction
    of the current session, or the error of [getSingletonDB]. *)
Variable beginTransaction : string → IDBTransactionMode → Thrown + IDBTransaction.

(** [tx.objectStore(IMAGE_MAP)] succeeds on every transaction here: they
    are all begun on [image_map]. *)
Definition getImageMaps (query : QueryParam) (options : QueryOptions)
    : Call (list ImageMap) :=
  match (match transaction options with
         | Some tx => inr tx
         | None => beginTransaction IMAGE_MAP readonly
         end) with
  | inl e => NoTx e
  | inr tx =>
      InTx (if negb (isNil (q_row query)) && negb (isNil (q_col query))
            then index_getAll_only "idx_row_col" [q_row query; q_col query] tx
            else Throw (Some new_DatabaseIndexError) tx)
  end.

(** [getImageMaps({ row: imageMap.row, col: imageMap.col },
                  { transaction: tx })] and [const [_imageMap] = ...] *)
Definition lookup_same_cell (imageMap : ImageMap) : M (option ImageMap) :=
  let* found := await (λ tx,
      getImageMaps {| q_row := JNumber (row imageMap); q_col := JNumber (col imageMap) |}
                   {| transaction := Some tx |}) in
  ret (head found).

(** [_imageMap && _imageMap.id]: the id when the condition holds. *)
Definition and_id (_imageMap : option ImageMap) : option Z :=
  m ← _imageMap; k ← id m; if truthy (Some k) then Some k else None.

Definition as_array (imageMaps : ImageMap + list ImageMap) : list ImageMap :=
  match imageMaps with
  | inl imageMap => [imageMap]
  | inr l => l
  end.

Definition begin_readwrite {A} (body : M A) : Call A :=
  match beginTransaction IMAGE_MAP readwrite with
  | inl e => NoTx e
  | inr tx => InTx (body tx)
  end.

(** The body of the loop of [setImageMap]. *)
Definition setImageMap_each (imageMap : ImageMap) : M unit :=
  let* _imageMap := lookup_same_cell imageMap in
  match and_id _imageMap with
  | Some k => delete k
  | None => ret tt
  end ;;
  add imageMap.

Definition setImageMap (imageMaps : ImageMap + list ImageMap) : Call unit :=
  begin_readwrite (for_of (as_array imageMaps) setImageMap_each).

(** The body of the loop of [setImageMap2]. *)
Definition setImageMap2_each (imageMap : ImageMap) : M unit :=
  let* _imageMap := lookup_same_cell imageMap in
  match _imageMap with
  | Some m => put (with_id (id m) imageMap)
  | None => add imageMap
  end.

Definition setImageMap2 (imageMaps : ImageMap + list ImageMap) : Call unit :=
  begin_readwrite (for_of (as_array imageMaps) setImageMap2_each).

(** The [then] callback of [setImageMap3]. *)
Definition setImageMap3_then (task : ImageMap * option ImageMap) : M unit :=
  let '(imageMap, _imageMap) := task in
  match and_id _imageMap with
  | Some k => put (with_id (Some k) imageMap)
  | None => add imageMap
  end.

(** Every [getImageMaps] of [imageMaps.map] places its [getAll] before
    the first result arrives; the [then] callbacks run as the results
    arrive, in the order of the requests, and place the writes. *)
Definition setImageMap3 (imageMaps : ImageMap + list ImageMap) : Call unit :=
  begin_readwrite
    (let* found := map_requests lookup_same_cell (as_array imageMaps) in
     for_of (zip (as_array imageMaps) found) setImageMap3_then).

End WithSession.

(** A session that is open on a table holding [s]: [beginTransaction]
    yields a fresh transaction of connection [h]. *)
Definition session (h : nat) (s : ObjectStore)
    : string → IDBTransactionMode → Thrown + IDBTransaction :=
  λ _ _, inr {| tx_db := h; tx_store := s; tx_requests := [] |}.

End Store.

(** ** The schema bootstrap of [open] *)

Module Schema.
Import Js IDB Store.

Definition DATABASE : string := "idb".
Definition DATABASE_VERSION : Z := 1.

(** The database [idb] as the engine keeps it: its version (0 before it
    is first created) and its object stores by name. *)
Record Database : Type := mkDatabase {
  version : Z;
  objectStores : gmap string ObjectStore
}.

Definition no_database : Database := {| version := 0; objectStores := ∅ |}.

(** The schema changes a handler asks of the engine. *)
Inductive SchemaCall : Type :=
| CreateObjectStore (name : string)
| CreateIndex (store name : string).

(** [db.createObjectStore(name, { keyPath: 'id', autoIncrement: true })]:
    fails when a store of that name exists. *)
Definition createObjectStore (name : string) (d : Database) : DOMError + Database :=
  if bool_decide (is_Some (objectStores d !! name)) then inl ConstraintError
  else inr {| version := version d;
              objectStores := <[name := empty_store]> (objectStores d) |}.

Definition idx_row_col : IDBIndex :=
  {| idx_keyPath := ["row"; "col"]; idx_unique := true |}.

(** [request.onupgradeneeded]: the calls made, and the database when the
    upgrade transaction goes through, or the error that aborts it. *)
Definition onupgradeneeded (d : Database) : list SchemaCall * (DOMError + Database) :=
  let created :=
    if negb (bool_decide (is_Some (objectStores d !! IMAGE_MAP)))
    then ([CreateObjectStore IMAGE_MAP], createObjectStore IMAGE_MAP d)
    else ([], inr d) in
  match created with
  | (calls, inl e) => (calls, inl e)
  | (calls, inr d1) =>
      match objectStores d1 !! IMAGE_MAP with
      | None => (calls, inl NotFoundError)
      | Some imageMapStore =>
          if negb (bool_decide (is_Some (indexes imageMapStore !! "idx_row_col")))
          then
            (calls ++ [CreateIndex IMAGE_MAP "idx_row_col"],
             match createIndex "idx_row_col" idx_row_col imageMapStore with
             | inl e => inl e
             | inr s => inr {| version := version d1;
                               objectStores := <[IMAGE_MAP := s]> (objectStores d1) |}
             end)
          else (calls, inr d1)
      end
  end.

(** [indexedDB.open(DATABASE, DATABASE_VERSION)] as the engine runs it:
    a stored version above the requested one is a [VersionError]; a
    stored version below it runs the upgrade handler in a version-change
    transaction, whose failure leaves the database as it was; an equal
    version opens the database as it is. *)
Definition open_database (d : Database) : list SchemaCall * (DOMError + Database) :=
  if DATABASE_VERSION <? version d then ([], inl VersionError)
  else if version d <? DATABASE_VERSION then
    match onupgradeneeded d with
    | (calls, inr d') =>
        (calls, inr {| version := DATABASE_VERSION; objectStores := objectStores d' |})
    | (calls, inl _) => (calls, inl AbortError)
    end
  else ([], inr d).

(** The database after an open request: changed only by a successful
    upgrade. *)
Definition after_open (d : Database) : Database :=
  match (open_database d).2 with
  | inr d' => d'
  | inl _ => d
  end.

(** The rows of the table [image_map], if it exists. *)
Definition rows (d : Database) : option (gmap Z ImageMap) :=
  records <$> objectStores d !! IMAGE_MAP.

End Schema.

(** ** The connection manager and the promise bridge *)

Module Conn.
Import Js IDB Tx.

Definition OPEN_DB_TIMEOUT : Z := 5 * 1000.

Inductive IDBDatabaseState : Type := OPEN | CLOSING | CLOSED.

Global Instance IDBDatabaseState_eq_dec : EqDecision IDBDatabaseState.
Proof. solve_decision. Defined.

Inductive Status : Type :=
| Awaiting
| Returned (session : option nat)
| Threw (e : JsError).

(** One call of [getSingletonDB]: whether its open request has had its
    final event, whether the promise of [open()] is settled, and where the
    call stands. *)
Record CallState : Type := mkCall {
  request_done : bool;
  open_settled : bool;
  status : Status
}.

(** The state shared by all calls: whether [window.indexedDB] exists,
    the [state] field of every database handle that [open] has produced
    (a handle is its position in the list), the closure variable [db],
    and the calls made so far. *)
Record World : Type := mkWorld {
  indexedDB : bool;
  handles : list IDBDatabaseState;
  db : option nat;
  calls : list CallState
}.

Definition set_handles (hs : list IDBDatabaseState) (w : World) : World :=
  {| indexedDB := indexedDB w; handles := hs; db := db w; calls := calls w |}.

Definition set_db (d : option nat) (w : World) : World :=
  {| indexedDB := indexedDB w; handles := handles w; db := d; calls := calls w |}.

Definition set_calls (cs : list CallState) (w : World) : World :=
  {| indexedDB := indexedDB w; handles := handles w; db := db w; calls := cs |}.

(** [isActive(db)]: [db.state === IDBDatabaseState.OPEN] *)
Definition isActive (w : World) (h : nat) : bool :=
  bool_decide (handles w !! h = Some OPEN).

(** [db && isActive(db)] on the closure variable. *)
Definition db_isActive (w : World) : bool :=
  match db w with
  | Some h => isActive w h
  | None => false
  end.

(** The [close] that [open] installs on a handle: the state goes through
    CLOSING to CLOSED around the engine's own close. *)
Definition close (h : nat) (w : World) : World :=
  set_handles (<[h := CLOSED]> (<[h := CLOSING]> (handles w))) w.

(** The listener of the handle's [close] event. *)
Definition on_close_event (h : nat) (w : World) : World :=
  set_handles (<[h := CLOSED]> (handles w)) w.

(** [request.onsuccess] of [open]: the new handle gets the wrapped
    [close] and the state OPEN, and [open()] resolves with it. *)
Definition open_onsuccess (w : World) : World * nat :=
  (set_handles (handles w ++ [OPEN]) w, length (handles w)).

(** [request.onerror] of [open]: [reject(request.error)], a DOMException
    or null. *)
Definition open_onerror (name : option string) : Thrown := DOMException <$> name.

(** [request.onblocked] of [open]: [reject(new DatabaseError('IDB Blocked'))] *)
Definition open_onblocked : Thrown := Some (new_DatabaseError "IDB Blocked" None).

(** [timeout(time)]: what the promise rejects with when its timer
    fires. *)
Definition timeout (time : Z) : Thrown := Some (new_TimeoutError time).

(** The events of an open request. *)
Inductive OpenEvent : Type :=
| upgradeneeded
| blocked
| error (name : option string)
| success.

(** [getSingletonDB] up to its [await]: the status is [Awaiting] when
    the race between the timeout and [open()] has started. *)
Definition getSingletonDB_enter (w : World) : World * Status :=
  if db_isActive w then (w, Returned (db w))
  else
    let w := set_db None w in
    if indexedDB w then (w, Awaiting)
    else
      (w, Threw (new_DatabaseError "打开数据库失败。"
                   (Some (new_DatabaseError "浏览器不支持 indexedDB" None)))).

(** [getSingletonDB] from its [await] on, given how the race settled:
    with the handle [_db] of [open()], or with a rejection. *)
Definition getSingletonDB_resume (settled : Thrown + nat) (w : World) : World * Status :=
  match settled with
  | inr _db =>
      let w := if db_isActive w then close _db w else set_db (Some _db) w in
      (w, Returned (db w))
  | inl err =>
      (w, Threw
            (if from_option (λ e, instanceof e ClsTimeoutError) false err
             then new_DatabaseTimeoutError "打开数据库超时。"
             else new_DatabaseError "打开数据库失败。" err))
  end.

(** What happens in the event loop. *)
Inductive Event : Type :=
| call
| engine (c : nat) (ev : OpenEvent)
| timer (c : nat).

Definition set_call (c : nat) (cs : CallState) (w : World) : World :=
  set_calls (<[c := cs]> (calls w)) w.

(** The race of call [c] settles, if it has not yet. *)
Definition settle_race (c : nat) (cs : CallState) (settled : Thrown + nat)
    (w : World) : World :=
  match status cs with
  | Awaiting =>
      let '(w, st) := getSingletonDB_resume settled w in
      set_call c {| request_done := request_done cs;
                    open_settled := open_settled cs;
                    status := st |} w
  | _ => set_call c cs w
  end.

(** The promise of [open()] of call [c] settles, if it has not yet. *)
Definition settle_open (c : nat) (cs : CallState) (settled : Thrown + nat)
    (w : World) : World :=
  if open_settled cs then set_call c cs w
  else settle_race c {| request_done := request_done cs;
                        open_settled := true;
                        status := status cs |} settled w.

Definition request_finished (cs : CallState) : CallState :=
  {| request_done := true; open_settled := open_settled cs; status := status cs |}.

Definition step (w : World) (ev : Event) : World :=
  match ev with
  | call =>
      let '(w, st) := getSingletonDB_enter w in
      let started := match st with Awaiting => true | _ => false end in
      set_calls (calls w ++ [{| request_done := negb started;
                                open_settled := negb started;
                                status := st |}]) w
  | timer c =>
      match calls w !! c with
      | Some cs => settle_race c cs (inl (timeout OPEN_DB_TIMEOUT)) w
      | None => w
      end
  | engine c ev =>
      match calls w !! c with
      | Some cs =>
          if request_done cs then w
          else
            match ev with
            | upgradeneeded => w (* the handler acts on the schema alone *)
            | blocked => settle_open c cs (inl open_onblocked) w
            | error name =>
                settle_open c (request_finished cs) (inl (open_onerror name)) w
            | success =>
                let '(w, _db) := open_onsuccess w in
                settle_open c (request_finished cs) (inr _db) w
            end
      | None => w
      end
  end.

Definition run (evs : list Event) (w : World) : World := foldl step w evs.

(** The page has just loaded: no handle, no call. *)
Definition initial : World :=
  {| indexedDB := true; handles := []; db := None; calls := [] |}.

Definition open_handles (w : World) : nat :=
  length (filter (λ st, st = OPEN) (handles w)).

(** One call on its own: the engine fires the last event of its open
    request [delay] ms after the call, or never; the timer fires
    [OPEN_DB_TIMEOUT] ms after it.  [tie] tells whether the timer comes
    first when both fall on the same millisecond. *)
Definition lone_call (tie : bool) (delay : option Z) (ev : OpenEvent) (w : World)
    : list Event :=
  let c := length (calls w) in
  match delay with
  | None => [call; timer c]
  | Some d =>
      if (OPEN_DB_TIMEOUT <? d) || (tie && (d =? OPEN_DB_TIMEOUT))
      then [call; timer c; engine c ev]
      else [call; engine c ev; timer c]
  end.

(** *** The promise bridge *)

Record IDBRequest (T : Type) : Type := mkRequest {
  req_result : T;
  req_error : Thrown;
  req_transaction : option IDBTransaction
}.
Arguments req_result {T} _.
Arguments req_error {T} _.
Arguments req_transaction {T} _.

Inductive Settled (T : Type) : Type :=
| Resolved (v : T)
| Rejected (e : Thrown).
Arguments Resolved {T} v.
Arguments Rejected {T} e.

Inductive RequestEvent : Type := request_success | request_error.

(** [err && err.name === 'InvalidStateError'] *)
Definition is_InvalidStateError (err : Thrown) : bool :=
  from_option (λ e, bool_decide (err_name e = "InvalidStateError")) false err.

(** [request2promise(request)], when the request fires [ev]. *)
Definition request2promise {T} (request : IDBRequest T) (ev : RequestEvent)
    (w : World) : World * Settled T :=
  match ev with
  | request_error =>
      let err := req_error request in
      let w :=
        if is_InvalidStateError err then
          match req_transaction request with
          | Some tx => close (tx_db tx) w
          | None => w
          end
        else w in
      (w, Rejected err)
  | request_success => (w, Resolved (req_result request))
  end.

Inductive TransactionEvent (T : Type) : Type :=
| tx_complete
| tx_error (target : IDBRequest T)
| tx_abort.
Arguments tx_complete {T}.
Arguments tx_error {T} target.
Arguments tx_abort {T}.

(** [transaction2promise(tx)], when the transaction fires [ev]. *)
Definition transaction2promise {T} (tx : IDBTransaction) (ev : TransactionEvent T)
    (w : World) : World * Settled unit :=
  match ev with
  | tx_complete => (w, Resolved tt)
  | tx_error request =>
      let err := req_error request in
      let w := if is_InvalidStateError err then close (tx_db tx) w else w in
      (w, Rejected err)
  | tx_abort => (w, Rejected (Some (new_DatabaseError "Transaction aborted" None)))
  end.

End Conn.

(** ** The properties the claims speak of *)

Module Props.
Import Js IDB Tx Store Schema Conn.

(** The number of records of the table in the cell [(r, c)]. *)
Definition cell_count (r c : Z) (rs : gmap Z ImageMap) : nat :=
  size (filter (λ kv, row kv.2 = r ∧ col kv.2 = c) rs).

(** No two records of the table share a cell. *)
Definition unique_row_col (rs : gmap Z ImageMap) : Prop :=
  ∀ k1 k2 v1 v2,
    rs !! k1 = Some v1 → rs !! k2 = Some v2 →
    row v1 = row v2 → col v1 = col v2 → k1 = k2.

(** The states of the table [image_map] that the engine can be in once
    [open] has created it: the unique index on [(row, col)] is there and
    holds; every record carries its primary key at the key path [id];
    the key generator is past every key, unless it is exhausted. *)
Record consistent (s : ObjectStore) : Prop := mkConsistent {
  has_index : indexes s !! "idx_row_col" = Some idx_row_col;
  index_holds : unique_row_col (records s);
  key_at_id : ∀ k v, records s !! k = Some v → id v = Some k;
  keygen_past : keygen s ≤ KEY_MAX → ∀ k v, records s !! k = Some v → k < keygen s
}.

(** The table holds a record in the cell of [r] under an id other than
    [k], and its key generator is past [k] unless it is exhausted. *)
Definition cell_held_apart (r : ImageMap) (k : Z) (s : ObjectStore) : Prop :=
  (∃ kc vc, records s !! kc = Some vc ∧ row vc = row r ∧ col vc = col r ∧ kc ≠ k) ∧
  (keygen s ≤ KEY_MAX → k < keygen s).

(** [open] creates no other index on the table. *)
Definition sole_index (s : ObjectStore) : Prop :=
  indexes s = {["idx_row_col" := idx_row_col]}.

(** A computation on a transaction keeps the table consistent: the
    table it leaves is consistent, whether it goes on or throws (a failed
    request rolls the transaction back). *)
Definition preserves {A} (c : M A) : Prop :=
  ∀ tx, consistent (tx_store tx) →
    match c tx with
    | Next _ tx' | Throw _ tx' => consistent (tx_store tx')
    | Fail _ _ => True
    end.

(** The three entry points of the upsert. *)
Inductive Upsert : Type :=
| BySetImageMap (imageMaps : ImageMap + list ImageMap)
| BySetImageMap2 (imageMaps : ImageMap + list ImageMap)
| BySetImageMap3 (imageMaps : ImageMap + list ImageMap).

Definition upsert (begin : string → IDBTransactionMode → Thrown + IDBTransaction)
    (u : Upsert) : Call unit :=
  match u with
  | BySetImageMap imageMaps => setImageMap begin imageMaps
  | BySetImageMap2 imageMaps => setImageMap2 begin imageMaps
  | BySetImageMap3 imageMaps => setImageMap3 begin imageMaps
  end.

(** The table after a call made on the table [s] through an open
    session: what the transaction committed, or [s] when it was rolled
    back. *)
Definition table_after (s : ObjectStore) (u : Upsert) : ObjectStore :=
  match (finish (upsert (session 0 s) u)).2 with
  | Committed s' | Uncaught _ (Some s') => s'
  | Aborted _ | Uncaught _ None => s
  end.

(** The table [image_map] that the first [open] creates. *)
Definition opened_table : ObjectStore :=
  default empty_store (objectStores (after_open no_database) !! IMAGE_MAP).

(** Two errors that a caller cannot tell apart by class, name or
    message. *)
Definition same_kind (e1 e2 : JsError) : Prop :=
  err_class e1 = err_class e2 ∧ err_name e1 = err_name e2 ∧
  err_message e1 = err_message e2.

(** Every call made so far has returned a session. *)
Definition all_returned (w : World) : Prop :=
  Forall (λ cs, ∃ h, status cs = Returned (Some h)) (calls w).

(** No call made so far has failed. *)
Definition none_threw (w : World) : Prop :=
  Forall (λ cs, ∀ e, status cs ≠ Threw e) (calls w).

(** The rejection that [getSingletonDB] throws for a failed [open()]. *)
Definition open_failure (err : Thrown) : JsError :=
  new_DatabaseError "打开数据库失败。" err.

(** What a call that has not failed looks like: while it awaits the
    race, its open request is pending and [open()] is unsettled; once it
    has returned, its request is over and what it returned is the current
    session. *)
Definition call_in_order (w : World) (cs : CallState) : Prop :=
  match status cs with
  | Awaiting => request_done cs = false ∧ open_settled cs = false
  | Returned s => request_done cs = true ∧ s = db w ∧ is_Some (db w)
  | Threw _ => True
  end.

(** The worlds in which no session is orphaned: the open handles are the
    current session, which is open, and every call is in order. *)
Record tidy (w : World) : Prop := mkTidy {
  tidy_open : ∀ h, handles w !! h = Some OPEN → db w = Some h;
  tidy_db : ∀ h, db w = Some h → handles w !! h = Some OPEN;
  tidy_calls : Forall (call_in_order w) (calls w)
}.

End Props.

Import Js IDB Tx Store Schema Conn Props.

(** ** [errorWrapper] *)

Module Wrap.
Import Js.

(** What [JSON.stringify] makes of a value that is neither a string nor
    an error object: a text; nothing, as for [undefined] or a function; or
    an exception, as for an object that refers to itself. *)
Inductive Stringified : Type :=
| Text (s : string)
| NoText
| Raises (e : JsError).

(** What is handed to [errorWrapper]: a string, an error object, or any
    other value, given by what [JSON.stringify] makes of it. *)
Inductive Raised : Type :=
| RString (s : string)
| RError (e : JsError)
| ROther (json : Stringified).

(** How a call ends. *)
Inductive Completion (A : Type) : Type :=
| Returns (a : A)
| Throws (e : JsError).
Arguments Returns {A} a.
Arguments Throws {A} e.

(** [errorWrapper(err)].  Every error object is an [Error], so the test
    [err instanceof Error] holds whenever the first test fails on an error
    object; [new DatabaseError(undefined)] has the empty message. *)
Definition errorWrapper (err : Raised) : Completion JsError :=
  match err with
  | RError e =>
      if instanceof e ClsDatabaseError then Returns e
      else Returns (new_DatabaseError (err_name e +:+ ": " +:+ err_message e) (Some e))
  | RString s => Returns (new_DatabaseError s None)
  | ROther (Text s) => Returns (new_DatabaseError s None)
  | ROther NoText => Returns (new_DatabaseError "" None)
  | ROther (Raises e) => Throws e
  end.

End Wrap.

(** ** Batches, and what an upsert writes *)

Module Batch.
Import Js IDB Tx Store Schema Conn Props.

(** The cell of a record. *)
Definition cell (v : ImageMap) : Z * Z := (row v, col v).

(** The records [v] and [r] lie in the same cell. *)
Definition same_cell (v r : ImageMap) : Prop := row v = row r ∧ col v = col r.

(** No record of the table lies in the cell of [r]. *)
Definition cell_free (r : ImageMap) (s : ObjectStore) : Prop :=
  ∀ k v, records s !! k = Some v → ¬ same_cell v r.

(** [const [_imageMap] = await getImageMaps({ row, col }, ...)] on the
    table [s]. *)
Definition found_in (s : ObjectStore) (r : ImageMap) : option ImageMap :=
  head (index_getAll idx_row_col [row r; col r] s).

(** The table once [store.add(r)] has stored [r] under the key that the
    key generator provides. *)
Definition added (r : ImageMap) (s : ObjectStore) : ObjectStore :=
  {| records := <[keygen s := with_id (Some (keygen s)) r]> (records s);
     keygen := keygen s + 1;
     indexes := indexes s |}.

(** The table once the records of [xs] have been added so, one after the
    other. *)
Definition added_all (xs : list ImageMap) (s : ObjectStore) : ObjectStore :=
  foldl (λ s r, added r s) s xs.

(** A batch of new records for the table [s]: none carries an id, no two
    lie in the same cell, the cell of each one is free in [s], and the key
    generator has a key left for each one. *)
Record fresh_batch (xs : list ImageMap) (s : ObjectStore) : Prop := mkFresh {
  fresh_no_id : Forall (λ r, id r = None) xs;
  fresh_cells : NoDup (cell <$> xs);
  fresh_free : Forall (λ r, cell_free r s) xs;
  fresh_keys : keygen s + Z.of_nat (length xs) ≤ KEY_MAX + 1
}.

(** The request that [getImageMaps] places for the cell of [r]. *)
Definition lookup_of (r : ImageMap) : Request :=
  GetAll "idx_row_col" [row r; col r].

(** The records handed to an entry point. *)
Definition batch_of (u : Upsert) : list ImageMap :=
  match u with
  | BySetImageMap imageMaps | BySetImageMap2 imageMaps | BySetImageMap3 imageMaps =>
      as_array imageMaps
  end.

(** What the upsert of one record [r] does to the rows [rs] of the
    table: [r] is stored under a key [k'] that was free or held a record
    of the cell of [r]; any other row is as before, or was a record of
    that cell and is gone. *)
Definition cell_written (r : ImageMap) (rs rs' : gmap Z ImageMap) : Prop :=
  ∃ k', rs' !! k' = Some (with_id (Some k') r) ∧
        (rs !! k' = None ∨ ∃ m, rs !! k' = Some m ∧ same_cell m r) ∧
        ∀ k, k ≠ k' →
          rs' !! k = rs !! k ∨
          (rs' !! k = None ∧ ∃ m, rs !! k = Some m ∧ same_cell m r).

(** Every key of [rs0] still holds a record of the same cell in [rs]. *)
Definition cells_kept (rs0 rs : gmap Z ImageMap) : Prop :=
  ∀ k m, rs0 !! k = Some m → ∃ m', rs !! k = Some m' ∧ same_cell m' m.

(** What the upserts of the records of [xs], one after the other, do to
    the rows. *)
Fixpoint batch_written (xs : list ImageMap) (rs rs' : gmap Z ImageMap) : Prop :=
  match xs with
  | [] => rs' = rs
  | r :: xs' => ∃ rs1, cell_written r rs rs1 ∧ batch_written xs' rs1 rs'
  end.

End Batch.

(** ** The calls of [getSingletonDB] *)

Module Calls.
Import Js Conn Props.

(** The two errors of [getSingletonDB]: the timeout, and the failure of
    [open()] that keeps what was caught. *)
Definition getSingletonDB_error (e : JsError) : Prop :=
  e = new_DatabaseTimeoutError "打开数据库超时。" ∨ ∃ err, e = open_failure err.

(** Every call that has thrown has thrown one of them. *)
Definition throws_own_errors (w : World) : Prop :=
  Forall (λ cs, ∀ e, status cs = Threw e → getSingletonDB_error e) (calls w).

(** The closure variable [db] holds a handle that [open] has produced. *)
Definition db_known (w : World) : Prop :=
  ∀ h, db w = Some h → (h < length (handles w))%nat.

End Calls.

(** ** The requests of a transaction *)

Module Log.
Import Js IDB Tx.

(** The transaction that a computation leaves behind. *)
Definition tx_of {A} (s : Step A) : IDBTransaction :=
  match s with
  | Next _ tx | Fail _ tx | Throw _ tx => tx
  end.

(** Whatever the outcome, the computation only adds requests to the
    transaction, and every request it adds satisfies [P]. *)
Definition places (P : Request → Prop) {A} (c : M A) : Prop :=
  ∀ tx, ∃ placed,
    tx_requests (tx_of (c tx)) = tx_requests tx ++ placed ∧ Forall P placed.

(** The kinds of requests. *)
Definition is_write (q : Request) : Prop :=
  match q with Add _ | Put _ => True | _ => False end.

Definition not_Put (q : Request) : Prop :=
  match q with Put _ => False | _ => True end.

Definition not_Delete (q : Request) : Prop :=
  match q with Delete _ => False | _ => True end.

End Log.

(** ** [beginTransaction] *)

Module Begin.
Import Js IDB Tx Store Schema Conn.

(** [db.transaction(storeName, mode)] as the engine runs it on the handle
    [h] of the database [d]: an [InvalidStateError] when the connection
    is closed, a [NotFoundError] when the database has no object store of
    that name, and else a transaction on that object store, with no
    request yet. *)
Definition db_transaction (w : World) (d : Database) (h : nat)
    (storeName : string) (mode : IDBTransactionMode) : Thrown + IDBTransaction :=
  if isActive w h then
    match objectStores d !! storeName with
    | Some s => inr {| tx_db := h; tx_store := s; tx_requests := [] |}
    | None => inl (Some (dom_exception NotFoundError))
    end
  else inl (Some (dom_exception InvalidStateError)).

(** The [TypeError] of [undefined.transaction(...)]. *)
Definition TypeError : JsError := MkError ClsError "TypeError" "" None.

(** [beginTransaction(storeName, mode)], in the world [w] in which its
    call of [getSingletonDB] stands at [st]: nothing while that call
    awaits; its error when it threw; and, when it returned, what
    [db.transaction] gives on the handle returned. *)
Definition beginTransaction (w : World) (d : Database) (st : Status)
    (storeName : string) (mode : IDBTransactionMode)
    : option (Thrown + IDBTransaction) :=
  match st with
  | Awaiting => None
  | Threw e => Some (inl (Some e))
  | Returned None => Some (inl (Some TypeError))
  | Returned (Some h) => Some (db_transaction w d h storeName mode)
  end.

End Begin.

(** ** The demonstration at the end of the file *)

Module Demo.
Import Js IDB Tx Store Schema Conn Props.

(** [data: new ArrayBuffer(100)]: a hundred zero bytes. *)
Definition blank : list Byte.byte := replicate 100 Byte.x00.

(** The batch that the self-invoking function at the end of the file
    builds: one record for every cell of a grid of 100 rows and 100
    columns, row after row. *)
Definition imageMaps : list ImageMap :=
  r ← seqZ 0 100; c ← seqZ 0 100; [{| id := None; row := r; col := c; data := blank |}].

End Demo.

Import Wrap Batch Calls Log Begin.

(** * Proofs *)

(** ** The engine keeps the table consistent *)

Lemma index_key_row_col v : index_key idx_row_col v = Some [row v; col v].
Proof. reflexivity. Qed.

Lemma index_key_row_col_inv v (key : list Z) :
  index_key idx_row_col v = Some key ↔ key = [row v; col v].
Proof. rewrite index_key_row_col. split; congruence. Qed.

(** A write that the unique index lets through finds no other record in
    its cell. *)
Lemma no_violation_cell_free k v s k' v' :
  indexes s !! "idx_row_col" = Some idx_row_col →
  constraint_violation k v s = false →
  records s !! k' = Some v' → row v' = row v → col v' = col v → k' = k.
Proof.
  intros Hix Hno Hk' Hr Hc.
  destruct (decide (k' = k)) as [|Hne]; [done|].
  apply bool_decide_eq_false in Hno. exfalso. apply Hno.
  exists "idx_row_col", idx_row_col. split; [done|].
  split; [done|]. exists [row v; col v]. split; [apply index_key_row_col|].
  exists k', v'. split; [done|]. split; [done|].
  rewrite index_key_row_col. by rewrite Hr, Hc.
Qed.

Lemma bump_keygen_mono k current : current ≤ bump_keygen k current.
Proof. unfold bump_keygen. simpl. destruct (Z.leb_spec current (Z.min k KEY_MAX)); lia. Qed.

Lemma bump_keygen_past k current :
  bump_keygen k current ≤ KEY_MAX → k < bump_keygen k current.
Proof. unfold bump_keygen. simpl. destruct (Z.leb_spec current (Z.min k KEY_MAX)); lia. Qed.

(** What a successful [add] or [put] does: the record is stored under
    its own id, or under the next generated key; nothing else changes. *)
Lemma store_record_inr no_overwrite v s s' :
  store_record no_overwrite v s = inr s' →
  ∃ k,
    (id v = Some k ∨ (id v = None ∧ k = keygen s ∧ keygen s ≤ KEY_MAX)) ∧
    (no_overwrite = true → records s !! k = None) ∧
    constraint_violation k (with_id (Some k) v) s = false ∧
    records s' = <[k := with_id (Some k) v]> (records s) ∧
    keygen s' = match id v with
                | Some _ => bump_keygen k (keygen s)
                | None => k + 1
                end ∧
    indexes s' = indexes s.
Proof.
  unfold store_record. intros H.
  destruct (id v) as [k|] eqn:Hid.
  - exists k.
    assert (with_id (Some k) v = v) as -> by (destruct v; simpl in *; by subst).
    destruct no_overwrite; simpl in H.
    + case_bool_decide as Hex; [done|]. case_match; [done|]. simplify_eq. simpl.
      split_and!; auto. intros _. by apply eq_None_not_Some.
    + case_match; [done|]. simplify_eq. simpl. split_and!; auto. done.
  - exists (keygen s).
    case_match eqn:Hmax; [done|]. apply Z.ltb_ge in Hmax.
    destruct no_overwrite; simpl in H.
    + case_bool_decide as Hex; [done|]. case_match; [done|]. simplify_eq. simpl.
      split_and!; auto. intros _. by apply eq_None_not_Some.
    + case_match; [done|]. simplify_eq. simpl. split_and!; auto. done.
Qed.

Lemma store_record_consistent no_overwrite v s s' :
  consistent s → store_record no_overwrite v s = inr s' → consistent s'.
Proof.
  intros [Hix Huniq Hid Hgen] (k & Hk & _ & Hno & Hrs & Hkg & Hixs)%store_record_inr.
  split.
  - by rewrite Hixs.
  - rewrite Hrs. intros k1 k2 v1 v2 H1 H2 Hr Hc.
    apply lookup_insert_Some in H1 as [[<- <-]|[Hne1 H1]];
      apply lookup_insert_Some in H2 as [[<- <-]|[Hne2 H2]]; simpl in *.
    + done.
    + symmetry. eapply no_violation_cell_free; eauto.
    + eapply no_violation_cell_free; eauto.
    + by eapply Huniq.
  - rewrite Hrs. intros k1 v1 [[<- <-]|[_ H1]]%lookup_insert_Some; [done|].
    by eapply Hid.
  - rewrite Hrs, Hkg. intros Hle k1 v1 [[<- <-]|[Hne H1]]%lookup_insert_Some.
    + destruct Hk as [Hk|(Hk & -> & _)]; rewrite Hk in *; [|lia].
      by apply bump_keygen_past.
    + destruct Hk as [Hk|(Hk & -> & Hmax)]; rewrite Hk in *.
      * pose proof (bump_keygen_mono k (keygen s)).
        assert (keygen s ≤ KEY_MAX) as Hs by lia.
        specialize (Hgen Hs _ _ H1). lia.
      * specialize (Hgen Hmax _ _ H1). lia.
Qed.

Lemma store_delete_consistent k s : consistent s → consistent (store_delete k s).
Proof.
  intros [Hix Huniq Hid Hgen]. split; simpl.
  - done.
  - intros k1 k2 v1 v2 [_ H1]%lookup_delete_Some [_ H2]%lookup_delete_Some.
    by eapply Huniq.
  - intros k1 v1 [_ H1]%lookup_delete_Some. by eapply Hid.
  - intros Hle k1 v1 [_ H1]%lookup_delete_Some. by eapply Hgen.
Qed.

Lemma empty_store_with_index_consistent :
  consistent {| records := ∅; keygen := 1; indexes := {["idx_row_col" := idx_row_col]} |}.
Proof.
  split; simpl; [done|..].
  - by intros k1 k2 v1 v2 ?%lookup_empty_Some.
  - by intros k v ?%lookup_empty_Some.
  - by intros _ k v ?%lookup_empty_Some.
Qed.

(** ** The composite index holds at most one record per cell *)

(** A filter that selects records sharing one key of a unique kind
    selects the record [m] alone as soon as it selects it. *)
Lemma filter_cell_singleton (P : Z * ImageMap → Prop) `{!∀ kv, Decision (P kv)}
    (rs : gmap Z ImageMap) k m :
  (∀ k1 k2 v1 v2, rs !! k1 = Some v1 → rs !! k2 = Some v2 →
     P (k1, v1) → P (k2, v2) → k1 = k2) →
  rs !! k = Some m → P (k, m) →
  filter P rs = {[k := m]}.
Proof.
  intros Huniq Hk HP. apply map_eq. intros i.
  destruct (decide (i = k)) as [->|Hne].
  - rewrite lookup_singleton_eq. by apply map_lookup_filter_Some.
  - rewrite lookup_singleton_ne by done.
    apply map_lookup_filter_None. destruct (rs !! i) as [v|] eqn:Hi; [|by left].
    right. intros v' [= <-] HPi. apply Hne. by eapply Huniq.
Qed.

Lemma cell_count_le_1 r c rs : unique_row_col rs → (cell_count r c rs ≤ 1)%nat.
Proof.
  intros Huniq. unfold cell_count.
  destruct (map_choose_or_empty (filter (λ kv, row kv.2 = r ∧ col kv.2 = c) rs))
    as [(k & m & [Hk [Hr Hc]]%map_lookup_filter_Some)| ->].
  - erewrite filter_cell_singleton; [rewrite map_size_singleton; lia| |done|done].
    intros k1 k2 v1 v2 H1 H2 [??] [??]. eapply Huniq; eauto; simpl in *; congruence.
  - rewrite map_size_empty. lia.
Qed.

(** Every record that [getAll] returns is a record of the table in the
    cell asked for. *)
Lemma index_getAll_elem s r c m :
  m ∈ index_getAll idx_row_col [r; c] s →
  ∃ k, records s !! k = Some m ∧ row m = r ∧ col m = c.
Proof.
  unfold index_getAll. intros ([k m'] & -> & Hin)%list_elem_of_fmap.
  rewrite merge_sort_Permutation in Hin.
  apply elem_of_map_to_list, map_lookup_filter_Some in Hin as [Hk Hkey].
  simpl in *. apply index_key_row_col_inv in Hkey. exists k. naive_solver.
Qed.

(** With the unique index in force, [getAll] on a cell returns the one
    record of the cell, or nothing. *)
Lemma index_getAll_found s r c k m :
  unique_row_col (records s) →
  records s !! k = Some m → row m = r → col m = c →
  index_getAll idx_row_col [r; c] s = [m].
Proof.
  intros Huniq Hk Hr Hc. unfold index_getAll.
  erewrite (filter_cell_singleton _ _ k m); [| |done|].
  - rewrite map_to_list_singleton.
    pose proof (merge_sort_Permutation key_le [(k, m)]) as Hp.
    apply Permutation_singleton_r in Hp. by rewrite Hp.
  - intros k1 k2 v1 v2 H1 H2 Hkey1%index_key_row_col_inv Hkey2%index_key_row_col_inv.
    simpl in *. eapply Huniq; eauto; congruence.
  - simpl. rewrite index_key_row_col. by rewrite Hr, Hc.
Qed.

Lemma index_getAll_none s r c :
  (∀ k m, records s !! k = Some m → ¬ (row m = r ∧ col m = c)) →
  index_getAll idx_row_col [r; c] s = [].
Proof.
  intros Hnone. destruct (index_getAll idx_row_col [r; c] s) as [|m l] eqn:Hall; [done|].
  destruct (index_getAll_elem s r c m) as (k & Hk & Hr & Hc).
  - rewrite Hall. left.
  - by destruct (Hnone k m Hk).
Qed.

(** ** Computations on a transaction *)

Lemma lookup_same_cell_next begin imageMap tx :
  indexes (tx_store tx) !! "idx_row_col" = Some idx_row_col →
  lookup_same_cell begin imageMap tx =
    Next (head (index_getAll idx_row_col [row imageMap; col imageMap] (tx_store tx)))
         (executed (GetAll "idx_row_col" [row imageMap; col imageMap]) (tx_store tx) tx).
Proof.
  intros Hix. unfold lookup_same_cell, bind, await, getImageMaps, index_getAll_only.
  simpl. by rewrite Hix.
Qed.

Lemma preserves_ret {A} (a : A) : preserves (ret a).
Proof. by intros tx Hs. Qed.

Lemma preserves_bind {A B} (c : M A) (k : A → M B) :
  preserves c → (∀ a, preserves (k a)) → preserves (bind c k).
Proof.
  intros Hc Hk tx Hs. unfold bind. specialize (Hc tx Hs).
  destruct (c tx) as [a tx1|e tx1|e tx1]; [by apply Hk|done..].
Qed.

Lemma preserves_for_of {A} (xs : list A) (body : A → M unit) :
  (∀ x, preserves (body x)) → preserves (for_of xs body).
Proof.
  intros Hbody. induction xs as [|x xs IH]; simpl.
  - apply preserves_ret.
  - apply preserves_bind; auto.
Qed.

Lemma preserves_map_requests {A B} (f : A → M B) (xs : list A) :
  (∀ x, preserves (f x)) → preserves (map_requests f xs).
Proof.
  intros Hf. induction xs as [|x xs IH]; simpl.
  - apply preserves_ret.
  - apply preserves_bind; [done|]. intros b.
    apply preserves_bind; [done|]. intros bs. apply preserves_ret.
Qed.

Lemma preserves_add v : preserves (add v).
Proof.
  intros tx Hs. unfold add, write.
  destruct (store_add v (tx_store tx)) as [e|s'] eqn:Hadd; [done|].
  simpl. by eapply store_record_consistent.
Qed.

Lemma preserves_put v : preserves (put v).
Proof.
  intros tx Hs. unfold put, write.
  destruct (store_put v (tx_store tx)) as [e|s'] eqn:Hput; [done|].
  simpl. by eapply store_record_consistent.
Qed.

Lemma preserves_delete k : preserves (delete k).
Proof.
  intros tx Hs. unfold delete, write. simpl. by apply store_delete_consistent.
Qed.

Lemma preserves_lookup_same_cell begin imageMap :
  preserves (lookup_same_cell begin imageMap).
Proof.
  intros tx Hs. by rewrite lookup_same_cell_next by apply Hs.
Qed.

Create HintDb preserves.
#[local] Hint Resolve preserves_ret preserves_bind preserves_for_of
  preserves_map_requests preserves_add preserves_put preserves_delete
  preserves_lookup_same_cell : preserves.

Lemma preserves_setImageMap_each begin imageMap :
  preserves (setImageMap_each begin imageMap).
Proof.
  unfold setImageMap_each. apply preserves_bind; [auto with preserves|].
  intros m. apply preserves_bind; [|auto with preserves].
  destruct (and_id m); auto with preserves.
Qed.

Lemma preserves_setImageMap2_each begin imageMap :
  preserves (setImageMap2_each begin imageMap).
Proof.
  unfold setImageMap2_each. apply preserves_bind; [auto with preserves|].
  intros [m|]; auto with preserves.
Qed.

Lemma preserves_setImageMap3_then task : preserves (setImageMap3_then task).
Proof.
  destruct task as [imageMap m]. simpl. destruct (and_id m); auto with preserves.
Qed.

(** A call that ends in a commit ran its body to the end. *)
Lemma finish_committed begin (body : M unit) reqs s' :
  finish (begin_readwrite begin body) = (reqs, Committed s') →
  ∃ tx tx', begin IMAGE_MAP readwrite = inr tx ∧ body tx = Next tt tx' ∧
            reqs = tx_requests tx' ∧ s' = tx_store tx'.
Proof.
  unfold begin_readwrite. destruct (begin IMAGE_MAP readwrite) as [e|tx]; [done|].
  simpl. destruct (body tx) as [[] tx'| |] eqn:Hbody; [|done..].
  intros [= <- <-]. by exists tx, tx'.
Qed.

Lemma committed_consistent begin (body : M unit) tx reqs s' :
  preserves body →
  begin IMAGE_MAP readwrite = inr tx → consistent (tx_store tx) →
  finish (begin_readwrite begin body) = (reqs, Committed s') →
  consistent s'.
Proof.
  intros Hbody Hbegin Hs (tx0 & tx' & Hbegin' & Hrun & _ & ->)%finish_committed.
  rewrite Hbegin in Hbegin'. simplify_eq.
  specialize (Hbody tx0 Hs). by rewrite Hrun in Hbody.
Qed.

(** ** Upserts and the uniqueness of cells *)

Lemma setImageMap_consistent begin tx imageMaps reqs s' :
  begin IMAGE_MAP readwrite = inr tx → consistent (tx_store tx) →
  finish (setImageMap begin imageMaps) = (reqs, Committed s') → consistent s'.
Proof.
  apply committed_consistent, preserves_for_of, preserves_setImageMap_each.
Qed.

Lemma setImageMap2_consistent begin tx imageMaps reqs s' :
  begin IMAGE_MAP readwrite = inr tx → consistent (tx_store tx) →
  finish (setImageMap2 begin imageMaps) = (reqs, Committed s') → consistent s'.
Proof.
  apply committed_consistent, preserves_for_of, preserves_setImageMap2_each.
Qed.

Lemma setImageMap3_consistent begin tx imageMaps reqs s' :
  begin IMAGE_MAP readwrite = inr tx → consistent (tx_store tx) →
  finish (setImageMap3 begin imageMaps) = (reqs, Committed s') → consistent s'.
Proof.
  apply committed_consistent, preserves_bind; [auto with preserves|].
  intros found. apply preserves_for_of, preserves_setImageMap3_then.
Qed.

(** C1.  Whichever of [setImageMap], [setImageMap2] and [setImageMap3]
    is given a batch, on a table that [open] has set up (the unique index
    [idx_row_col] is there and holds): if the transaction commits, the
    table afterwards is again consistent, and in particular holds at most
    one record in every cell [(row, col)]. *)
Theorem upsert_keeps_cells_unique begin tx imageMaps reqs s' :
  begin IMAGE_MAP readwrite = inr tx →
  consistent (tx_store tx) →
  finish (setImageMap begin imageMaps) = (reqs, Committed s') ∨
  finish (setImageMap2 begin imageMaps) = (reqs, Committed s') ∨
  finish (setImageMap3 begin imageMaps) = (reqs, Committed s') →
  consistent s' ∧ ∀ r c, (cell_count r c (records s') ≤ 1)%nat.
Proof.
  intros Hbegin Hs Hcommit.
  assert (consistent s') as Hs'.
  { destruct Hcommit as [H|[H|H]];
      eauto using setImageMap_consistent, setImageMap2_consistent,
        setImageMap3_consistent. }
  split; [done|]. intros r c. apply cell_count_le_1, Hs'.
Qed.

Lemma upsert_keeps_cells_unique_witness :
  let table :=
    {| records := ∅; keygen := 1; indexes := {["idx_row_col" := idx_row_col]} |} in
  let batch :=
    [ {| id := None; row := 0; col := 0; data := [Byte.x01] |};
      {| id := None; row := 0; col := 1; data := [Byte.x02] |};
      {| id := None; row := 0; col := 0; data := [Byte.x03] |} ] in
  ∃ reqs s',
    finish (setImageMap2 (session 0 table) (inr batch)) = (reqs, Committed s') ∧
    map_to_list (records s') =
      [ (2, {| id := Some 2; row := 0; col := 1; data := [Byte.x02] |});
        (1, {| id := Some 1; row := 0; col := 0; data := [Byte.x03] |}) ] ∧
    consistent s' ∧ ∀ r c, (cell_count r c (records s') ≤ 1)%nat.
Proof.
  intros table batch. eexists _, _.
  split; [vm_compute; reflexivity|].
  split; [vm_compute; reflexivity|].
  apply (upsert_keeps_cells_unique (session 0 table)
           {| tx_db := 0; tx_store := table; tx_requests := [] |} (inr batch)
           (finish (setImageMap2 (session 0 table) (inr batch))).1).
  - reflexivity.
  - apply empty_store_with_index_consistent.
  - right; left. vm_compute. reflexivity.
Defined.

(** Every call leaves a consistent table, committed, rolled back or
    interrupted. *)
Lemma table_after_consistent s u : consistent s → consistent (table_after s u).
Proof.
  intros Hs. unfold table_after.
  assert (∀ body : M unit, preserves body →
            match (finish (begin_readwrite (session 0 s) body)).2 with
            | Committed s' | Uncaught _ (Some s') => consistent s'
            | Aborted _ | Uncaught _ None => True
            end) as Hbody.
  { intros body Hp. unfold begin_readwrite, session.
    specialize (Hp {| tx_db := 0; tx_store := s; tx_requests := [] |} Hs).
    by destruct (body _) as [[] tx'|e tx'|e tx']. }
  assert (match (finish (upsert (session 0 s) u)).2 with
          | Committed s' | Uncaught _ (Some s') => consistent s'
          | Aborted _ | Uncaught _ None => True
          end) as Hu.
  { destruct u as [b|b|b]; apply Hbody.
    - apply preserves_for_of, preserves_setImageMap_each.
    - apply preserves_for_of, preserves_setImageMap2_each.
    - apply preserves_bind; [auto with preserves|]. intros found.
      apply preserves_for_of, preserves_setImageMap3_then. }
  destruct (finish (upsert (session 0 s) u)).2 as [s'|e|e [s'|]]; done.
Qed.

Lemma opened_table_consistent : consistent opened_table.
Proof. apply empty_store_with_index_consistent. Qed.

(** From the table that [open] creates, whatever upserts are made one
    after the other, no cell ever holds two records. *)
Lemma upserts_after_open_unique (us : list Upsert) r c :
  (cell_count r c (records (foldl table_after opened_table us)) ≤ 1)%nat.
Proof.
  apply cell_count_le_1, index_holds.
  assert (∀ s, consistent s → consistent (foldl table_after s us)) as Hfold.
  { induction us as [|u us IH]; intros s Hs; simpl; [done|].
    by apply IH, table_after_consistent. }
  apply Hfold, opened_table_consistent.
Qed.

(** ** Delete-then-insert and replace *)

Lemma for_of_app {A} (xs ys : list A) (body : A → M unit) tx :
  for_of (xs ++ ys) body tx = (for_of xs body ;; for_of ys body) tx.
Proof.
  revert tx. induction xs as [|x xs IH]; intros tx; simpl.
  - done.
  - unfold bind in *. destruct (body x tx) as [[] tx1| |]; [|done..]. apply IH.
Qed.

Lemma for_of_singleton {A} (x : A) (body : A → M unit) tx :
  for_of [x] body tx = body x tx.
Proof. simpl. unfold bind, ret. by destruct (body x tx) as [[] ?| |]. Qed.

(** The records before the last one of a batch are processed as if they
    were the whole batch. *)
Lemma finish_for_of_snoc begin (body : ImageMap → M unit) tx pre r reqs s' :
  begin IMAGE_MAP readwrite = inr tx →
  finish (begin_readwrite begin (for_of (pre ++ [r]) body)) = (reqs, Committed s') →
  ∃ tx1 tx',
    finish (begin_readwrite begin (for_of pre body)) =
      (tx_requests tx1, Committed (tx_store tx1)) ∧
    for_of pre body tx = Next tt tx1 ∧
    body r tx1 = Next tt tx' ∧ reqs = tx_requests tx' ∧ s' = tx_store tx'.
Proof.
  intros Hbegin (tx0 & tx' & Hbegin' & Hrun & -> & ->)%finish_committed.
  rewrite Hbegin in Hbegin'. simplify_eq.
  rewrite for_of_app in Hrun. unfold bind in Hrun.
  destruct (for_of pre body tx0) as [[] tx1| |] eqn:Hpre; [|done..].
  rewrite for_of_singleton in Hrun.
  exists tx1, tx'. unfold begin_readwrite. rewrite Hbegin. simpl. by rewrite Hpre.
Qed.

Lemma and_id_Some m k : id m = Some k → k ≠ 0 → and_id (Some m) = Some k.
Proof.
  intros Hid Hk. unfold and_id. simpl. rewrite Hid. simpl.
  by destruct (Z.eqb_spec k 0).
Qed.

Lemma and_id_zero m : id m = Some 0 → and_id (Some m) = None.
Proof. intros Hid. unfold and_id. simpl. by rewrite Hid. Qed.

(** The body of [setImageMap] on a record whose cell is taken by [m],
    stored under the non-zero key [k]: the lookup, the delete of [k] and
    the add, in this order. *)
Lemma setImageMap_each_found begin r tx m k tx' :
  consistent (tx_store tx) →
  records (tx_store tx) !! k = Some m → row m = row r → col m = col r → k ≠ 0 →
  setImageMap_each begin r tx = Next tt tx' →
  tx_requests tx' =
    tx_requests tx ++ [GetAll "idx_row_col" [row r; col r]; Delete k; Add r] ∧
  ∃ k',
    (id r = Some k' ∨
     (id r = None ∧ k' = keygen (tx_store tx) ∧ keygen (tx_store tx) ≤ KEY_MAX)) ∧
    (k' = k ∨ records (tx_store tx) !! k' = None) ∧
    records (tx_store tx') =
      <[k' := with_id (Some k') r]> (base.delete k (records (tx_store tx))).
Proof.
  intros Hs Hk Hr Hc Hk0. unfold setImageMap_each, bind.
  rewrite lookup_same_cell_next by apply Hs.
  erewrite index_getAll_found; [|apply Hs|done..]. cbn [head ret].
  erewrite and_id_Some; [|by eapply key_at_id|done].
  unfold delete at 1, write at 1. unfold add, write. simpl.
  destruct (store_add r _) as [e|s1] eqn:Hadd; [done|]. intros [= <-]. simpl.
  split; [by rewrite <- !app_assoc|].
  apply store_record_inr in Hadd as (k' & Hid & Hfree & _ & Hrs & _ & _).
  simpl in *. exists k'. split_and!; [| |done].
  - destruct Hid as [?|(? & ? & ?)]; auto.
  - specialize (Hfree eq_refl). apply lookup_delete_None in Hfree as [->|?]; auto.
Qed.

(** What the body of [setImageMap] has done when it goes on: it has
    deleted at most the record that held the cell, and added the new
    record. *)
Lemma setImageMap_each_next begin r tx tx' :
  consistent (tx_store tx) →
  setImageMap_each begin r tx = Next tt tx' →
  ∃ s_mid l,
    (s_mid = tx_store tx ∨
     ∃ kd md, records (tx_store tx) !! kd = Some md ∧
              row md = row r ∧ col md = col r ∧
              s_mid = store_delete kd (tx_store tx)) ∧
    store_add r s_mid = inr (tx_store tx') ∧
    tx_requests tx' = tx_requests tx ++ l.
Proof.
  intros Hs. unfold setImageMap_each, bind.
  rewrite lookup_same_cell_next by apply Hs.
  destruct (head _) as [md|] eqn:Hhead.
  - apply head_Some_elem_of, index_getAll_elem in Hhead as (kd & Hkd & Hr & Hc).
    unfold and_id. cbn [mbind option_bind]. rewrite (key_at_id _ Hs _ _ Hkd).
    cbn [mbind option_bind]. destruct (truthy (Some kd)).
    + unfold delete at 1, write at 1. unfold add, write. simpl.
      destruct (store_add r _) as [e|s1] eqn:Hadd; [done|]. intros [= <-].
      exists (store_delete kd (tx_store tx)),
        [GetAll "idx_row_col" [row r; col r]; Delete kd; Add r].
      split; [right; by exists kd, md|]. split; [done|].
      simpl. by rewrite <- !app_assoc.
    + unfold ret at 1. unfold add, write. simpl.
      destruct (store_add r _) as [e|s1] eqn:Hadd; [done|]. intros [= <-].
      exists (tx_store tx), [GetAll "idx_row_col" [row r; col r]; Add r].
      split; [by left|]. split; [done|]. simpl. by rewrite <- !app_assoc.
  - unfold and_id. cbn [mbind option_bind]. unfold ret at 1. unfold add, write. simpl.
    destruct (store_add r _) as [e|s1] eqn:Hadd; [done|]. intros [= <-].
    exists (tx_store tx), [GetAll "idx_row_col" [row r; col r]; Add r].
    split; [by left|]. split; [done|]. simpl. by rewrite <- !app_assoc.
Qed.

Lemma setImageMap_each_keygen begin r tx tx' :
  consistent (tx_store tx) →
  setImageMap_each begin r tx = Next tt tx' →
  keygen (tx_store tx) ≤ keygen (tx_store tx').
Proof.
  intros Hs Heach.
  apply setImageMap_each_next in Heach as (s_mid & _ & Hmid & Hadd & _); [|done].
  apply store_record_inr in Hadd as (k2 & Hk2 & _ & _ & _ & Hkg & _).
  assert (keygen s_mid = keygen (tx_store tx)) as Hkmid.
  { by destruct Hmid as [->|(kd & md & _ & _ & _ & ->)]. }
  rewrite Hkg, <- Hkmid. destruct (id r).
  - apply bump_keygen_mono.
  - destruct Hk2 as [?|(_ & -> & _)]; [done|lia].
Qed.

Lemma for_of_requests begin xs tx tx' :
  consistent (tx_store tx) →
  for_of xs (setImageMap_each begin) tx = Next tt tx' →
  ∃ l, tx_requests tx' = tx_requests tx ++ l.
Proof.
  revert tx. induction xs as [|x xs IH]; intros tx Hs; simpl.
  - intros [= <-]. exists []. by rewrite app_nil_r.
  - unfold bind. destruct (setImageMap_each begin x tx) as [[] tx1| |] eqn:Hx; [|done..].
    intros Hxs.
    pose proof (preserves_setImageMap_each begin x tx Hs) as Hs1. rewrite Hx in Hs1.
    apply setImageMap_each_next in Hx as (_ & l1 & _ & _ & Hl1); [|done].
    apply IH in Hxs as [l2 Hl2]; [|done].
    exists (l1 ++ l2). by rewrite Hl2, Hl1, app_assoc.
Qed.

(** A later record of the batch does not bring the id [k] back to the
    cell of [r], unless it is in that cell and carries [k] itself. *)
Lemma setImageMap_each_held_apart begin r k r2 tx tx' :
  consistent (tx_store tx) → cell_held_apart r k (tx_store tx) →
  (row r2 = row r → col r2 = col r → id r2 ≠ Some k) →
  setImageMap_each begin r2 tx = Next tt tx' →
  cell_held_apart r k (tx_store tx').
Proof.
  intros Hs [(kc & vc & Hkc & Hrc & Hcc & Hne) Hgen] Hid Heach0.
  pose proof Heach0 as Heach.
  apply setImageMap_each_next in Heach as (s_mid & _ & Hmid & Hadd & _); [|done].
  apply store_record_inr in Hadd as (k2 & Hk2 & Hfree & _ & Hrs & Hkg & _).
  specialize (Hfree eq_refl).
  assert (keygen s_mid = keygen (tx_store tx)) as Hkmid.
  { by destruct Hmid as [->|(kd & md & _ & _ & _ & ->)]. }
  split.
  - destruct (decide (row r2 = row r ∧ col r2 = col r)) as [[Hr2 Hc2]|Hother].
    + exists k2, (with_id (Some k2) r2). rewrite Hrs, lookup_insert_eq.
      split_and!; [done..|].
      destruct Hk2 as [Hk2|(_ & -> & Hmax)]; [specialize (Hid Hr2 Hc2); congruence|].
      rewrite Hkmid in *. specialize (Hgen Hmax). lia.
    + exists kc, vc. split_and!; [|done..].
      assert (records s_mid !! kc = Some vc) as Hmidkc.
      { destruct Hmid as [->|(kd & md & Hkd & Hrd & Hcd & ->)]; [done|].
        simpl. apply lookup_delete_Some. split; [|done].
        intros ->. simplify_eq. apply Hother. split; congruence. }
      rewrite Hrs. rewrite lookup_insert_ne; [done|]. intros ->. congruence.
  - intros Hle. pose proof (setImageMap_each_keygen _ _ _ _ Hs Heach0). lia.
Qed.

Lemma for_of_held_apart begin r k post tx tx' :
  consistent (tx_store tx) → cell_held_apart r k (tx_store tx) →
  Forall (λ r2, row r2 = row r → col r2 = col r → id r2 ≠ Some k) post →
  for_of post (setImageMap_each begin) tx = Next tt tx' →
  cell_held_apart r k (tx_store tx').
Proof.
  revert tx. induction post as [|r2 post IH]; intros tx Hs Hheld Hpost; simpl.
  - by intros [= <-].
  - apply Forall_cons in Hpost as [Hr2 Hpost]. unfold bind.
    destruct (setImageMap_each begin r2 tx) as [[] tx1| |] eqn:Heach; [|done..].
    pose proof (preserves_setImageMap_each begin r2 tx Hs) as Hs1.
    rewrite Heach in Hs1.
    intros Hrest. eapply IH; [exact Hs1| |exact Hpost|exact Hrest].
    exact (setImageMap_each_held_apart begin r k r2 tx tx1 Hs Hheld Hr2 Heach).
Qed.

(** C3, amended.  [setImageMap] on a batch that holds the record [r]:
    if the table, as the records before [r] leave it, holds a record [m]
    in the cell of [r] under a non-zero id [k], and neither [r] nor a
    later record of the batch in the same cell carries the id [k], then a
    committed call has looked the cell up, deleted [k] and added [r], in
    this order, and the one record of the cell in the committed table has
    an id other than [k].  When [r] is the last record of the batch, this
    record is [r] and the id [k] is left to no record. *)
Theorem setImageMap_delete_then_insert begin tx pre r post reqs1 s1 m k reqs s' :
  begin IMAGE_MAP readwrite = inr tx →
  consistent (tx_store tx) →
  finish (setImageMap begin (inr pre)) = (reqs1, Committed s1) →
  records s1 !! k = Some m → row m = row r → col m = col r →
  k ≠ 0 →
  Forall (λ r2, row r2 = row r → col r2 = col r → id r2 ≠ Some k) (r :: post) →
  finish (setImageMap begin (inr (pre ++ r :: post))) = (reqs, Committed s') →
  (∃ reqs2,
     reqs = reqs1 ++ [GetAll "idx_row_col" [row r; col r]; Delete k; Add r] ++ reqs2) ∧
  (∃ k' v, k' ≠ k ∧ id v = Some k' ∧
           index_getAll idx_row_col [row r; col r] s' = [v]) ∧
  (post = [] →
     records s' !! k = None ∧
     ∃ k', index_getAll idx_row_col [row r; col r] s' = [with_id (Some k') r]).
Proof.
  intros Hbegin Hs Hpre Hk Hr Hc Hk0 Hids Hrun.
  assert (consistent s') as Hs' by (by eapply setImageMap_consistent).
  apply finish_committed in Hrun as (tx0 & tx' & Hbegin' & Hrun & -> & ->).
  apply finish_committed in Hpre as (tx0' & tx1 & Hbegin'' & Hpre & -> & ->).
  rewrite Hbegin in Hbegin', Hbegin''. simplify_eq. simpl in Hrun, Hpre.
  rewrite for_of_app in Hrun. unfold bind in Hrun. rewrite Hpre in Hrun.
  simpl in Hrun. unfold bind in Hrun.
  destruct (setImageMap_each begin r tx1) as [[] tx2| |] eqn:Heach; [|done..].
  assert (consistent (tx_store tx1)) as Hs1.
  { pose proof (preserves_for_of pre _ (preserves_setImageMap_each begin) tx0' Hs) as H.
    by rewrite Hpre in H. }
  assert (consistent (tx_store tx2)) as Hs2.
  { pose proof (preserves_setImageMap_each begin r tx1 Hs1) as H.
    by rewrite Heach in H. }
  apply Forall_cons in Hids as [Hid Hpost].
  specialize (Hid eq_refl eq_refl).
  pose proof Heach as Heach0.
  eapply setImageMap_each_found in Heach as (Hreqs & k' & Hk' & Hfree & Hrs); [|done..].
  assert (k' ≠ k) as Hne.
  { destruct Hk' as [Hk'|(_ & -> & Hmax)]; [congruence|].
    pose proof (keygen_past _ Hs1 Hmax _ _ Hk). lia. }
  assert (cell_held_apart r k (tx_store tx2)) as Hheld.
  { split.
    - exists k', (with_id (Some k') r). rewrite Hrs, lookup_insert_eq. done.
    - intros Hle. pose proof (setImageMap_each_keygen _ _ _ _ Hs1 Heach0).
      assert (keygen (tx_store tx1) ≤ KEY_MAX) as Hle1 by lia.
      pose proof (keygen_past _ Hs1 Hle1 _ _ Hk). lia. }
  assert (cell_held_apart r k (tx_store tx')) as [(kc & vc & Hkc & Hrc & Hcc & Hkne) _].
  { by eapply for_of_held_apart. }
  split_and!.
  - destruct (for_of_requests begin post tx2 tx' Hs2 Hrun) as [reqs2 Hreqs2].
    exists reqs2. by rewrite Hreqs2, Hreqs, <- app_assoc.
  - exists kc, vc. split; [done|]. split; [exact (key_at_id _ Hs' _ _ Hkc)|].
    by eapply index_getAll_found; [apply Hs'|..].
  - intros ->. injection Hrun as <-. split.
    + rewrite Hrs. rewrite lookup_insert_ne by done. apply lookup_delete_eq.
    + exists k'. eapply index_getAll_found; [apply Hs'| |done..].
      rewrite Hrs. apply lookup_insert_eq.
Qed.

Lemma setImageMap_delete_then_insert_witness :
  let table :=
    {| records := ∅; keygen := 1; indexes := {["idx_row_col" := idx_row_col]} |} in
  let m := {| id := None; row := 0; col := 0; data := [Byte.x01] |} in
  let r := {| id := None; row := 0; col := 0; data := [Byte.x02] |} in
  let r2 := {| id := Some 1; row := 0; col := 1; data := [Byte.x03] |} in
  ∃ reqs1 s1 reqs s',
    finish (setImageMap (session 0 table) (inr [m])) = (reqs1, Committed s1) ∧
    records s1 !! 1 = Some (with_id (Some 1) m) ∧
    finish (setImageMap (session 0 table) (inr ([m] ++ r :: [r2]))) =
      (reqs, Committed s') ∧
    (∃ reqs2,
       reqs = reqs1 ++ [GetAll "idx_row_col" [0; 0]; Delete 1; Add r] ++ reqs2) ∧
    (∃ k' v, k' ≠ 1 ∧ id v = Some k' ∧ index_getAll idx_row_col [0; 0] s' = [v]) ∧
    map_to_list (records s') = [(2, with_id (Some 2) r); (1, r2)].
Proof.
  intros table m r r2. eexists _, _, _, _.
  split; [vm_compute; reflexivity|].
  split; [vm_compute; reflexivity|].
  split; [vm_compute; reflexivity|].
  destruct (setImageMap_delete_then_insert (session 0 table)
              {| tx_db := 0; tx_store := table; tx_requests := [] |}
              [m] r [r2]
              (finish (setImageMap (session 0 table) (inr [m]))).1
              {| records := {[1 := with_id (Some 1) m]}; keygen := 2;
                 indexes := {["idx_row_col" := idx_row_col]} |}
              (with_id (Some 1) m) 1
              (finish (setImageMap (session 0 table) (inr ([m] ++ r :: [r2])))).1
              {| records := {[1 := r2; 2 := with_id (Some 2) r]}; keygen := 3;
                 indexes := {["idx_row_col" := idx_row_col]} |})
    as (Hreqs & Hid & _).
  - reflexivity.
  - apply empty_store_with_index_consistent.
  - vm_compute. reflexivity.
  - vm_compute. reflexivity.
  - reflexivity.
  - reflexivity.
  - lia.
  - repeat constructor; intros; discriminate.
  - vm_compute. reflexivity.
  - split; [exact Hreqs|]. split; [exact Hid|]. vm_compute. reflexivity.
Defined.

(** C3 as stated fails on a record that carries the id of the record it
    replaces, such as one that was read back from the table: the delete
    frees the id and the add stores the record under it again. *)
Lemma setImageMap_same_id_counterexample :
  let m := {| id := Some 1; row := 0; col := 0; data := [Byte.x01] |} in
  let r := {| id := Some 1; row := 0; col := 0; data := [Byte.x02] |} in
  let table :=
    {| records := {[1 := m]}; keygen := 2;
       indexes := {["idx_row_col" := idx_row_col]} |} in
  consistent table ∧
  index_getAll idx_row_col [0; 0] table = [m] ∧
  ∃ s',
    finish (setImageMap (session 0 table) (inl r)) =
      ([GetAll "idx_row_col" [0; 0]; Delete 1; Add r], Committed s') ∧
    index_getAll idx_row_col [0; 0] s' = [r] ∧
    id r = id m.
Proof.
  intros m r table. split.
  { eapply (store_record_consistent true m); [apply empty_store_with_index_consistent|].
    vm_compute. reflexivity. }
  split; [vm_compute; reflexivity|].
  eexists. split; [vm_compute; reflexivity|].
  split; [vm_compute; reflexivity|reflexivity].
Qed.

(** An [add] into a cell that another record holds is refused. *)
Lemma store_add_cell_taken s k m r :
  consistent s → records s !! k = Some m → row m = row r → col m = col r →
  store_add r s = inl ConstraintError.
Proof.
  intros Hs Hk Hr Hc. destruct (store_add r s) as [e|s'] eqn:Hadd.
  - unfold store_add, store_record in Hadd.
    repeat case_match; by simplify_eq.
  - apply store_record_inr in Hadd as (k' & _ & Hfree & Hno & _).
    specialize (Hfree eq_refl).
    assert (k = k') as <-; [|congruence].
    eapply no_violation_cell_free; [apply Hs|done..].
Qed.

Lemma constraint_violation_sole_index k v s :
  sole_index s →
  constraint_violation k v s = bool_decide (conflicts_in idx_row_col k v (records s)).
Proof.
  intros Hsole. unfold constraint_violation. rewrite Hsole.
  apply bool_decide_ext.
  apply (map_Exists_singleton (λ _ ix, conflicts_in ix k v (records s))).
Qed.

(** A [put] under the id of the record that holds the cell goes
    through. *)
Lemma store_put_same_key s k m r :
  consistent s → sole_index s →
  records s !! k = Some m → row m = row r → col m = col r →
  store_put (with_id (Some k) r) s =
    inr {| records := <[k := with_id (Some k) r]> (records s);
           keygen := bump_keygen k (keygen s);
           indexes := indexes s |}.
Proof.
  intros Hs Hsole Hk Hr Hc. unfold store_put, store_record. simpl.
  rewrite constraint_violation_sole_index by done.
  rewrite bool_decide_eq_false_2; [done|].
  intros (_ & key & Hkey%index_key_row_col_inv & k' & v' & Hk' & Hne & Hkey').
  apply index_key_row_col_inv in Hkey'. simplify_eq. simpl in *.
  apply Hne. eapply (index_holds _ Hs); eauto; congruence.
Qed.

(** The body of [setImageMap2] on a record whose cell is taken by the
    record stored under [k]: the lookup and a put under [k], which
    succeeds. *)
Lemma setImageMap2_each_found begin r tx m k :
  consistent (tx_store tx) → sole_index (tx_store tx) →
  records (tx_store tx) !! k = Some m → row m = row r → col m = col r →
  setImageMap2_each begin r tx =
    Next tt
      {| tx_db := tx_db tx;
         tx_store :=
           {| records := <[k := with_id (Some k) r]> (records (tx_store tx));
              keygen := bump_keygen k (keygen (tx_store tx));
              indexes := indexes (tx_store tx) |};
         tx_requests :=
           tx_requests tx ++
             [GetAll "idx_row_col" [row r; col r]; Put (with_id (Some k) r)] |}.
Proof.
  intros Hs Hsole Hk Hr Hc. unfold setImageMap2_each, bind.
  rewrite lookup_same_cell_next by apply Hs.
  erewrite index_getAll_found; [|apply Hs|done..]. cbn [head].
  rewrite (key_at_id _ Hs _ _ Hk).
  unfold put, write. cbn [tx_store executed].
  erewrite store_put_same_key by done.
  unfold executed. simpl. by rewrite <- app_assoc.
Qed.

(** The [then] callback of [setImageMap3], given the record [m] that
    holds the cell under a non-zero id: a put under that id, which
    succeeds. *)
Lemma setImageMap3_then_found r tx m k :
  consistent (tx_store tx) → sole_index (tx_store tx) →
  records (tx_store tx) !! k = Some m → row m = row r → col m = col r → k ≠ 0 →
  setImageMap3_then (r, Some m) tx =
    Next tt
      {| tx_db := tx_db tx;
         tx_store :=
           {| records := <[k := with_id (Some k) r]> (records (tx_store tx));
              keygen := bump_keygen k (keygen (tx_store tx));
              indexes := indexes (tx_store tx) |};
         tx_requests := tx_requests tx ++ [Put (with_id (Some k) r)] |}.
Proof.
  intros Hs Hsole Hk Hr Hc Hk0. unfold setImageMap3_then.
  erewrite and_id_Some; [|by eapply key_at_id|done].
  unfold put, write. by erewrite store_put_same_key.
Qed.

(** The same callback when the id of [m] is 0: the guard
    [_imageMap && _imageMap.id] fails, the record is added, and the unique
    index refuses it. *)
Lemma setImageMap3_then_zero r tx m :
  consistent (tx_store tx) →
  records (tx_store tx) !! 0 = Some m → row m = row r → col m = col r →
  setImageMap3_then (r, Some m) tx =
    Fail ConstraintError (executed (Add r) (tx_store tx) tx).
Proof.
  intros Hs Hk Hr Hc. unfold setImageMap3_then.
  erewrite and_id_zero; [|by eapply key_at_id].
  unfold add, write. by erewrite store_add_cell_taken.
Qed.

(** [setImageMap3] on one record whose cell is held by [m]: what the
    callback does with [(r, m)] decides the call. *)
Lemma setImageMap3_one begin tx r m k :
  begin IMAGE_MAP readwrite = inr tx →
  consistent (tx_store tx) →
  records (tx_store tx) !! k = Some m → row m = row r → col m = col r →
  setImageMap3 begin (inl r) =
    InTx ((setImageMap3_then (r, Some m) ;; ret tt)
            (executed (GetAll "idx_row_col" [row r; col r]) (tx_store tx) tx)).
Proof.
  intros Hbegin Hs Hk Hr Hc. unfold setImageMap3, begin_readwrite.
  rewrite Hbegin. f_equal. cbn [as_array map_requests]. unfold bind at 1 2.
  rewrite lookup_same_cell_next by apply Hs.
  erewrite index_getAll_found; [|apply Hs|done..]. reflexivity.
Qed.

Lemma setImageMap2_one begin tx r :
  begin IMAGE_MAP readwrite = inr tx →
  setImageMap2 begin (inl r) = InTx (setImageMap2_each begin r tx).
Proof.
  intros Hbegin. unfold setImageMap2, begin_readwrite. rewrite Hbegin.
  f_equal. apply for_of_singleton.
Qed.

(** The replace of [setImageMap2], for a record given on its own: the
    record that holds the cell is put again under its id, whatever the
    id. *)
Lemma setImageMap2_replaces begin tx r m k :
  begin IMAGE_MAP readwrite = inr tx →
  consistent (tx_store tx) → sole_index (tx_store tx) →
  records (tx_store tx) !! k = Some m → row m = row r → col m = col r →
  ∃ s',
    finish (setImageMap2 begin (inl r)) =
      (tx_requests tx ++ [GetAll "idx_row_col" [row r; col r]; Put (with_id (Some k) r)],
       Committed s') ∧
    records s' = <[k := with_id (Some k) r]> (records (tx_store tx)).
Proof.
  intros Hbegin Hs Hsole Hk Hr Hc.
  rewrite (setImageMap2_one _ tx) by done.
  erewrite setImageMap2_each_found by done. cbn [finish tx_requests tx_store].
  eexists. split; reflexivity.
Qed.

(** The replace of [setImageMap3], for a record given on its own, when
    the id of the record that holds the cell is not 0. *)
Lemma setImageMap3_replaces begin tx r m k :
  begin IMAGE_MAP readwrite = inr tx →
  consistent (tx_store tx) → sole_index (tx_store tx) →
  records (tx_store tx) !! k = Some m → row m = row r → col m = col r → k ≠ 0 →
  ∃ s',
    finish (setImageMap3 begin (inl r)) =
      (tx_requests tx ++ [GetAll "idx_row_col" [row r; col r]; Put (with_id (Some k) r)],
       Committed s') ∧
    records s' = <[k := with_id (Some k) r]> (records (tx_store tx)).
Proof.
  intros Hbegin Hs Hsole Hk Hr Hc Hk0.
  erewrite (setImageMap3_one _ tx) by done. unfold bind.
  erewrite setImageMap3_then_found by done. cbn [ret finish tx_requests tx_store executed].
  eexists. split; [by rewrite <- app_assoc|reflexivity].
Qed.

(** C2.  The replace is not issued by [setImageMap3] when the record
    [m] that holds the cell has the id 0: on every table that [open] has
    set up and that holds such a record, [setImageMap3] adds the new
    record, the unique index refuses it and the transaction is rolled
    back, where [setImageMap2] puts it under the id 0 and commits. *)
Theorem setImageMap3_zero_id_not_replaced begin tx r m :
  begin IMAGE_MAP readwrite = inr tx →
  consistent (tx_store tx) → sole_index (tx_store tx) →
  records (tx_store tx) !! 0 = Some m → row m = row r → col m = col r →
  finish (setImageMap3 begin (inl r)) =
    (tx_requests tx ++ [GetAll "idx_row_col" [row r; col r]; Add r],
     Aborted ConstraintError) ∧
  ∃ s',
    finish (setImageMap2 begin (inl r)) =
      (tx_requests tx ++ [GetAll "idx_row_col" [row r; col r]; Put (with_id (Some 0) r)],
       Committed s') ∧
    records s' = <[0 := with_id (Some 0) r]> (records (tx_store tx)).
Proof.
  intros Hbegin Hs Hsole Hk Hr Hc. split.
  - erewrite (setImageMap3_one _ tx) by done. unfold bind.
    erewrite setImageMap3_then_zero by done. simpl. by rewrite <- app_assoc.
  - by eapply setImageMap2_replaces.
Qed.

Lemma setImageMap3_zero_id_not_replaced_witness :
  let m := {| id := Some 0; row := 0; col := 0; data := [Byte.x01] |} in
  let r := {| id := None; row := 0; col := 0; data := [Byte.x02] |} in
  let fresh :=
    {| records := ∅; keygen := 1; indexes := {["idx_row_col" := idx_row_col]} |} in
  let table :=
    {| records := {[0 := m]}; keygen := 1;
       indexes := {["idx_row_col" := idx_row_col]} |} in
  finish (setImageMap2 (session 0 fresh) (inl m)) =
    ([GetAll "idx_row_col" [0; 0]; Add m], Committed table) ∧
  finish (setImageMap3 (session 0 table) (inl r)) =
    ([GetAll "idx_row_col" [0; 0]; Add r], Aborted ConstraintError) ∧
  ∃ s',
    finish (setImageMap2 (session 0 table) (inl r)) =
      ([GetAll "idx_row_col" [0; 0]; Put (with_id (Some 0) r)], Committed s') ∧
    records s' = <[0 := with_id (Some 0) r]> (records table).
Proof.
  intros m r fresh table.
  assert (finish (setImageMap2 (session 0 fresh) (inl m)) =
            ([GetAll "idx_row_col" [0; 0]; Add m], Committed table)) as Hfresh
    by (vm_compute; reflexivity).
  split; [exact Hfresh|].
  apply (setImageMap3_zero_id_not_replaced (session 0 table)
           {| tx_db := 0; tx_store := table; tx_requests := [] |} r m).
  - reflexivity.
  - eapply (setImageMap2_consistent (session 0 fresh)); [reflexivity| |exact Hfresh].
    apply empty_store_with_index_consistent.
  - reflexivity.
  - vm_compute. reflexivity.
  - reflexivity.
  - reflexivity.
Defined.

(** ** The query: incomplete and complete keys *)

Lemma isNil_spec val : isNil val = true ↔ val = JNull ∨ val = JUndefined.
Proof.
  destruct val; simpl; split; auto; try discriminate; intros [?|?]; discriminate.
Qed.

(** C8.  A query in which [row] or [col] is null or undefined never
    reaches the index: whatever the options and the session, the call
    does not resolve and its transaction, if it has one, is left without
    a new request.  In every call that has its transaction (the one
    supplied in the options, or the one [beginTransaction] yields) the
    error thrown is the [DatabaseIndexError], a class of its own below
    [DatabaseError]. *)
Theorem getImageMaps_incomplete_key begin query options :
  isNil (q_row query) = true ∨ isNil (q_col query) = true →
  (∀ found tx', getImageMaps begin query options ≠ InTx (Next found tx')) ∧
  (∀ tx,
     transaction options = Some tx ∨
     (transaction options = None ∧ begin IMAGE_MAP readonly = inr tx) →
     getImageMaps begin query options = InTx (Throw (Some new_DatabaseIndexError) tx) ∧
     finish (getImageMaps begin query options) =
       (tx_requests tx, Uncaught (Some new_DatabaseIndexError) (Some (tx_store tx)))) ∧
  err_class new_DatabaseIndexError = ClsDatabaseIndexError ∧
  err_name new_DatabaseIndexError = "DatabaseIndexError" ∧
  err_message new_DatabaseIndexError = "Miss index" ∧
  instanceof new_DatabaseIndexError ClsDatabaseError = true ∧
  (∀ msg err, err_class (new_DatabaseError msg err) ≠ ClsDatabaseIndexError) ∧
  (∀ msg, err_class (new_DatabaseTimeoutError msg) ≠ ClsDatabaseIndexError) ∧
  (∀ name, err_class (DOMException name) ≠ ClsDatabaseIndexError).
Proof.
  intros Hnil.
  assert (negb (isNil (q_row query)) && negb (isNil (q_col query)) = false) as Hif.
  { destruct Hnil as [-> | ->]; [done|]. apply andb_false_r. }
  split_and!; try done.
  - intros found tx'. unfold getImageMaps. rewrite Hif.
    destruct (transaction options); [done|].
    by destruct (begin IMAGE_MAP readonly).
  - intros tx Htx. unfold getImageMaps. rewrite Hif.
    by destruct Htx as [-> | [-> ->]].
Qed.

Lemma getImageMaps_incomplete_key_witness :
  let query := {| q_row := JNumber 5; q_col := JUndefined |} in
  let table :=
    {| records := ∅; keygen := 1; indexes := {["idx_row_col" := idx_row_col]} |} in
  let tx := {| tx_db := 0; tx_store := table; tx_requests := [] |} in
  getImageMaps (session 0 table) query {| transaction := None |} =
    InTx (Throw (Some new_DatabaseIndexError) tx) ∧
  finish (getImageMaps (session 0 table) query {| transaction := None |}) =
    ([], Uncaught (Some new_DatabaseIndexError) (Some table)).
Proof.
  intros query table tx.
  apply (getImageMaps_incomplete_key (session 0 table) query {| transaction := None |}).
  - right. reflexivity.
  - right. split; reflexivity.
Defined.

(** C10.  A query whose [row] and [col] are numbers, 0 included, passes
    the [isNil] test, although 0 is falsy; on a table that has the index
    [idx_row_col], in every call that has its transaction, the call
    places one [getAll] on that index with the key [[row, col]] and
    resolves with its result: the records of the table in that cell. *)
Theorem getImageMaps_zero_is_present begin options tx (r c : Z) :
  transaction options = Some tx ∨
  (transaction options = None ∧ begin IMAGE_MAP readonly = inr tx) →
  indexes (tx_store tx) !! "idx_row_col" = Some idx_row_col →
  let query := {| q_row := JNumber r; q_col := JNumber c |} in
  isNil (q_row query) = false ∧ isNil (q_col query) = false ∧
  isNil (JNumber 0) = false ∧ truthy (Some 0) = false ∧
  getImageMaps begin query options =
    InTx (Next (index_getAll idx_row_col [r; c] (tx_store tx))
               (executed (GetAll "idx_row_col" [r; c]) (tx_store tx) tx)) ∧
  (∀ e tx', getImageMaps begin query options ≠ InTx (Throw e tx')) ∧
  (∀ m, m ∈ index_getAll idx_row_col [r; c] (tx_store tx) ↔
        ∃ k, records (tx_store tx) !! k = Some m ∧ row m = r ∧ col m = c).
Proof.
  intros Htx Hix query.
  assert (getImageMaps begin query options =
    InTx (Next (index_getAll idx_row_col [r; c] (tx_store tx))
               (executed (GetAll "idx_row_col" [r; c]) (tx_store tx) tx))) as Hget.
  { unfold getImageMaps, index_getAll_only. simpl.
    destruct Htx as [-> | [-> ->]]; by rewrite Hix. }
  split_and!; try done.
  - intros e tx'. by rewrite Hget.
  - intros m. split; [apply index_getAll_elem|].
    intros (k & Hk & Hr & Hc). unfold index_getAll.
    apply list_elem_of_fmap. exists (k, m). split; [done|].
    rewrite merge_sort_Permutation. apply elem_of_map_to_list.
    apply map_lookup_filter_Some. split; [done|]. simpl.
    rewrite index_key_row_col. by rewrite Hr, Hc.
Qed.

Lemma getImageMaps_zero_is_present_witness :
  let m := {| id := Some 1; row := 0; col := 0; data := [Byte.x01] |} in
  let table :=
    {| records := {[1 := m]}; keygen := 2;
       indexes := {["idx_row_col" := idx_row_col]} |} in
  let tx := {| tx_db := 0; tx_store := table; tx_requests := [] |} in
  let query := {| q_row := JNumber 0; q_col := JNumber 0 |} in
  getImageMaps (session 0 table) query {| transaction := Some tx |} =
    InTx (Next [m] (executed (GetAll "idx_row_col" [0; 0]) table tx)).
Proof.
  intros m table tx query.
  pose proof (getImageMaps_zero_is_present (session 0 table)
                {| transaction := Some tx |} tx 0 0) as H.
  destruct H as (_ & _ & _ & _ & H & _).
  - left. reflexivity.
  - reflexivity.
  - etrans; [exact H|]. vm_compute. reflexivity.
Defined.

(** ** The bootstrap *)

Lemma onupgradeneeded_existing_table d s :
  objectStores d !! IMAGE_MAP = Some s →
  onupgradeneeded d =
    if bool_decide (is_Some (indexes s !! "idx_row_col")) then ([], inr d)
    else
      ([CreateIndex IMAGE_MAP "idx_row_col"],
       match createIndex "idx_row_col" idx_row_col s with
       | inl e => inl e
       | inr s' => inr {| version := version d;
                          objectStores := <[IMAGE_MAP := s']> (objectStores d) |}
       end).
Proof.
  intros Hs. unfold onupgradeneeded. rewrite Hs.
  rewrite bool_decide_eq_true_2 by eauto. simpl. rewrite Hs.
  by case_bool_decide.
Qed.

Lemma createIndex_inr name ix s s' :
  createIndex name ix s = inr s' →
  records s' = records s ∧ keygen s' = keygen s ∧
  indexes s' = <[name := ix]> (indexes s).
Proof. unfold createIndex. repeat case_match; try done. by intros [= <-]. Qed.

Lemma createIndex_inl_missing s e :
  indexes s !! "idx_row_col" = None →
  createIndex "idx_row_col" idx_row_col s = inl e →
  ¬ unique_row_col (records s).
Proof.
  intros Hnone. unfold createIndex. rewrite Hnone.
  rewrite bool_decide_eq_false_2 by (by intros [? ?]).
  case_bool_decide as Hex; [|done]. intros _ Huniq.
  destruct Hex as (k & v & Hk & _ & key & Hkey%index_key_row_col_inv
                     & k' & v' & Hk' & Hne & Hkey'%index_key_row_col_inv).
  simplify_eq. apply Hne. eapply Huniq; eauto.
Qed.

Lemma onupgradeneeded_again d d' :
  (onupgradeneeded d).2 = inr d' → onupgradeneeded d' = ([], inr d').
Proof.
  unfold onupgradeneeded at 1.
  destruct (objectStores d !! IMAGE_MAP) as [s|] eqn:Hs; simpl.
  - rewrite Hs. case_bool_decide as Hix; simpl.
    + intros [= <-]. rewrite (onupgradeneeded_existing_table _ s) by done.
      by rewrite bool_decide_eq_true_2.
    + destruct (createIndex _ _ s) as [e|s'] eqn:Hcreate; [done|]. simpl.
      intros [= <-]. apply createIndex_inr in Hcreate as (_ & _ & Hixs).
      erewrite onupgradeneeded_existing_table by apply lookup_insert_eq.
      rewrite bool_decide_eq_true_2; [done|].
      rewrite Hixs, lookup_insert_eq. eauto.
  - unfold createObjectStore. rewrite Hs. simpl.
    rewrite lookup_insert_eq. simpl.
    intros [= <-].
    erewrite onupgradeneeded_existing_table by apply lookup_insert_eq.
    by rewrite bool_decide_eq_true_2 by (simpl; rewrite lookup_insert_eq; eauto).
Qed.

Lemma open_database_again d d1 :
  (open_database d).2 = inr d1 → open_database d1 = ([], inr d1).
Proof.
  unfold open_database at 1. destruct (Z.ltb_spec DATABASE_VERSION (version d)); [done|].
  destruct (Z.ltb_spec (version d) DATABASE_VERSION).
  - destruct (onupgradeneeded d) as [cs [e|d']]; [done|]. simpl. intros [= <-].
    reflexivity.
  - simpl. intros [= <-]. unfold open_database.
    destruct (Z.ltb_spec DATABASE_VERSION (version d)); [lia|].
    destruct (Z.ltb_spec (version d) DATABASE_VERSION); [lia|done].
Qed.

Lemma after_open_idempotent d : after_open (after_open d) = after_open d.
Proof.
  unfold after_open at 2 3.
  destruct (open_database d).2 as [e|d1] eqn:Hopen.
  - unfold after_open. by rewrite Hopen.
  - unfold after_open. by rewrite (open_database_again d d1).
Qed.

(** C9.  The upgrade handler of [open] on a database that has the table
    [image_map] (table [s]): it does not create the table; when the table
    has the index [idx_row_col] it makes no call at all and leaves the
    database as it is; when the index is missing its one call creates the
    index; it fails only if the rows already in the table break the
    uniqueness that the missing index asks for; and the rows of the table
    are the same afterwards.  On every database, the handler run on its
    own result makes no call, a second [open] after a successful one
    makes no call and changes nothing, and the database after two opens
    is the database after one. *)
Theorem bootstrap_idempotent d s :
  objectStores d !! IMAGE_MAP = Some s →
  (CreateObjectStore IMAGE_MAP ∉ (onupgradeneeded d).1) ∧
  (is_Some (indexes s !! "idx_row_col") → onupgradeneeded d = ([], inr d)) ∧
  (indexes s !! "idx_row_col" = None →
     (onupgradeneeded d).1 = [CreateIndex IMAGE_MAP "idx_row_col"]) ∧
  (∀ e, (onupgradeneeded d).2 = inl e →
     indexes s !! "idx_row_col" = None ∧ ¬ unique_row_col (records s)) ∧
  (∀ d', (onupgradeneeded d).2 = inr d' → rows d' = Some (records s)) ∧
  rows (after_open d) = Some (records s) ∧
  (∀ d', (onupgradeneeded d).2 = inr d' → onupgradeneeded d' = ([], inr d')) ∧
  (∀ d1, (open_database d).2 = inr d1 → open_database d1 = ([], inr d1)) ∧
  after_open (after_open d) = after_open d.
Proof.
  intros Hs.
  assert (∀ d', (onupgradeneeded d).2 = inr d' → rows d' = Some (records s)) as Hrows.
  { rewrite (onupgradeneeded_existing_table d s) by done.
    case_bool_decide; simpl.
    - intros d' [= <-]. unfold rows. by rewrite Hs.
    - destruct (createIndex _ _ s) as [e|s'] eqn:Hcreate; [done|].
      intros d' [= <-]. apply createIndex_inr in Hcreate as (Hrs & _).
      unfold rows. simpl. rewrite lookup_insert_eq. simpl. by rewrite Hrs. }
  split_and!.
  - rewrite (onupgradeneeded_existing_table d s) by done.
    case_bool_decide; simpl; [apply not_elem_of_nil|].
    by intros [=]%list_elem_of_singleton.
  - intros Hix. rewrite (onupgradeneeded_existing_table d s) by done.
    by rewrite bool_decide_eq_true_2.
  - intros Hix. rewrite (onupgradeneeded_existing_table d s) by done.
    rewrite bool_decide_eq_false_2; [done|]. rewrite Hix. by intros [? ?].
  - intros e. rewrite (onupgradeneeded_existing_table d s) by done.
    case_bool_decide as Hix; [done|]. simpl.
    assert (indexes s !! "idx_row_col" = None) as Hnone.
    { destruct (indexes s !! "idx_row_col") eqn:E; [|done]. destruct Hix. eauto. }
    destruct (createIndex _ _ s) as [e'|s'] eqn:Hcreate; [|done].
    intros _. split; [done|]. by eapply createIndex_inl_missing.
  - done.
  - unfold after_open, open_database.
    destruct (Z.ltb_spec DATABASE_VERSION (version d)); simpl.
    { unfold rows. by rewrite Hs. }
    destruct (Z.ltb_spec (version d) DATABASE_VERSION); simpl.
    + destruct (onupgradeneeded d) as [cs [e|d']] eqn:Hup; simpl.
      * unfold rows. by rewrite Hs.
      * by apply (Hrows d').
    + unfold rows. by rewrite Hs.
  - apply onupgradeneeded_again.
  - apply open_database_again.
  - apply after_open_idempotent.
Qed.

Lemma bootstrap_idempotent_witness :
  let m := {| id := Some 1; row := 0; col := 0; data := [Byte.x01] |} in
  let s := {| records := {[1 := m]}; keygen := 2; indexes := ∅ |} in
  let d := {| version := 0; objectStores := {[IMAGE_MAP := s]} |} in
  (onupgradeneeded d).1 = [CreateIndex IMAGE_MAP "idx_row_col"] ∧
  rows (after_open d) = Some {[1 := m]} ∧
  after_open no_database =
    {| version := 1;
       objectStores :=
         {[IMAGE_MAP :=
            {| records := ∅; keygen := 1;
               indexes := {["idx_row_col" := idx_row_col]} |}]} |} ∧
  open_database (after_open no_database) = ([], inr (after_open no_database)).
Proof.
  intros m s d.
  destruct (bootstrap_idempotent d s) as (_ & _ & Hcalls & _ & _ & Hrows & _).
  - reflexivity.
  - split; [apply Hcalls; reflexivity|]. split; [exact Hrows|].
    split; vm_compute; reflexivity.
Defined.

(** ** The connection manager *)

Lemma lookup_new_call (cs : list CallState) x : (cs ++ [x]) !! length cs = Some x.
Proof. by rewrite list_lookup_middle. Qed.

Lemma insert_new_call (cs : list CallState) x y :
  <[length cs := y]> (cs ++ [x]) = cs ++ [y].
Proof. rewrite insert_app_r_alt by lia. by rewrite Nat.sub_diag. Qed.

Lemma close_new_handle w :
  handles (close (length (handles w)) (set_handles (handles w ++ [OPEN]) w)) =
    handles w ++ [CLOSED].
Proof.
  unfold close. simpl. rewrite !insert_app_r_alt by lia. by rewrite Nat.sub_diag.
Qed.

Lemma db_isActive_true w : db_isActive w = true ↔ ∃ h, db w = Some h ∧ handles w !! h = Some OPEN.
Proof.
  unfold db_isActive, isActive. destruct (db w) as [h|].
  - rewrite bool_decide_eq_true. split; [by eauto|]. by intros (h' & [= <-] & ?).
  - split; [done|]. by intros (h & [=] & _).
Qed.

Lemma tidy_db_isActive w : tidy w → db_isActive w = bool_decide (is_Some (db w)).
Proof.
  intros Hw. destruct (db w) as [h|] eqn:Hdb.
  - rewrite bool_decide_eq_true_2 by eauto. apply db_isActive_true.
    exists h. split; [done|]. by apply (tidy_db _ Hw).
  - unfold db_isActive. rewrite Hdb. by rewrite bool_decide_eq_false_2 by by intros [? ?].
Qed.

Lemma set_call_same c cs w : calls w !! c = Some cs → set_call c cs w = w.
Proof.
  intros Hc. unfold set_call, set_calls. rewrite list_insert_id by done.
  by destruct w.
Qed.

(** A call that awaits the race when its timer fires. *)
Lemma step_timer_awaiting w c cs :
  calls w !! c = Some cs → status cs = Awaiting →
  step w (timer c) =
    set_call c {| request_done := request_done cs;
                  open_settled := open_settled cs;
                  status := Threw (new_DatabaseTimeoutError "打开数据库超时。") |} w.
Proof. intros Hc Hst. unfold step, settle_race. by rewrite Hc, Hst. Qed.

(** A call that does not await the race is not touched by its timer. *)
Lemma step_timer_settled w c cs :
  calls w !! c = Some cs → status cs ≠ Awaiting → step w (timer c) = w.
Proof.
  intros Hc Hst. unfold step, settle_race. rewrite Hc.
  destruct (status cs); [done|..]; by apply set_call_same.
Qed.

Lemma resume_rejected_DOMException name w :
  getSingletonDB_resume (inl (DOMException <$> name)) w =
    (w, Threw (open_failure (DOMException <$> name))).
Proof. by destruct name. Qed.

(** A call that awaits the race when its open request fails or is
    blocked. *)
Lemma step_error_awaiting w c cs name :
  calls w !! c = Some cs → status cs = Awaiting →
  request_done cs = false → open_settled cs = false →
  step w (engine c (error name)) =
    set_call c {| request_done := true; open_settled := true;
                  status := Threw (open_failure (DOMException <$> name)) |} w.
Proof.
  intros Hc Hst Hdone Hset. unfold step, settle_open, settle_race. rewrite Hc, Hdone.
  cbn [request_finished request_done open_settled status]. rewrite Hset, Hst.
  by rewrite resume_rejected_DOMException.
Qed.

Lemma step_blocked_awaiting w c cs :
  calls w !! c = Some cs → status cs = Awaiting →
  request_done cs = false → open_settled cs = false →
  step w (engine c blocked) =
    set_call c {| request_done := false; open_settled := true;
                  status := Threw (open_failure
                                     (Some (new_DatabaseError "IDB Blocked" None))) |} w.
Proof.
  intros Hc Hst Hdone Hset. unfold step, settle_open, settle_race. rewrite Hc, Hdone.
  simpl. by rewrite Hset, Hst.
Qed.

(** A call that awaits the race when its open request succeeds. *)
Lemma step_success_awaiting w c cs :
  calls w !! c = Some cs → status cs = Awaiting →
  request_done cs = false → open_settled cs = false →
  step w (engine c success) =
    let _db := length (handles w) in
    let w1 := set_handles (handles w ++ [OPEN]) w in
    let w2 := if db_isActive w1 then close _db w1 else set_db (Some _db) w1 in
    set_call c {| request_done := true; open_settled := true;
                  status := Returned (db w2) |} w2.
Proof.
  intros Hc Hst Hdone Hset. unfold step, settle_open, settle_race, open_onsuccess.
  rewrite Hc, Hdone. simpl. by rewrite Hset, Hst.
Qed.

Lemma resume_calls settled w : calls (getSingletonDB_resume settled w).1 = calls w.
Proof.
  destruct settled as [err|_db]; simpl; [done|]. by destruct (db_isActive w).
Qed.

Lemma settle_race_calls c cs settled w :
  ∃ cs', calls (settle_race c cs settled w) = <[c := cs']> (calls w) ∧
         (status cs ≠ Awaiting → status cs' = status cs).
Proof.
  unfold settle_race. destruct (status cs) eqn:Hst.
  - pose proof (resume_calls settled w) as Hcalls.
    destruct (getSingletonDB_resume settled w) as [w' st]. simpl in *.
    eexists. split; [by rewrite Hcalls|done].
  - exists cs. by rewrite Hst.
  - exists cs. by rewrite Hst.
Qed.

Lemma settle_open_calls c cs settled w :
  ∃ cs', calls (settle_open c cs settled w) = <[c := cs']> (calls w) ∧
         (status cs ≠ Awaiting → status cs' = status cs).
Proof.
  unfold settle_open. destruct (open_settled cs).
  - by exists cs.
  - destruct (settle_race_calls c
                {| request_done := request_done cs; open_settled := true;
                   status := status cs |} settled w) as (cs' & Hcalls & Hsame).
    by exists cs'.
Qed.

(** Once a call has returned or thrown, no event changes its status. *)
Lemma step_keeps_status w ev c cs :
  calls w !! c = Some cs → status cs ≠ Awaiting →
  ∃ cs', calls (step w ev) !! c = Some cs' ∧ status cs' = status cs.
Proof.
  intros Hc Hst.
  assert (∀ c' cs0 cs' (l : list CallState),
            l = <[c' := cs']> (calls w) →
            calls w !! c' = Some cs0 →
            (status cs0 ≠ Awaiting → status cs' = status cs0) →
            ∃ cs1, l !! c = Some cs1 ∧ status cs1 = status cs) as Hins.
  { intros c' cs0 cs' l -> Hc' Hsame. destruct (decide (c = c')) as [->|Hne].
    - rewrite list_lookup_insert_eq by (by eapply lookup_lt_Some).
      simplify_eq. eauto.
    - rewrite list_lookup_insert_ne by done. eauto. }
  destruct ev as [|c' ev|c']; simpl.
  - destruct (getSingletonDB_enter w) as [w' st] eqn:Henter.
    assert (calls w' = calls w) as Hcalls.
    { unfold getSingletonDB_enter in Henter. repeat case_match; by simplify_eq. }
    simpl. rewrite Hcalls. exists cs. split; [|done]. by apply lookup_app_l_Some.
  - destruct (calls w !! c') as [cs0|] eqn:Hc'; [|eauto].
    destruct (request_done cs0); [eauto|].
    destruct ev; [eauto|..].
    + destruct (settle_open_calls c' cs0
                  (inl (Some (new_DatabaseError "IDB Blocked" None))) w)
        as (cs' & Hcalls & Hsame).
      by eapply Hins.
    + destruct (settle_open_calls c' (request_finished cs0)
                  (inl (DOMException <$> name)) w) as (cs' & Hcalls & Hsame).
      by eapply Hins.
    + unfold open_onsuccess.
      destruct (settle_open_calls c' (request_finished cs0)
                  (inr (length (handles w))) (set_handles (handles w ++ [OPEN]) w))
        as (cs' & Hcalls & Hsame).
      by eapply Hins.
  - destruct (calls w !! c') as [cs0|] eqn:Hc'; [|eauto].
    destruct (settle_race_calls c' cs0
                (inl (Some (new_TimeoutError OPEN_DB_TIMEOUT))) w)
      as (cs' & Hcalls & Hsame).
    by eapply Hins.
Qed.

Lemma none_threw_step w ev : none_threw (step w ev) → none_threw w.
Proof.
  unfold none_threw. rewrite !Forall_lookup. intros Hpost c cs Hc e Hst.
  destruct (step_keeps_status w ev c cs) as (cs' & Hc' & Hst'); [done|by rewrite Hst|].
  apply (Hpost c cs' Hc' e). by rewrite Hst'.
Qed.

Lemma none_threw_run evs w : none_threw (run evs w) → none_threw w.
Proof.
  revert w. induction evs as [|ev evs IH]; intros w; simpl; [done|].
  intros H. by eapply none_threw_step, IH.
Qed.

Lemma call_in_order_ext w w' cs : db w' = db w → call_in_order w cs → call_in_order w' cs.
Proof. unfold call_in_order. by intros ->. Qed.

(** In a tidy world, a call whose request is pending awaits the race,
    unless it has failed. *)
Lemma tidy_pending_awaiting w c cs :
  tidy w → none_threw w → calls w !! c = Some cs → request_done cs = false →
  status cs = Awaiting ∧ open_settled cs = false.
Proof.
  intros Hw Hnone Hc Hdone.
  pose proof (proj1 (Forall_lookup _ _) (tidy_calls _ Hw) c cs Hc) as Hord.
  pose proof (proj1 (Forall_lookup _ _) Hnone c cs Hc) as Hnot.
  simpl in Hnot. unfold call_in_order in Hord. destruct (status cs) as [|s|e].
  - by destruct Hord.
  - destruct Hord. congruence.
  - exfalso. by apply (Hnot e).
Qed.

(** An event that makes a call throw is not part of a run in which no
    call fails. *)
Lemma threw_not_none_threw w c cs e :
  calls w !! c = Some cs → status cs = Threw e → ¬ none_threw w.
Proof.
  intros Hc Hst Hnone.
  by apply (proj1 (Forall_lookup _ _) Hnone c cs Hc e).
Qed.

Lemma set_call_lookup c cs w cs0 :
  calls w !! c = Some cs0 → calls (set_call c cs w) !! c = Some cs.
Proof. intros Hc. simpl. apply list_lookup_insert_eq. by eapply lookup_lt_Some. Qed.

(** As long as no call fails, every event keeps the world tidy. *)
Lemma step_tidy w ev : tidy w → none_threw (step w ev) → tidy (step w ev).
Proof.
  intros Hw Hpost. pose proof (none_threw_step _ _ Hpost) as Hpre.
  destruct ev as [|c ev|c].
  - (* a call *)
    revert Hpost. unfold step, getSingletonDB_enter.
    rewrite (tidy_db_isActive w Hw).
    destruct (db w) as [h|] eqn:Hdb.
    + rewrite bool_decide_eq_true_2 by eauto. intros _.
      destruct Hw as [Hopen Hcur Hcalls]. split; simpl; [done..|].
      apply Forall_app. split.
      * eapply Forall_impl; [exact Hcalls|]. intros cs. by apply call_in_order_ext.
      * apply Forall_singleton. unfold call_in_order. simpl. rewrite Hdb. eauto.
    + rewrite bool_decide_eq_false_2 by (by intros [? ?]). simpl.
      destruct (indexedDB w); simpl.
      * intros _. destruct Hw as [Hopen Hcur Hcalls]. split; simpl.
        -- intros h Hh. rewrite <- Hdb. by apply Hopen.
        -- done.
        -- apply Forall_app. split.
           ++ eapply Forall_impl; [exact Hcalls|]. intros cs.
              apply call_in_order_ext. by rewrite Hdb.
           ++ by apply Forall_singleton.
      * intros Hpost. exfalso.
        refine (threw_not_none_threw _ (length (calls w)) _ _ _ _ Hpost);
          [simpl; apply lookup_new_call|done].
  - (* an event of an open request *)
    destruct (calls w !! c) as [cs|] eqn:Hc; [|by simpl; rewrite Hc].
    destruct (request_done cs) eqn:Hdone; [by simpl; rewrite Hc, Hdone|].
    destruct (tidy_pending_awaiting w c cs Hw Hpre Hc Hdone) as [Hst Hset].
    destruct ev as [| |name|].
    + by simpl; rewrite Hc, Hdone.
    + exfalso. rewrite (step_blocked_awaiting w c cs) in Hpost by done.
      refine (threw_not_none_threw _ c _ _ _ _ Hpost);
        [by eapply set_call_lookup|done].
    + exfalso. rewrite (step_error_awaiting w c cs) in Hpost by done.
      refine (threw_not_none_threw _ c _ _ _ _ Hpost);
        [by eapply set_call_lookup|done].
    + rewrite (step_success_awaiting w c cs) by done. clear Hpost.
      destruct Hw as [Hopen Hcur Hcalls]. cbn zeta.
      destruct (db w) as [h|] eqn:Hdb.
      * (* a session is current: the new handle is closed *)
        assert (db_isActive (set_handles (handles w ++ [OPEN]) w) = true) as ->.
        { apply db_isActive_true. exists h. split; [done|]. simpl.
          apply lookup_app_l_Some. by apply Hcur. }
        split; simpl.
        -- rewrite !insert_app_r_alt by lia. rewrite Nat.sub_diag. simpl.
           intros h' Hh'. apply lookup_app_Some in Hh' as [Hh'|[_ Hh']].
           ++ rewrite Hdb. by apply Hopen.
           ++ by destruct (h' - length (handles w))%nat.
        -- rewrite !insert_app_r_alt by lia. rewrite Nat.sub_diag. simpl.
           intros h' Hh'. apply lookup_app_l_Some, Hcur. congruence.
        -- apply Forall_lookup. intros c' cs' Hc'.
           apply list_lookup_insert_Some in Hc' as [(-> & <- & _)|[Hne Hc']].
           ++ unfold call_in_order. simpl. rewrite Hdb. eauto.
           ++ eapply call_in_order_ext;
                [|by apply (proj1 (Forall_lookup _ _) Hcalls c' cs')].
              simpl. done.
      * (* no session is current: the new handle becomes the session *)
        assert (db_isActive (set_handles (handles w ++ [OPEN]) w) = false) as ->.
        { unfold db_isActive. simpl. by rewrite Hdb. }
        split; simpl.
        -- intros h' Hh'. apply lookup_app_Some in Hh' as [Hh'|[Hle Hh']].
           ++ apply Hopen in Hh'. congruence.
           ++ apply list_lookup_singleton_Some in Hh' as [Hh' _].
              f_equal. lia.
        -- intros h' [= <-]. apply list_lookup_middle. done.
        -- apply Forall_lookup. intros c' cs' Hc'.
           apply list_lookup_insert_Some in Hc' as [(-> & <- & _)|[Hne Hc']].
           ++ unfold call_in_order. simpl. eauto.
           ++ pose proof (proj1 (Forall_lookup _ _) Hcalls c' cs' Hc') as Hord.
              unfold call_in_order in *. destruct (status cs') as [|s|e]; [done| |done].
              destruct Hord as (_ & _ & [? ?]). congruence.
  - (* a timer *)
    destruct (calls w !! c) as [cs|] eqn:Hc; [|by simpl; rewrite Hc].
    destruct (status cs) eqn:Hst.
    + exfalso. rewrite (step_timer_awaiting w c cs) in Hpost by done.
      refine (threw_not_none_threw _ c _ _ _ _ Hpost);
        [by eapply set_call_lookup|done].
    + rewrite (step_timer_settled w c cs); [done..|]. by rewrite Hst.
    + rewrite (step_timer_settled w c cs); [done..|]. by rewrite Hst.
Qed.

Lemma initial_tidy : tidy initial.
Proof. split; simpl; [done|done|constructor]. Qed.

Lemma run_tidy evs w : tidy w → none_threw (run evs w) → tidy (run evs w).
Proof.
  revert w. induction evs as [|ev evs IH]; intros w Hw Hnone; simpl in *; [done|].
  apply IH; [|done]. apply step_tidy; [done|]. by eapply none_threw_run.
Qed.

Lemma all_returned_none_threw w : all_returned w → none_threw w.
Proof.
  unfold all_returned, none_threw. intros Hall.
  eapply Forall_impl; [exact Hall|]. intros cs [h Hst] e. by rewrite Hst.
Qed.

Lemma filter_OPEN_nil (l : list IDBDatabaseState) :
  (∀ i, l !! i ≠ Some OPEN) → filter (λ st, st = OPEN) l = [].
Proof.
  induction l as [|x l IH]; intros Hl; [done|].
  rewrite filter_cons_False by (intros ->; by apply (Hl 0%nat)).
  apply IH. intros i. apply (Hl (S i)).
Qed.

(** A list of handle states with one OPEN entry. *)
Lemma one_OPEN (l : list IDBDatabaseState) h :
  l !! h = Some OPEN → (∀ i, l !! i = Some OPEN → i = h) →
  length (filter (λ st, st = OPEN) l) = 1%nat.
Proof.
  revert h. induction l as [|x l IH]; intros h Hh Honly; [done|].
  destruct h as [|h]; simpl in Hh.
  - simplify_eq. rewrite filter_cons_True by done. simpl.
    rewrite filter_OPEN_nil; [done|]. intros i Hi. by specialize (Honly (S i) Hi).
  - rewrite filter_cons_False by (intros ->; by specialize (Honly 0%nat eq_refl)).
    apply (IH h Hh). intros i Hi. specialize (Honly (S i) Hi). lia.
Qed.

(** The open of a call resolves while a session is current and open:
    the new handle is closed at once, the session stays, and the call
    returns the session. *)
Lemma duplicate_session_closed w c cs h :
  calls w !! c = Some cs → status cs = Awaiting →
  request_done cs = false → open_settled cs = false →
  db w = Some h → handles w !! h = Some OPEN →
  step w (engine c success) =
    {| indexedDB := indexedDB w;
       handles := handles w ++ [CLOSED];
       db := Some h;
       calls := <[c := {| request_done := true; open_settled := true;
                          status := Returned (Some h) |}]> (calls w) |}.
Proof.
  intros Hc Hst Hdone Hset Hdb Hh.
  rewrite (step_success_awaiting w c cs) by done. cbn zeta.
  assert (db_isActive (set_handles (handles w ++ [OPEN]) w) = true) as ->.
  { apply db_isActive_true. exists h. split; [done|]. simpl.
    by apply lookup_app_l_Some. }
  unfold set_call, set_calls. rewrite close_new_handle. simpl. by rewrite Hdb.
Qed.

Lemma open_handles_app_CLOSED w hs :
  hs = handles w ++ [CLOSED] →
  length (filter (λ st, st = OPEN) hs) = open_handles w.
Proof.
  intros ->. unfold open_handles. rewrite filter_app, length_app.
  rewrite filter_cons_False by done. simpl. lia.
Qed.

(** A call whose race is won by the timer throws, and its open request
    goes on: when the request succeeds later, [onsuccess] marks the new
    handle OPEN and nothing closes it or makes it the session.  Such a run
    is not one in which every call returns a session. *)
Example late_open_after_timeout :
  let w := run [call; timer 0; call; engine 0 success; engine 1 success] initial in
  handles w = [OPEN; OPEN] ∧ db w = Some 1%nat ∧ open_handles w = 2%nat ∧
  status <$> calls w =
    [Threw (new_DatabaseTimeoutError "打开数据库超时。"); Returned (Some 1%nat)].
Proof. vm_compute. done. Qed.

(** A call made while no session is active starts an open. *)
Lemma step_call_opens w :
  db_isActive w = false → indexedDB w = true →
  step w call =
    set_calls (calls w ++ [{| request_done := false; open_settled := false;
                              status := Awaiting |}]) (set_db None w).
Proof.
  intros Hactive Hidb. unfold step, getSingletonDB_enter. rewrite Hactive.
  simpl. by rewrite Hidb.
Qed.

Lemma step_call_opens_lookup w :
  db_isActive w = false → indexedDB w = true →
  calls (step w call) !! length (calls w) =
    Some {| request_done := false; open_settled := false; status := Awaiting |}.
Proof.
  intros Hactive Hidb. rewrite step_call_opens by done. simpl. apply lookup_new_call.
Qed.

(** An open request that succeeds after its call has thrown: the handle
    is set up and stays as it is. *)
Lemma step_success_thrown w c cs e :
  calls w !! c = Some cs → status cs = Threw e → request_done cs = false →
  step w (engine c success) =
    set_call c {| request_done := true; open_settled := true; status := Threw e |}
      (set_handles (handles w ++ [OPEN]) w).
Proof.
  intros Hc Hst Hdone. unfold step. rewrite Hc, Hdone.
  unfold open_onsuccess, settle_open. cbn [request_finished open_settled].
  destruct (open_settled cs) eqn:Hset.
  - f_equal. unfold request_finished. by rewrite Hset, Hst.
  - unfold settle_race. cbn [status request_done open_settled request_finished].
    by rewrite Hst.
Qed.

(** C4.  The first half of the claim holds, in any state of the event
    loop: when the open request of an awaiting call succeeds while a
    session is current and OPEN, the new handle is recorded as CLOSED, the
    current session stays current, the call returns it, and the number of
    open handles is what it was.  Of the second half the code achieves
    this: after every sequence of calls, open events and timers in which
    every call made has returned a session (at least one call), one handle
    is open, it is the current session, and it is what every call
    returned.  And it misses this: a call whose race the timer wins
    throws while its open request goes on; when the next call has opened
    the session and the request of the first succeeds after all,
    [onsuccess] marks its handle OPEN, the code after the [await], which
    alone closes a surplus handle, does not run for it, and the [catch]
    closes nothing.  Both calls have settled, and two handles more are
    open than before, one of them the session. *)
Theorem getSingletonDB_late_open_stays_open :
  (∀ w c cs h,
     calls w !! c = Some cs → status cs = Awaiting →
     request_done cs = false → open_settled cs = false →
     db w = Some h → handles w !! h = Some OPEN →
     let w' := step w (engine c success) in
     handles w' = handles w ++ [CLOSED] ∧
     db w' = Some h ∧
     status <$> calls w' !! c = Some (Returned (Some h)) ∧
     open_handles w' = open_handles w) ∧
  (∀ evs,
     let w := run evs initial in
     calls w ≠ [] → all_returned w →
     open_handles w = 1%nat ∧
     ∃ h, db w = Some h ∧ handles w !! h = Some OPEN ∧
          Forall (λ cs, status cs = Returned (Some h)) (calls w)) ∧
  (∀ w,
     db_isActive w = false → indexedDB w = true →
     let c := length (calls w) in
     let h := length (handles w) in
     let w' := run [call; timer c; call; engine (S c) success; engine c success] w in
     status <$> calls w' !! c =
       Some (Threw (new_DatabaseTimeoutError "打开数据库超时。")) ∧
     status <$> calls w' !! S c = Some (Returned (Some h)) ∧
     length (calls w') = S (S c) ∧
     db w' = Some h ∧
     handles w' = handles w ++ [OPEN; OPEN] ∧
     open_handles w' = S (S (open_handles w))).
Proof.
  split_and!.
  - intros w c cs h Hc Hst Hdone Hset Hdb Hh w'. subst w'.
    rewrite (duplicate_session_closed w c cs h) by done. simpl.
    split_and!; [done|done| |by apply open_handles_app_CLOSED].
    rewrite list_lookup_insert_eq by (by eapply lookup_lt_Some). done.
  - intros evs w Hcalls Hall.
    assert (tidy w) as [Hopen Hcur Hord].
    { apply run_tidy; [apply initial_tidy|by apply all_returned_none_threw]. }
    assert (∃ h, db w = Some h) as [h Hdb].
    { unfold all_returned in Hall.
      destruct (calls w) as [|cs l] eqn:Hl; [done|].
      apply Forall_cons in Hall as [[h' Hst] _].
      apply Forall_cons in Hord as [Hcs _]. unfold call_in_order in Hcs.
      rewrite Hst in Hcs. destruct Hcs as (_ & _ & [h Hdb]). eauto. }
    split.
    + apply (one_OPEN _ h); [by apply Hcur|].
      intros i Hi. apply Hopen in Hi. congruence.
    + exists h. split; [done|]. split; [by apply Hcur|].
      apply Forall_lookup. intros c cs Hc.
      pose proof (proj1 (Forall_lookup _ _) Hall c cs Hc) as [h' Hst].
      pose proof (proj1 (Forall_lookup _ _) Hord c cs Hc) as Hcs.
      unfold call_in_order in Hcs. simpl in Hst. rewrite Hst in Hcs.
      destruct Hcs as (_ & Heq & _). rewrite Hst. f_equal. congruence.
  - intros w Hinactive Hidb. cbv zeta.
    set (timed_out := {| request_done := false; open_settled := false;
                         status := Threw (new_DatabaseTimeoutError "打开数据库超时。") |}).
    set (w2 := {| indexedDB := indexedDB w; handles := handles w; db := None;
                  calls := calls w ++ [timed_out] |}).
    assert (length (calls w2) = S (length (calls w))) as Hlen.
    { unfold w2. cbn [calls]. rewrite length_app. simpl. lia. }
    assert (run [call; timer (length (calls w))] w = w2) as Hw2.
    { unfold run. cbn [foldl]. rewrite step_call_opens by done.
      erewrite step_timer_awaiting; [|apply lookup_new_call|done].
      unfold set_call, set_calls, set_db. cbn [calls db handles indexedDB
        request_done open_settled].
      by rewrite insert_new_call. }
    set (w4 := {| indexedDB := indexedDB w; handles := handles w ++ [OPEN];
                  db := Some (length (handles w));
                  calls := calls w2 ++
                    [{| request_done := true; open_settled := true;
                        status := Returned (Some (length (handles w))) |}] |}).
    assert (run [call; engine (S (length (calls w))) success] w2 = w4) as Hw4.
    { rewrite <- Hlen. unfold run. cbn [foldl].
      rewrite (step_call_opens w2) by done.
      erewrite step_success_awaiting; [|apply lookup_new_call|done..].
      cbv zeta. unfold set_call, set_calls, set_db, set_handles, db_isActive.
      cbn [calls db handles indexedDB]. by rewrite insert_new_call. }
    change [call; timer (length (calls w)); call;
            engine (S (length (calls w))) success; engine (length (calls w)) success]
      with ([call; timer (length (calls w))] ++
            [call; engine (S (length (calls w))) success] ++
            [engine (length (calls w)) success]).
    unfold run. rewrite !foldl_app.
    fold (run [call; timer (length (calls w))] w). rewrite Hw2.
    fold (run [call; engine (S (length (calls w))) success] w2). rewrite Hw4.
    cbn [foldl].
    assert (calls w4 !! length (calls w) = Some timed_out) as Hc.
    { unfold w4, w2. cbn [calls]. rewrite lookup_app_l; [apply lookup_new_call|].
      rewrite length_app. simpl. lia. }
    rewrite (step_success_thrown w4 _ timed_out _ Hc) by done.
    unfold set_call, set_calls, set_handles, open_handles.
    cbn [calls db handles indexedDB].
    split_and!.
    + rewrite list_lookup_insert_eq; [done|]. by eapply lookup_lt_Some.
    + rewrite list_lookup_insert_ne by lia. rewrite <- Hlen.
      unfold w4. cbn [calls]. by rewrite lookup_new_call.
    + rewrite length_insert. unfold w4. cbn [calls].
      rewrite length_app, Hlen. simpl. lia.
    + done.
    + unfold w4. cbn [handles]. by rewrite <- app_assoc.
    + unfold w4. cbn [handles]. rewrite !filter_app, !length_app. simpl. lia.
Qed.

Lemma getSingletonDB_late_open_stays_open_witness :
  let w := run [call; timer 0; call; engine 1 success; engine 0 success] initial in
  status <$> calls w =
    [Threw (new_DatabaseTimeoutError "打开数据库超时。"); Returned (Some 0%nat)] ∧
  status <$> calls w !! 0%nat =
    Some (Threw (new_DatabaseTimeoutError "打开数据库超时。")) ∧
  status <$> calls w !! 1%nat = Some (Returned (Some 0%nat)) ∧
  length (calls w) = 2%nat ∧
  db w = Some 0%nat ∧
  handles w = [] ++ [OPEN; OPEN] ∧
  open_handles w = 2%nat.
Proof.
  intros w. destruct getSingletonDB_late_open_stays_open as (_ & _ & Hleak).
  split; [reflexivity|]. apply (Hleak initial); reflexivity.
Defined.

(** ** Timeout, blocked open, invalidated session *)

(** C5.  A call that starts an open (no session is active) and whose
    open request has its last event more than [OPEN_DB_TIMEOUT] = 5000 ms
    later, or never: the timer fires first and the call throws the
    [DatabaseTimeoutError], whatever the request does afterwards; its
    class is not the class of the error thrown for a failed open. *)
Theorem open_timeout_rejects w tie delay ev :
  db_isActive w = false → indexedDB w = true →
  match delay with Some d => OPEN_DB_TIMEOUT < d | None => True end →
  OPEN_DB_TIMEOUT = 5000 ∧
  status <$> calls (run (lone_call tie delay ev w) w) !! length (calls w) =
    Some (Threw (new_DatabaseTimeoutError "打开数据库超时。")) ∧
  err_class (new_DatabaseTimeoutError "打开数据库超时。") = ClsDatabaseTimeoutError ∧
  (∀ err, err_class (open_failure err) = ClsDatabaseError) ∧
  (∀ err, instanceof (open_failure err) ClsDatabaseTimeoutError = false).
Proof.
  intros Hactive Hidb Hlate. split_and!; try done.
  pose proof (step_call_opens_lookup w Hactive Hidb) as Hc.
  set (c := length (calls w)) in *.
  assert (status <$> calls (step (step w call) (timer c)) !! c =
            Some (Threw (new_DatabaseTimeoutError "打开数据库超时。"))) as Htimer.
  { rewrite (step_timer_awaiting _ c _ Hc) by done.
    by erewrite set_call_lookup. }
  unfold lone_call. fold c. destruct delay as [d|]; [|exact Htimer].
  destruct (Z.ltb_spec OPEN_DB_TIMEOUT d) as [_|?]; [|lia]. cbn [orb].
  change (run [call; timer c; engine c ev] w)
    with (step (step (step w call) (timer c)) (engine c ev)).
  destruct (calls (step (step w call) (timer c)) !! c) as [cs|] eqn:Hcs; [|done].
  injection Htimer as Hst.
  destruct (step_keeps_status _ (engine c ev) c cs Hcs) as (cs' & Hcs' & Hst');
    [by rewrite Hst|].
  rewrite Hcs'. cbn [fmap option_fmap option_map]. by rewrite Hst', Hst.
Qed.

Lemma open_timeout_rejects_witness :
  status <$> calls (run (lone_call false (Some 6000) success initial) initial) !! 0%nat =
    Some (Threw (new_DatabaseTimeoutError "打开数据库超时。")) ∧
  status <$> calls (run (lone_call false None success initial) initial) !! 0%nat =
    Some (Threw (new_DatabaseTimeoutError "打开数据库超时。")).
Proof.
  split.
  - apply (open_timeout_rejects initial false (Some 6000) success); [done|done|].
    unfold OPEN_DB_TIMEOUT. lia.
  - by apply (open_timeout_rejects initial false None success).
Defined.

(** C6 as stated fails: the error that [getSingletonDB] throws for a
    blocked open has the class, the name and the message of the error it
    throws for an open request that failed. *)
Lemma blocked_open_counterexample :
  ∃ e_blocked e_failed,
    status <$> calls (run [call; engine 0 blocked] initial) !! 0%nat =
      Some (Threw e_blocked) ∧
    status <$> calls (run [call; engine 0 (error (Some "UnknownError"))] initial) !! 0%nat =
      Some (Threw e_failed) ∧
    err_class e_blocked = err_class e_failed ∧
    err_name e_blocked = err_name e_failed ∧
    err_message e_blocked = err_message e_failed.
Proof. eexists _, _. split_and!; vm_compute; reflexivity. Qed.

(** C6, amended.  When the engine reports the open request of a call as
    blocked, [open()] rejects with a [DatabaseError] whose message is
    'IDB Blocked', and [getSingletonDB] throws the error it throws for
    any failed open: a [DatabaseError] with the message of the generic
    failure, of the same class, name and message as for a request that
    fails with a DOMException.  The 'IDB Blocked' error is kept only as
    the stack appended to it.  The error is not the timeout error. *)
Theorem blocked_open_is_generic_failure w name :
  db_isActive w = false → indexedDB w = true →
  let c := length (calls w) in
  let e_blocked := open_failure (Some (new_DatabaseError "IDB Blocked" None)) in
  let e_failed := open_failure (DOMException <$> name) in
  status <$> calls (run [call; engine c blocked] w) !! c = Some (Threw e_blocked) ∧
  status <$> calls (run [call; engine c (error name)] w) !! c = Some (Threw e_failed) ∧
  same_kind e_blocked e_failed ∧
  err_class e_blocked = ClsDatabaseError ∧
  err_message e_blocked = "打开数据库失败。" ∧
  err_appended e_blocked = open_onblocked ∧
  err_message <$> open_onblocked = Some "IDB Blocked" ∧
  instanceof e_blocked ClsDatabaseTimeoutError = false.
Proof.
  intros Hactive Hidb c e_blocked e_failed.
  pose proof (step_call_opens_lookup w Hactive Hidb) as Hc. fold c in Hc.
  split_and!; try done.
  - change (run [call; engine c blocked] w) with (step (step w call) (engine c blocked)).
    rewrite (step_blocked_awaiting _ c _ Hc) by done.
    by erewrite set_call_lookup.
  - change (run [call; engine c (error name)] w)
      with (step (step w call) (engine c (error name))).
    rewrite (step_error_awaiting _ c _ _ Hc) by done.
    by erewrite set_call_lookup.
Qed.

Lemma blocked_open_is_generic_failure_witness :
  let e_blocked := open_failure (Some (new_DatabaseError "IDB Blocked" None)) in
  let e_failed := open_failure (Some (DOMException "UnknownError")) in
  status <$> calls (run [call; engine 0 blocked] initial) !! 0%nat =
    Some (Threw e_blocked) ∧
  status <$> calls (run [call; engine 0 (error (Some "UnknownError"))] initial) !! 0%nat =
    Some (Threw e_failed) ∧
  same_kind e_blocked e_failed.
Proof.
  intros e_blocked e_failed.
  destruct (blocked_open_is_generic_failure initial (Some "UnknownError"))
    as (H1 & H2 & H3 & _); [done|done|].
  split; [exact H1|]. split; [exact H2|exact H3].
Defined.

(** C7.  A request, or a transaction, fails with an error named
    'InvalidStateError' while the connection [h] of its transaction is
    the current session and OPEN.  The error listener of
    [request2promise], like that of [transaction2promise], closes [h],
    whose state becomes CLOSED, and rejects with the error itself.  The
    session is then not active: the next call of [getSingletonDB] does not
    return [h] but starts an open, and when that open succeeds the call
    returns the new handle, which is OPEN and becomes the session. *)
Theorem invalid_state_closes_session {T} w (request : IDBRequest T) tx e :
  req_transaction request = Some tx →
  req_error request = Some e →
  err_name e = "InvalidStateError" →
  db w = Some (tx_db tx) → handles w !! tx_db tx = Some OPEN →
  indexedDB w = true →
  let h := tx_db tx in
  let '(w1, settled1) := request2promise request request_error w in
  let '(w2, settled2) := transaction2promise tx (tx_error request) w in
  settled1 = Rejected (Some e) ∧ settled2 = Rejected (Some e) ∧ w2 = w1 ∧
  handles w1 !! h = Some CLOSED ∧ isActive w1 h = false ∧ db_isActive w1 = false ∧
  (getSingletonDB_enter w1).2 = Awaiting ∧
  let c := length (calls w1) in
  let h' := length (handles w1) in
  let w3 := run [call; engine c success] w1 in
  status <$> calls w3 !! c = Some (Returned (Some h')) ∧
  h' ≠ h ∧ db w3 = Some h' ∧ handles w3 !! h' = Some OPEN ∧
  handles w3 !! h = Some CLOSED.
Proof.
  intros Htx Herr Hname Hdb Hh Hidb h.
  unfold request2promise, transaction2promise. rewrite Htx, Herr.
  assert (is_InvalidStateError (Some e) = true) as ->.
  { unfold is_InvalidStateError. simpl. by apply bool_decide_eq_true. }
  fold h in Hdb, Hh |- *. set (w1 := close h w).
  assert (h < length (handles w))%nat as Hlt by (by eapply lookup_lt_Some).
  assert (handles w1 !! h = Some CLOSED) as Hclosed.
  { unfold w1, close. simpl. apply list_lookup_insert_eq. by rewrite length_insert. }
  assert (db_isActive w1 = false) as Hinactive.
  { unfold db_isActive, isActive.
    replace (db w1) with (Some h) by (by rewrite <- Hdb).
    rewrite Hclosed. by apply bool_decide_eq_false. }
  assert (indexedDB w1 = true) as Hidb1 by done.
  set (c := length (calls w1)). set (h' := length (handles w1)).
  pose proof (step_call_opens_lookup w1 Hinactive Hidb1) as Hc. fold c in Hc.
  assert (run [call; engine c success] w1 =
    set_call c {| request_done := true; open_settled := true;
                  status := Returned (Some h') |}
      (set_db (Some h')
         (set_handles (handles w1 ++ [OPEN]) (step w1 call)))) as ->.
  { change (run [call; engine c success] w1)
      with (step (step w1 call) (engine c success)).
    rewrite (step_success_awaiting _ c _ Hc) by done. cbn zeta.
    rewrite (step_call_opens w1) by done. reflexivity. }
  assert (length (handles w1) = length (handles w)) as Hlen.
  { unfold w1, close. simpl. by rewrite !length_insert. }
  rewrite (step_call_opens w1) by done.
  cbn [set_call set_calls set_db set_handles calls handles db].
  split_and!; try done.
  - unfold isActive. rewrite Hclosed. by apply bool_decide_eq_false.
  - unfold getSingletonDB_enter. rewrite Hinactive. simpl. by rewrite Hidb.
  - unfold c. rewrite insert_new_call. by rewrite lookup_new_call.
  - unfold h'. lia.
  - apply list_lookup_middle. done.
  - by apply lookup_app_l_Some.
Qed.

Lemma invalid_state_closes_session_witness :
  let w := run [call; engine 0 success] initial in
  let tx := {| tx_db := 0; tx_store := empty_store; tx_requests := [] |} in
  let e := DOMException "InvalidStateError" in
  let request :=
    {| req_result := tt; req_error := Some e; req_transaction := Some tx |} in
  let '(w1, settled1) := request2promise request request_error w in
  let '(w2, settled2) := transaction2promise tx (tx_error request) w in
  settled1 = Rejected (Some e) ∧ settled2 = Rejected (Some e) ∧ w2 = w1 ∧
  handles w1 !! 0%nat = Some CLOSED ∧ isActive w1 0 = false ∧ db_isActive w1 = false ∧
  (getSingletonDB_enter w1).2 = Awaiting ∧
  let c := length (calls w1) in
  let h' := length (handles w1) in
  let w3 := run [call; engine c success] w1 in
  status <$> calls w3 !! c = Some (Returned (Some h')) ∧
  h' ≠ 0%nat ∧ db w3 = Some h' ∧ handles w3 !! h' = Some OPEN ∧
  handles w3 !! 0%nat = Some CLOSED.
Proof.
  intros w tx e request.
  apply (invalid_state_closes_session w request tx e); reflexivity.
Defined.

(** ** Batches of new records *)

Lemma store_add_free r s :
  consistent s → sole_index s → id r = None → keygen s ≤ KEY_MAX → cell_free r s →
  store_add r s = inr (added r s).
Proof.
  intros Hs Hsole Hid Hkey Hfree. unfold store_add, store_record. rewrite Hid.
  destruct (Z.ltb_spec KEY_MAX (keygen s)) as [|_]; [lia|].
  assert (records s !! keygen s = None) as Hnone.
  { destruct (records s !! keygen s) as [v|] eqn:Hv; [|done].
    pose proof (keygen_past s Hs Hkey _ _ Hv). lia. }
  rewrite Hnone. rewrite bool_decide_eq_false_2 by (by intros [? ?]).
  simpl. rewrite constraint_violation_sole_index by done.
  rewrite bool_decide_eq_false_2; [done|].
  intros [_ (key & Hk & (k' & v' & Hv' & _ & Hk'))].
  rewrite index_key_row_col in Hk, Hk'. simplify_eq.
  by apply (Hfree _ _ Hv').
Qed.

Lemma added_consistent r s :
  consistent s → sole_index s → id r = None → keygen s ≤ KEY_MAX → cell_free r s →
  consistent (added r s).
Proof.
  intros Hs Hsole Hid Hkey Hfree.
  eapply (store_record_consistent true r s); [done|]. by apply store_add_free.
Qed.

Lemma cell_free_added r r2 s :
  cell_free r2 s → cell r ≠ cell r2 → cell_free r2 (added r s).
Proof.
  intros Hfree Hne k v. unfold added. simpl.
  destruct (decide (k = keygen s)) as [->|Hk].
  - rewrite lookup_insert_eq. intros [= <-]. intros [Hr Hc]. simpl in Hr, Hc.
    apply Hne. unfold cell. by rewrite Hr, Hc.
  - rewrite lookup_insert_ne by done. apply Hfree.
Qed.

Lemma lookup_free begin r tx :
  indexes (tx_store tx) !! "idx_row_col" = Some idx_row_col →
  cell_free r (tx_store tx) →
  lookup_same_cell begin r tx = Next None (executed (lookup_of r) (tx_store tx) tx).
Proof.
  intros Hix Hfree. rewrite lookup_same_cell_next by done.
  by rewrite index_getAll_none.
Qed.

Lemma add_free r tx :
  consistent (tx_store tx) → sole_index (tx_store tx) → id r = None →
  keygen (tx_store tx) ≤ KEY_MAX → cell_free r (tx_store tx) →
  add r tx = Next tt (executed (Add r) (added r (tx_store tx)) tx).
Proof.
  intros. unfold add, write. by rewrite store_add_free.
Qed.

Lemma setImageMap_each_free begin r tx :
  consistent (tx_store tx) → sole_index (tx_store tx) → id r = None →
  keygen (tx_store tx) ≤ KEY_MAX → cell_free r (tx_store tx) →
  setImageMap_each begin r tx =
    Next tt {| tx_db := tx_db tx; tx_store := added r (tx_store tx);
               tx_requests := tx_requests tx ++ [lookup_of r; Add r] |}.
Proof.
  intros Hs Hsole Hid Hkey Hfree. unfold setImageMap_each, bind.
  rewrite lookup_free by (done || apply Hs).
  cbn [and_id mbind option_bind ret]. rewrite add_free by done.
  unfold executed. simpl. by rewrite <- app_assoc.
Qed.

Lemma setImageMap2_each_free begin r tx :
  consistent (tx_store tx) → sole_index (tx_store tx) → id r = None →
  keygen (tx_store tx) ≤ KEY_MAX → cell_free r (tx_store tx) →
  setImageMap2_each begin r tx =
    Next tt {| tx_db := tx_db tx; tx_store := added r (tx_store tx);
               tx_requests := tx_requests tx ++ [lookup_of r; Add r] |}.
Proof.
  intros Hs Hsole Hid Hkey Hfree. unfold setImageMap2_each, bind.
  rewrite lookup_free by (done || apply Hs).
  rewrite add_free by done.
  unfold executed. simpl. by rewrite <- app_assoc.
Qed.

Lemma setImageMap3_then_free r tx :
  consistent (tx_store tx) → sole_index (tx_store tx) → id r = None →
  keygen (tx_store tx) ≤ KEY_MAX → cell_free r (tx_store tx) →
  setImageMap3_then (r, None) tx =
    Next tt {| tx_db := tx_db tx; tx_store := added r (tx_store tx);
               tx_requests := tx_requests tx ++ [Add r] |}.
Proof.
  intros Hs Hsole Hid Hkey Hfree. unfold setImageMap3_then.
  cbn [and_id mbind option_bind]. by rewrite add_free.
Qed.

Lemma fresh_batch_cons r xs s :
  fresh_batch (r :: xs) s →
  id r = None ∧ keygen s ≤ KEY_MAX ∧ cell_free r s ∧ fresh_batch xs (added r s).
Proof.
  intros [Hid Hcells Hfree Hkeys].
  apply Forall_cons in Hid as [Hid Hids].
  apply Forall_cons in Hfree as [Hfree Hfrees].
  rewrite fmap_cons in Hcells. apply NoDup_cons in Hcells as [Hnotin Hcells].
  rewrite length_cons in Hkeys.
  split_and!; [done|lia|done|].
  split; [done|done| |simpl; lia].
  apply Forall_forall. intros r2 Hr2. apply cell_free_added.
  - by eapply Forall_forall in Hfrees.
  - intros Heq. apply Hnotin. rewrite Heq. apply list_elem_of_fmap. by exists r2.
Qed.

Lemma added_all_keygen xs s : keygen (added_all xs s) = keygen s + Z.of_nat (length xs).
Proof.
  revert s. induction xs as [|r xs IH]; intros s; [simpl; lia|].
  change (added_all (r :: xs) s) with (added_all xs (added r s)).
  rewrite IH, length_cons. simpl. lia.
Qed.

Lemma added_all_indexes xs s : indexes (added_all xs s) = indexes s.
Proof.
  revert s. induction xs as [|r xs IH]; intros s; [done|].
  change (added_all (r :: xs) s) with (added_all xs (added r s)).
  by rewrite IH.
Qed.

Lemma added_all_lookup_old xs s k :
  k < keygen s → records (added_all xs s) !! k = records s !! k.
Proof.
  revert s. induction xs as [|r xs IH]; intros s Hk; [done|].
  change (added_all (r :: xs) s) with (added_all xs (added r s)).
  rewrite IH by (simpl; lia).
  simpl. rewrite lookup_insert_ne by lia. done.
Qed.

Lemma added_all_lookup_new xs s (i : nat) r :
  xs !! i = Some r →
  records (added_all xs s) !! (keygen s + Z.of_nat i) =
    Some (with_id (Some (keygen s + Z.of_nat i)) r).
Proof.
  revert s i. induction xs as [|r0 xs IH]; intros s i Hi; [done|].
  destruct i as [|i]; simpl in Hi.
  - simplify_eq. change (added_all (r :: xs) s) with (added_all xs (added r s)).
    rewrite added_all_lookup_old by (simpl; lia).
    simpl. replace (keygen s + Z.of_nat 0) with (keygen s) by lia.
    by rewrite lookup_insert_eq.
  - change (added_all (r0 :: xs) s) with (added_all xs (added r0 s)).
    specialize (IH (added r0 s) i Hi). simpl in IH.
    replace (keygen s + Z.of_nat (S i)) with (keygen s + 1 + Z.of_nat i) by lia. done.
Qed.

Section Inserts.

Variable body : ImageMap → M unit.
Variable reqs : ImageMap → list Request.
Hypothesis body_free : ∀ r tx,
  consistent (tx_store tx) → sole_index (tx_store tx) → id r = None →
  keygen (tx_store tx) ≤ KEY_MAX → cell_free r (tx_store tx) →
  body r tx =
    Next tt {| tx_db := tx_db tx; tx_store := added r (tx_store tx);
               tx_requests := tx_requests tx ++ reqs r |}.

Lemma for_of_inserts xs tx :
  consistent (tx_store tx) → sole_index (tx_store tx) →
  fresh_batch xs (tx_store tx) →
  for_of xs body tx =
    Next tt {| tx_db := tx_db tx; tx_store := added_all xs (tx_store tx);
               tx_requests := tx_requests tx ++ (xs ≫= reqs) |} ∧
  consistent (added_all xs (tx_store tx)).
Proof.
  revert tx. induction xs as [|r xs IH]; intros tx Hs Hsole Hfresh.
  - simpl. unfold ret. destruct tx; simpl in *. by rewrite app_nil_r.
  - apply fresh_batch_cons in Hfresh as (Hid & Hkey & Hfree & Hfresh).
    cbn [for_of]. unfold bind. rewrite body_free by done.
    set (tx1 := {| tx_db := tx_db tx; tx_store := added r (tx_store tx);
                   tx_requests := tx_requests tx ++ reqs r |}).
    destruct (IH tx1) as [-> Hcons]; [by apply added_consistent|done|done|].
    split; [|done]. simpl. by rewrite <- app_assoc.
Qed.

End Inserts.

(** All the lookups of [setImageMap3] see the table as it was. *)
Lemma map_requests_lookup begin xs tx :
  indexes (tx_store tx) !! "idx_row_col" = Some idx_row_col →
  map_requests (lookup_same_cell begin) xs tx =
    Next (found_in (tx_store tx) <$> xs)
         {| tx_db := tx_db tx; tx_store := tx_store tx;
            tx_requests := tx_requests tx ++ (lookup_of <$> xs) |}.
Proof.
  revert tx. induction xs as [|r xs IH]; intros tx Hix.
  - simpl. unfold ret. destruct tx; simpl. by rewrite app_nil_r.
  - cbn [map_requests]. unfold bind at 1. rewrite lookup_same_cell_next by done.
    unfold bind at 1. rewrite IH by done. unfold ret, executed. simpl.
    by rewrite <- app_assoc.
Qed.

Lemma zip_fmap_found {A B} (f : A → B) (xs : list A) :
  zip xs (f <$> xs) = (λ x, (x, f x)) <$> xs.
Proof. induction xs as [|x xs IH]; [done|]. cbn. f_equal. exact IH. Qed.

Lemma for_of_fmap {A B} (g : A → B) (xs : list A) (body : B → M unit) tx :
  for_of (g <$> xs) body tx = for_of xs (λ x, body (g x)) tx.
Proof.
  revert tx. induction xs as [|x xs IH]; intros tx; simpl; [done|].
  unfold bind. destruct (body (g x) tx) as [[] tx1| |]; [|done..]. apply IH.
Qed.

(** [setImageMap3] from its transaction on: the lookups, then the
    writes. *)
Lemma setImageMap3_body begin tx imageMaps :
  begin IMAGE_MAP readwrite = inr tx →
  indexes (tx_store tx) !! "idx_row_col" = Some idx_row_col →
  setImageMap3 begin imageMaps =
    InTx (for_of (as_array imageMaps)
            (λ r, setImageMap3_then (r, found_in (tx_store tx) r))
            {| tx_db := tx_db tx; tx_store := tx_store tx;
               tx_requests := tx_requests tx ++ (lookup_of <$> as_array imageMaps) |}).
Proof.
  intros Hbegin Hix. unfold setImageMap3, begin_readwrite. rewrite Hbegin.
  f_equal. unfold bind. rewrite map_requests_lookup by done.
  rewrite zip_fmap_found. apply for_of_fmap.
Qed.

Lemma for_of_ext {A} (xs : list A) (body1 body2 : A → M unit) tx :
  (∀ x tx, x ∈ xs → body1 x tx = body2 x tx) →
  for_of xs body1 tx = for_of xs body2 tx.
Proof.
  revert tx. induction xs as [|x xs IH]; intros tx Hext; simpl; [done|].
  unfold bind. rewrite Hext by left.
  destruct (body2 x tx) as [[] tx1| |]; [|done..].
  apply IH. intros y ty Hy. apply Hext. by right.
Qed.

Lemma found_in_free s r : cell_free r s → found_in s r = None.
Proof. intros Hfree. unfold found_in. by rewrite index_getAll_none. Qed.

Lemma bind_Add (xs : list ImageMap) : xs ≫= (λ r, [Add r]) = Add <$> xs.
Proof. induction xs as [|x xs IH]; [done|]. cbn. by f_equal. Qed.

Lemma finish_Next {A} (a : A) tx : finish (InTx (Next a tx)) = (tx_requests tx, Committed (tx_store tx)).
Proof. done. Qed.

Lemma table_of_one_consistent :
  consistent
    {| records := {[1 := {| id := Some 1; row := 0; col := 0; data := [Byte.x01] |}]};
       keygen := 2;
       indexes := {["idx_row_col" := idx_row_col]} |}.
Proof.
  eapply (store_record_consistent true
            {| id := None; row := 0; col := 0; data := [Byte.x01] |});
    [apply empty_store_with_index_consistent|].
  vm_compute. reflexivity.
Qed.

Lemma table_of_zero_consistent :
  consistent
    {| records := {[0 := {| id := Some 0; row := 0; col := 0; data := [Byte.x01] |}]};
       keygen := 1;
       indexes := {["idx_row_col" := idx_row_col]} |}.
Proof.
  eapply (store_record_consistent true
            {| id := Some 0; row := 0; col := 0; data := [Byte.x01] |});
    [apply empty_store_with_index_consistent|].
  vm_compute. reflexivity.
Qed.

Lemma cell_free_empty r ks ixs :
  cell_free r {| records := ∅; keygen := ks; indexes := ixs |}.
Proof. intros k v Hv. cbn [records] in Hv. by rewrite lookup_empty in Hv. Qed.

(** X1.  A batch of new records: none carries an id, no two name the
    same cell, every cell is free in the table and the key generator has
    a key left for each.  On a consistent table whose only index is
    [idx_row_col], [setImageMap], [setImageMap2] and [setImageMap3] all
    commit such a batch and leave the same table.  [setImageMap] and
    [setImageMap2] place, record after record, the lookup and then the
    add; [setImageMap3] places all the lookups and then all the adds.  The
    records are stored in the order of the batch under consecutive keys
    from the key generator on, each one is found again by its cell, and
    the records that the table held are still there. *)
Theorem upsert_of_new_cells begin tx imageMaps :
  begin IMAGE_MAP readwrite = inr tx →
  consistent (tx_store tx) → sole_index (tx_store tx) →
  fresh_batch (as_array imageMaps) (tx_store tx) →
  let xs := as_array imageMaps in
  let s := tx_store tx in
  let s' := added_all xs s in
  finish (setImageMap begin imageMaps) =
    (tx_requests tx ++ (xs ≫= λ r, [lookup_of r; Add r]), Committed s') ∧
  finish (setImageMap2 begin imageMaps) =
    (tx_requests tx ++ (xs ≫= λ r, [lookup_of r; Add r]), Committed s') ∧
  finish (setImageMap3 begin imageMaps) =
    (tx_requests tx ++ (lookup_of <$> xs) ++ (Add <$> xs), Committed s') ∧
  keygen s' = keygen s + Z.of_nat (length xs) ∧
  (∀ (i : nat) r, xs !! i = Some r →
     index_getAll idx_row_col [row r; col r] s' =
       [with_id (Some (keygen s + Z.of_nat i)) r]) ∧
  (∀ k v, records s !! k = Some v → records s' !! k = Some v).
Proof.
  intros Hbegin Hs Hsole Hfresh. cbv zeta.
  set (xs := as_array imageMaps) in *.
  pose proof (for_of_inserts (setImageMap_each begin) (λ r, [lookup_of r; Add r])
                (setImageMap_each_free begin) xs tx Hs Hsole Hfresh) as [H1 Hs'].
  pose proof (for_of_inserts (setImageMap2_each begin) (λ r, [lookup_of r; Add r])
                (setImageMap2_each_free begin) xs tx Hs Hsole Hfresh) as [H2 _].
  split_and!.
  - unfold setImageMap, begin_readwrite. rewrite Hbegin. fold xs. by rewrite H1.
  - unfold setImageMap2, begin_readwrite. rewrite Hbegin. fold xs. by rewrite H2.
  - rewrite (setImageMap3_body begin tx) by (done || apply Hs).
    fold xs.
    set (tx1 := {| tx_db := tx_db tx; tx_store := tx_store tx;
                   tx_requests := tx_requests tx ++ (lookup_of <$> xs) |}).
    rewrite (for_of_ext xs _ (λ r, setImageMap3_then (r, None))).
    + destruct (for_of_inserts (λ r, setImageMap3_then (r, None)) (λ r, [Add r])
                  setImageMap3_then_free xs tx1) as [-> _]; [done..|].
      rewrite finish_Next. simpl. by rewrite bind_Add, <- app_assoc.
    + intros r tx2 Hr. rewrite found_in_free; [done|].
      destruct Hfresh as [_ _ Hfree _]. by eapply Forall_forall in Hfree.
  - apply added_all_keygen.
  - intros i r Hi. eapply index_getAll_found; [apply Hs'| |done..].
    by apply added_all_lookup_new.
  - intros k v Hk. destruct Hfresh as [_ _ _ Hkeys].
    destruct xs as [|r0 xs0]; [done|].
    rewrite added_all_lookup_old; [done|].
    eapply keygen_past; [done| |done].
    rewrite length_cons in Hkeys. lia.
Qed.

Lemma upsert_of_new_cells_witness :
  let table :=
    {| records := ∅; keygen := 1; indexes := {["idx_row_col" := idx_row_col]} |} in
  let a := {| id := None; row := 0; col := 0; data := [Byte.x01] |} in
  let b := {| id := None; row := 0; col := 1; data := [Byte.x02] |} in
  finish (setImageMap (session 0 table) (inr [a; b])) =
    ([lookup_of a; Add a; lookup_of b; Add b], Committed (added_all [a; b] table)) ∧
  finish (setImageMap3 (session 0 table) (inr [a; b])) =
    ([lookup_of a; lookup_of b; Add a; Add b], Committed (added_all [a; b] table)) ∧
  index_getAll idx_row_col [0; 1] (added_all [a; b] table) = [with_id (Some 2) b].
Proof.
  intros table a b.
  destruct (upsert_of_new_cells (session 0 table)
              {| tx_db := 0; tx_store := table; tx_requests := [] |} (inr [a; b]))
    as (H1 & _ & H3 & _ & Hfind & _).
  - reflexivity.
  - apply empty_store_with_index_consistent.
  - reflexivity.
  - split.
    + repeat constructor.
    + apply NoDup_cons. split; [|apply NoDup_singleton].
      intros Hin%list_elem_of_singleton. discriminate Hin.
    + repeat constructor; apply cell_free_empty.
    + vm_compute. discriminate.
  - split; [exact H1|]. split; [exact H3|]. exact (Hfind 1%nat b eq_refl).
Defined.

(** ** The demonstration at the end of the file *)

Lemma bind_singleton_fmap {A B} (h : A → B) (l : list A) :
  l ≫= (λ x, [h x]) = h <$> l.
Proof. induction l as [|x l IH]; [done|]. cbn. by f_equal. Qed.

(** A grid built row after row holds, at the position [i], the cell of
    row [i / 100] and column [i mod 100]. *)
Lemma grid_by_position {A} (g : Z → Z → A) (n : nat) :
  (r ← seqZ 0 (Z.of_nat n); c ← seqZ 0 100; [g r c]) =
    (λ i, g (i `div` 100) (i `mod` 100)) <$> seqZ 0 (100 * Z.of_nat n).
Proof.
  induction n as [|n IH]; [done|].
  rewrite seqZ_S, bind_app, IH, bind_singleton, bind_singleton_fmap.
  replace (100 * Z.of_nat (S n)) with (100 * Z.of_nat n + 100) by lia.
  rewrite seqZ_app, fmap_app by lia. f_equal.
  replace (0 + 100 * Z.of_nat n) with (100 * Z.of_nat n + 0) by lia.
  rewrite <- fmap_add_seqZ, <- list_fmap_compose.
  apply list_fmap_ext. intros i c [-> Hc]%lookup_seqZ. simpl.
  f_equal.
  - apply (Z.div_unique _ 100 _ (0 + Z.of_nat i)); lia.
  - apply (Z.mod_unique _ 100 (0 + Z.of_nat n) _); lia.
Qed.

Lemma demo_by_position :
  Demo.imageMaps =
    (λ i, {| id := None; row := i `div` 100; col := i `mod` 100; data := Demo.blank |})
      <$> seqZ 0 10000.
Proof.
  exact (grid_by_position
           (λ r c, {| id := None; row := r; col := c; data := Demo.blank |}) 100).
Qed.

Lemma demo_fresh : fresh_batch Demo.imageMaps opened_table.
Proof.
  rewrite demo_by_position. split.
  - apply Forall_fmap, Forall_forall. done.
  - rewrite <- list_fmap_compose. apply NoDup_fmap_2_strong; [|apply NoDup_seqZ].
    intros i j _ _ [= Hd Hm].
    rewrite (Z.div_mod i 100), (Z.div_mod j 100) by lia. congruence.
  - apply Forall_fmap, Forall_forall. intros i _ k v Hv. done.
  - rewrite length_fmap, length_seqZ. by vm_compute.
Qed.

(** X2.  The demonstration at the end of the file, on a session whose
    table is the one that the first [open] creates: its call of
    [setImageMap] places a lookup and an add for each of its 10000
    records and commits; afterwards the key generator stands at 10001 and
    every cell [(r, c)] of the grid of 100 rows and 100 columns holds
    exactly one record, with the id [1 + 100 * r + c] and a hundred zero
    bytes. *)
Theorem demo_fills_the_grid h :
  let s' := added_all Demo.imageMaps opened_table in
  finish (setImageMap (session h opened_table) (inr Demo.imageMaps)) =
    (Demo.imageMaps ≫= (λ r, [lookup_of r; Add r]), Committed s') ∧
  Z.of_nat (length Demo.imageMaps) = 10000 ∧
  keygen s' = 10001 ∧
  ∀ r c, 0 ≤ r < 100 → 0 ≤ c < 100 →
    index_getAll idx_row_col [r; c] s' =
      [{| id := Some (1 + 100 * r + c); row := r; col := c; data := Demo.blank |}].
Proof.
  cbv zeta.
  set (tx := {| tx_db := h; tx_store := opened_table; tx_requests := [] |}).
  pose proof (for_of_inserts (setImageMap_each (session h opened_table))
                (λ r, [lookup_of r; Add r])
                (setImageMap_each_free (session h opened_table)) Demo.imageMaps tx
                opened_table_consistent eq_refl demo_fresh) as [Hrun Hs'].
  assert (Z.of_nat (length Demo.imageMaps) = 10000) as Hlen.
  { rewrite demo_by_position, length_fmap, length_seqZ. lia. }
  split_and!.
  - change (setImageMap (session h opened_table) (inr Demo.imageMaps))
      with (InTx (for_of Demo.imageMaps (setImageMap_each (session h opened_table)) tx)).
    by rewrite Hrun.
  - done.
  - rewrite added_all_keygen, Hlen. done.
  - intros r c Hr Hc. eapply index_getAll_found; [apply Hs'| |done..].
    replace (1 + 100 * r + c) with (keygen opened_table + Z.of_nat (Z.to_nat (100 * r + c)))
      by (change (keygen opened_table) with 1; lia).
    assert (Demo.imageMaps !! Z.to_nat (100 * r + c) =
              Some {| id := None; row := r; col := c; data := Demo.blank |}) as Hi.
    { rewrite demo_by_position, list_lookup_fmap.
      rewrite (lookup_seqZ_lt _ _ (Z.to_nat (100 * r + c))) by lia.
      simpl. f_equal. f_equal; [|].
      - rewrite Z2Nat.id by lia. symmetry. apply (Z.div_unique _ 100 r c); lia.
      - rewrite Z2Nat.id by lia. symmetry. apply (Z.mod_unique _ 100 r c); lia. }
    by rewrite (added_all_lookup_new _ _ _ _ Hi).
Qed.

(** ** What a committed upsert has written *)

Lemma setImageMap_each_written begin r tx tx' :
  consistent (tx_store tx) →
  setImageMap_each begin r tx = Next tt tx' →
  cell_written r (records (tx_store tx)) (records (tx_store tx')).
Proof.
  intros Hs Hrun.
  destruct (setImageMap_each_next _ _ _ _ Hs Hrun) as (s_mid & l & Hmid & Hadd & _).
  apply store_record_inr in Hadd as (k' & _ & Hfree & _ & Hrec & _).
  specialize (Hfree eq_refl). exists k'. rewrite Hrec.
  split; [by rewrite lookup_insert_eq|].
  destruct Hmid as [->|(kd & md & Hkd & Hr & Hc & ->)].
  - split; [by left|]. intros k Hk. left. by rewrite lookup_insert_ne.
  - simpl in *. split.
    + destruct (decide (k' = kd)) as [->|Hne].
      * right. by exists md.
      * left. by rewrite lookup_delete_ne in Hfree.
    + intros k Hk. rewrite lookup_insert_ne by done.
      destruct (decide (k = kd)) as [->|Hne].
      * right. rewrite lookup_delete_eq. split; [done|]. by exists md.
      * left. by rewrite lookup_delete_ne.
Qed.

Lemma setImageMap2_each_written begin r tx tx' :
  consistent (tx_store tx) →
  setImageMap2_each begin r tx = Next tt tx' →
  cell_written r (records (tx_store tx)) (records (tx_store tx')).
Proof.
  intros Hs. unfold setImageMap2_each, bind.
  rewrite lookup_same_cell_next by apply Hs.
  destruct (head _) as [m|] eqn:Hhead.
  - apply head_Some_elem_of, index_getAll_elem in Hhead as (km & Hkm & Hr & Hc).
    rewrite (key_at_id _ Hs _ _ Hkm).
    unfold put, write. simpl.
    destruct (store_put _ _) as [e|s1] eqn:Hput; [done|]. intros [= <-]. simpl.
    apply store_record_inr in Hput as (k' & Hk' & _ & _ & Hrec & _).
    destruct Hk' as [[= <-]|[[=] _]].
    exists km. rewrite Hrec. split; [by rewrite lookup_insert_eq|].
    split; [right; by exists m|].
    intros k Hk. left. by rewrite lookup_insert_ne.
  - unfold add, write. simpl.
    destruct (store_add _ _) as [e|s1] eqn:Hadd; [done|]. intros [= <-]. simpl.
    apply store_record_inr in Hadd as (k' & _ & Hfree & _ & Hrec & _).
    exists k'. rewrite Hrec. split; [by rewrite lookup_insert_eq|].
    split; [left; by apply Hfree|].
    intros k Hk. left. by rewrite lookup_insert_ne.
Qed.

Lemma and_id_inv found k :
  and_id found = Some k → ∃ m, found = Some m ∧ id m = Some k ∧ k ≠ 0.
Proof.
  unfold and_id. destruct found as [m|]; [|done]. cbn [mbind option_bind].
  destruct (id m) as [k0|] eqn:Hid; [|done]. cbn [mbind option_bind truthy].
  destruct (Z.eqb_spec k0 0); [done|]. intros [= <-]. by exists m.
Qed.

Lemma setImageMap3_then_written s0 r tx tx' :
  consistent s0 → cells_kept (records s0) (records (tx_store tx)) →
  setImageMap3_then (r, found_in s0 r) tx = Next tt tx' →
  cell_written r (records (tx_store tx)) (records (tx_store tx')) ∧
  cells_kept (records (tx_store tx)) (records (tx_store tx')).
Proof.
  intros Hs0 Hkept. unfold setImageMap3_then.
  destruct (and_id (found_in s0 r)) as [k|] eqn:Hand.
  - apply and_id_inv in Hand as (m & Hfound & Hid & _).
    apply head_Some_elem_of, index_getAll_elem in Hfound as (km & Hkm & Hr & Hc).
    rewrite (key_at_id _ Hs0 _ _ Hkm) in Hid. simplify_eq.
    destruct (Hkept _ _ Hkm) as (m' & Hm' & Hr' & Hc').
    unfold put, write.
    destruct (store_put _ _) as [e|s1] eqn:Hput; [done|]. intros [= <-]. simpl.
    apply store_record_inr in Hput as (k' & Hk' & _ & _ & Hrec & _).
    destruct Hk' as [[= <-]|[[=] _]]. rewrite Hrec. split.
    + exists k. split; [by rewrite lookup_insert_eq|].
      split; [right; exists m'; repeat split; congruence|].
      intros k0 Hk0. left. by rewrite lookup_insert_ne.
    + intros k0 m0 Hm0. destruct (decide (k0 = k)) as [->|Hne].
      * rewrite lookup_insert_eq. eexists. split; [done|].
        simplify_eq. split; simpl; congruence.
      * rewrite lookup_insert_ne by done. by exists m0.
  - unfold add, write.
    destruct (store_add _ _) as [e|s1] eqn:Hadd; [done|]. intros [= <-]. simpl.
    apply store_record_inr in Hadd as (k' & _ & Hfree & _ & Hrec & _).
    specialize (Hfree eq_refl). rewrite Hrec. split.
    + exists k'. split; [by rewrite lookup_insert_eq|]. split; [by left|].
      intros k Hk. left. by rewrite lookup_insert_ne.
    + intros k0 m0 Hm0. destruct (decide (k0 = k')) as [->|Hne]; [congruence|].
      rewrite lookup_insert_ne by done. by exists m0.
Qed.

Lemma cells_kept_refl rs : cells_kept rs rs.
Proof. intros k m Hm. by exists m. Qed.

Lemma cells_kept_trans rs0 rs1 rs2 :
  cells_kept rs0 rs1 → cells_kept rs1 rs2 → cells_kept rs0 rs2.
Proof.
  intros H01 H12 k m Hm. destruct (H01 _ _ Hm) as (m1 & Hm1 & Hr1 & Hc1).
  destruct (H12 _ _ Hm1) as (m2 & Hm2 & Hr2 & Hc2).
  exists m2. split; [done|]. split; congruence.
Qed.

Lemma for_of_written (body : ImageMap → M unit) xs tx tx' :
  (∀ r, preserves (body r)) →
  (∀ r tx tx', consistent (tx_store tx) → body r tx = Next tt tx' →
     cell_written r (records (tx_store tx)) (records (tx_store tx'))) →
  consistent (tx_store tx) →
  for_of xs body tx = Next tt tx' →
  batch_written xs (records (tx_store tx)) (records (tx_store tx')).
Proof.
  intros Hpres Hbody. revert tx. induction xs as [|r xs IH]; intros tx Hs.
  - simpl. unfold ret. by intros [= <-].
  - cbn [for_of]. unfold bind.
    destruct (body r tx) as [[] tx1| |] eqn:Hr; [|done..]. intros Hrest.
    exists (records (tx_store tx1)). split; [by eapply Hbody|].
    apply IH; [|done]. specialize (Hpres r tx Hs). by rewrite Hr in Hpres.
Qed.

Lemma for_of_then_written s0 xs tx tx' :
  consistent s0 → consistent (tx_store tx) →
  cells_kept (records s0) (records (tx_store tx)) →
  for_of xs (λ r, setImageMap3_then (r, found_in s0 r)) tx = Next tt tx' →
  batch_written xs (records (tx_store tx)) (records (tx_store tx')) ∧
  cells_kept (records (tx_store tx)) (records (tx_store tx')).
Proof.
  intros Hs0. revert tx. induction xs as [|r xs IH]; intros tx Hs Hkept.
  - simpl. unfold ret. intros [= <-]. split; [done|apply cells_kept_refl].
  - cbn [for_of]. unfold bind.
    destruct (setImageMap3_then _ tx) as [[] tx1| |] eqn:Hr; [|done..]. intros Hrest.
    destruct (setImageMap3_then_written _ _ _ _ Hs0 Hkept Hr) as [Hw Hk1].
    assert (consistent (tx_store tx1)) as Hs1.
    { pose proof (preserves_setImageMap3_then (r, found_in s0 r) tx Hs) as Hp.
      by rewrite Hr in Hp. }
    destruct (IH tx1 Hs1) as [Hws Hks]; [by eapply cells_kept_trans|done|].
    split; [|by eapply cells_kept_trans].
    exists (records (tx_store tx1)). by split.
Qed.

(** A committed call has written its batch, record after record. *)
Lemma upsert_written begin tx u reqs s' :
  begin IMAGE_MAP readwrite = inr tx → consistent (tx_store tx) →
  finish (upsert begin u) = (reqs, Committed s') →
  batch_written (batch_of u) (records (tx_store tx)) (records s').
Proof.
  intros Hbegin Hs. destruct u as [b|b|b]; simpl.
  - intros (tx0 & tx' & Hbegin' & Hrun & _ & ->)%finish_committed.
    rewrite Hbegin in Hbegin'. simplify_eq.
    eapply for_of_written; [apply preserves_setImageMap_each| |done..].
    intros. by eapply setImageMap_each_written.
  - intros (tx0 & tx' & Hbegin' & Hrun & _ & ->)%finish_committed.
    rewrite Hbegin in Hbegin'. simplify_eq.
    eapply for_of_written; [apply preserves_setImageMap2_each| |done..].
    intros. by eapply setImageMap2_each_written.
  - rewrite (setImageMap3_body begin tx) by (done || apply Hs).
    destruct (for_of _ _ _) as [[] tx'| |] eqn:Hrun; [|done..].
    rewrite finish_Next. intros [= <- <-].
    by apply (for_of_then_written (tx_store tx)) in Hrun as [Hw _];
      [|done|done|apply cells_kept_refl].
Qed.

Lemma batch_written_app xs ys rs rs' :
  batch_written (xs ++ ys) rs rs' ↔
  ∃ rs1, batch_written xs rs rs1 ∧ batch_written ys rs1 rs'.
Proof.
  revert rs. induction xs as [|x xs IH]; intros rs; simpl.
  - split; [intros H; by exists rs|]. by intros (rs1 & -> & H).
  - split.
    + intros (rs1 & Hx & (rs2 & Hxs & Hys)%IH). exists rs2. split; [|done].
      by exists rs1.
    + intros (rs2 & (rs1 & Hx & Hxs) & Hys). exists rs1. split; [done|].
      apply IH. by exists rs2.
Qed.

Lemma cell_written_frame r rs rs' k v :
  cell_written r rs rs' → rs !! k = Some v → ¬ same_cell v r → rs' !! k = Some v.
Proof.
  intros (k' & _ & Hk' & Hothers) Hv Hcell.
  destruct (decide (k = k')) as [->|Hne].
  - destruct Hk' as [?|(m & ? & ?)]; by simplify_eq.
  - destruct (Hothers k Hne) as [->|(_ & m & ? & ?)]; [done|]. by simplify_eq.
Qed.

Lemma batch_written_frame xs rs rs' k v :
  batch_written xs rs rs' → rs !! k = Some v →
  Forall (λ r, ¬ same_cell v r) xs → rs' !! k = Some v.
Proof.
  revert rs. induction xs as [|r xs IH]; intros rs; simpl.
  - by intros ->.
  - intros (rs1 & Hr & Hxs) Hv [Hcell Hcells]%Forall_cons.
    eapply IH; [done| |done]. by eapply cell_written_frame.
Qed.

Lemma batch_written_last pre r post rs rs' :
  batch_written (pre ++ r :: post) rs rs' →
  Forall (λ r2, ¬ same_cell r2 r) post →
  ∃ k, rs' !! k = Some (with_id (Some k) r).
Proof.
  intros (rs1 & _ & (rs2 & (k & Hk & _) & Hpost))%batch_written_app Hcells.
  exists k. eapply batch_written_frame; [done..|].
  eapply Forall_impl; [done|]. intros r2 Hne [Hr Hc]. apply Hne.
  simpl in Hr, Hc. by split.
Qed.

Lemma batch_written_only xs rs rs' k v :
  batch_written xs rs rs' → rs' !! k = Some v →
  rs !! k = Some v ∨ ∃ r, r ∈ xs ∧ v = with_id (Some k) r.
Proof.
  revert rs. induction xs as [|r xs IH]; intros rs; simpl.
  - intros ->. by left.
  - intros (rs1 & (k' & Hk' & _ & Hothers) & Hxs) Hv.
    destruct (IH _ Hxs Hv) as [Hv1|(r2 & Hr2 & ->)].
    + destruct (decide (k = k')) as [->|Hne].
      * right. exists r. split; [left|]. congruence.
      * destruct (Hothers k Hne) as [<-|[? _]]; [by left|congruence].
    + right. exists r2. split; [by right|done].
Qed.

Lemma upsert_consistent begin tx u reqs s' :
  begin IMAGE_MAP readwrite = inr tx → consistent (tx_store tx) →
  finish (upsert begin u) = (reqs, Committed s') → consistent s'.
Proof.
  destruct u as [b|b|b]; simpl;
    eauto using setImageMap_consistent, setImageMap2_consistent,
      setImageMap3_consistent.
Qed.

Lemma getImageMaps_numbers begin r c tx :
  indexes (tx_store tx) !! "idx_row_col" = Some idx_row_col →
  getImageMaps begin {| q_row := JNumber r; q_col := JNumber c |}
               {| transaction := Some tx |} =
    InTx (Next (index_getAll idx_row_col [r; c] (tx_store tx))
               (executed (GetAll "idx_row_col" [r; c]) (tx_store tx) tx)).
Proof.
  intros Hix. unfold getImageMaps. simpl. unfold index_getAll_only. by rewrite Hix.
Qed.

(** X3.  The last record given for a cell wins.  Whichever entry point
    is called on a consistent table: if the call commits, and [r] is a
    record of the batch after which no record of the batch names the cell
    of [r], then [getImageMaps] for that cell, in a transaction on the
    committed table, returns exactly one record, and it has the row, the
    column and the data of [r]. *)
Theorem upsert_then_getImageMaps begin tx u pre r post reqs s' tx2 :
  begin IMAGE_MAP readwrite = inr tx → consistent (tx_store tx) →
  batch_of u = pre ++ r :: post →
  Forall (λ r2, ¬ same_cell r2 r) post →
  finish (upsert begin u) = (reqs, Committed s') →
  tx_store tx2 = s' →
  ∃ k,
    getImageMaps begin {| q_row := JNumber (row r); q_col := JNumber (col r) |}
                 {| transaction := Some tx2 |} =
      InTx (Next [with_id (Some k) r] (executed (lookup_of r) s' tx2)).
Proof.
  intros Hbegin Hs Hbatch Hpost Hcommit <-.
  pose proof (upsert_consistent _ _ _ _ _ Hbegin Hs Hcommit) as Hs'.
  pose proof (upsert_written _ _ _ _ _ Hbegin Hs Hcommit) as Hw.
  rewrite Hbatch in Hw. apply batch_written_last in Hw as [k Hk]; [|done].
  exists k. rewrite getImageMaps_numbers by apply Hs'.
  by erewrite index_getAll_found; [|apply Hs'|done..].
Qed.

Lemma upsert_then_getImageMaps_witness :
  let table :=
    {| records := ∅; keygen := 1; indexes := {["idx_row_col" := idx_row_col]} |} in
  let a := {| id := None; row := 0; col := 0; data := [Byte.x01] |} in
  let b := {| id := None; row := 0; col := 1; data := [Byte.x02] |} in
  let c := {| id := None; row := 0; col := 0; data := [Byte.x03] |} in
  let s' :=
    {| records := {[2 := with_id (Some 2) b; 3 := with_id (Some 3) c]}; keygen := 4;
       indexes := {["idx_row_col" := idx_row_col]} |} in
  let tx2 := {| tx_db := 0; tx_store := s'; tx_requests := [] |} in
  (finish (setImageMap (session 0 table) (inr [a; b; c]))).2 = Committed s' ∧
  ∃ k,
    getImageMaps (session 0 table) {| q_row := JNumber 0; q_col := JNumber 0 |}
                 {| transaction := Some tx2 |} =
      InTx (Next [with_id (Some k) c] (executed (lookup_of c) s' tx2)).
Proof.
  intros table a b c s' tx2. split; [vm_compute; reflexivity|].
  apply (upsert_then_getImageMaps (session 0 table)
           {| tx_db := 0; tx_store := table; tx_requests := [] |}
           (BySetImageMap (inr [a; b; c])) [a; b] c []
           (finish (setImageMap (session 0 table) (inr [a; b; c]))).1 s' tx2).
  - reflexivity.
  - apply empty_store_with_index_consistent.
  - reflexivity.
  - constructor.
  - vm_compute. reflexivity.
  - reflexivity.
Defined.

(** X4.  An upsert leaves the other cells alone.  Whichever entry point
    is called on a consistent table: if the call commits, a record [v]
    that the table held under the key [k], in a cell that no record of
    the batch names, is still there under [k], unchanged, and is what the
    index returns for its cell. *)
Theorem upsert_leaves_other_cells begin tx u reqs s' k v :
  begin IMAGE_MAP readwrite = inr tx → consistent (tx_store tx) →
  finish (upsert begin u) = (reqs, Committed s') →
  records (tx_store tx) !! k = Some v →
  Forall (λ r, ¬ same_cell v r) (batch_of u) →
  records s' !! k = Some v ∧
  index_getAll idx_row_col [row v; col v] s' = [v].
Proof.
  intros Hbegin Hs Hcommit Hv Hcells.
  pose proof (upsert_consistent _ _ _ _ _ Hbegin Hs Hcommit) as Hs'.
  pose proof (upsert_written _ _ _ _ _ Hbegin Hs Hcommit) as Hw.
  assert (records s' !! k = Some v) as Hv' by by eapply batch_written_frame.
  split; [done|]. by eapply index_getAll_found; [apply Hs'|..].
Qed.

Lemma upsert_leaves_other_cells_witness :
  let m := {| id := Some 1; row := 0; col := 0; data := [Byte.x01] |} in
  let b := {| id := None; row := 0; col := 1; data := [Byte.x02] |} in
  let table :=
    {| records := {[1 := m]}; keygen := 2;
       indexes := {["idx_row_col" := idx_row_col]} |} in
  let s' :=
    {| records := {[1 := m; 2 := with_id (Some 2) b]}; keygen := 3;
       indexes := {["idx_row_col" := idx_row_col]} |} in
  (finish (setImageMap3 (session 0 table) (inr [b]))).2 = Committed s' ∧
  records s' !! 1 = Some m ∧ index_getAll idx_row_col [0; 0] s' = [m].
Proof.
  intros m b table s'. split; [vm_compute; reflexivity|].
  apply (upsert_leaves_other_cells (session 0 table)
           {| tx_db := 0; tx_store := table; tx_requests := [] |}
           (BySetImageMap3 (inr [b]))
           (finish (setImageMap3 (session 0 table) (inr [b]))).1 s' 1 m).
  - reflexivity.
  - apply table_of_one_consistent.
  - vm_compute. reflexivity.
  - reflexivity.
  - repeat constructor. intros [_ Hc]. discriminate Hc.
Defined.

(** X5.  An upsert stores nothing but its batch.  Whichever entry point
    is called on a consistent table: if the call commits, every record of
    the table afterwards was there before, under the same key and
    unchanged, or is a record of the batch with its key as its id. *)
Theorem upsert_stores_only_batch begin tx u reqs s' k v :
  begin IMAGE_MAP readwrite = inr tx → consistent (tx_store tx) →
  finish (upsert begin u) = (reqs, Committed s') →
  records s' !! k = Some v →
  records (tx_store tx) !! k = Some v ∨
  ∃ r, r ∈ batch_of u ∧ v = with_id (Some k) r.
Proof.
  intros Hbegin Hs Hcommit Hv.
  pose proof (upsert_written _ _ _ _ _ Hbegin Hs Hcommit) as Hw.
  by eapply batch_written_only.
Qed.

Lemma upsert_stores_only_batch_witness :
  let m := {| id := Some 1; row := 0; col := 0; data := [Byte.x01] |} in
  let b := {| id := None; row := 0; col := 1; data := [Byte.x02] |} in
  let table :=
    {| records := {[1 := m]}; keygen := 2;
       indexes := {["idx_row_col" := idx_row_col]} |} in
  let s' :=
    {| records := {[1 := m; 2 := with_id (Some 2) b]}; keygen := 3;
       indexes := {["idx_row_col" := idx_row_col]} |} in
  (finish (setImageMap2 (session 0 table) (inr [b]))).2 = Committed s' ∧
  (records table !! 2 = Some (with_id (Some 2) b) ∨
   ∃ r, r ∈ [b] ∧ with_id (Some 2) b = with_id (Some 2) r).
Proof.
  intros m b table s'. split; [vm_compute; reflexivity|].
  apply (upsert_stores_only_batch (session 0 table)
           {| tx_db := 0; tx_store := table; tx_requests := [] |}
           (BySetImageMap2 (inr [b]))
           (finish (setImageMap2 (session 0 table) (inr [b]))).1 s' 2
           (with_id (Some 2) b)).
  - reflexivity.
  - apply table_of_one_consistent.
  - vm_compute. reflexivity.
  - reflexivity.
Defined.

(** ** Replace, and the id 0 *)

Lemma bump_keygen_held s k m :
  consistent s → records s !! k = Some m → bump_keygen k (keygen s) = keygen s.
Proof.
  intros Hs Hm. unfold bump_keygen. cbv zeta.
  destruct (Z.leb_spec (keygen s) (Z.min k KEY_MAX)) as [Hle|]; [|done].
  assert (keygen s ≤ KEY_MAX) as Hmax by lia.
  pose proof (keygen_past _ Hs Hmax _ _ Hm). lia.
Qed.

(** X6.  Replace keeps the id.  On a consistent table whose only index
    is [idx_row_col] and that holds a record [m] under the key [k] in the
    cell of [r]: [setImageMap2] on [r] places the lookup and a put of [r]
    with the id [k], and commits; the table differs from the old one at
    the key [k] alone, which now holds [r] with the id [k], whatever id
    [r] carried.  [setImageMap3] does the same when [k] is not 0. *)
Theorem replace_keeps_id begin tx r m k :
  begin IMAGE_MAP readwrite = inr tx →
  consistent (tx_store tx) → sole_index (tx_store tx) →
  records (tx_store tx) !! k = Some m → same_cell m r →
  let replaced :=
    (tx_requests tx ++ [lookup_of r; Put (with_id (Some k) r)],
     Committed {| records := <[k := with_id (Some k) r]> (records (tx_store tx));
                  keygen := keygen (tx_store tx);
                  indexes := indexes (tx_store tx) |}) in
  finish (setImageMap2 begin (inl r)) = replaced ∧
  (k ≠ 0 → finish (setImageMap3 begin (inl r)) = replaced).
Proof.
  intros Hbegin Hs Hsole Hm [Hr Hc]. cbv zeta.
  rewrite <- (bump_keygen_held _ _ _ Hs Hm). split.
  - rewrite (setImageMap2_one begin tx) by done.
    by rewrite (setImageMap2_each_found begin r tx m k).
  - intros Hk. rewrite (setImageMap3_one begin tx r m k) by done.
    unfold bind. rewrite (setImageMap3_then_found r _ m k) by done.
    unfold ret. simpl. by rewrite <- app_assoc.
Qed.

Lemma replace_keeps_id_witness :
  let m := {| id := Some 1; row := 0; col := 0; data := [Byte.x01] |} in
  let r := {| id := None; row := 0; col := 0; data := [Byte.x02] |} in
  let table :=
    {| records := {[1 := m]}; keygen := 2;
       indexes := {["idx_row_col" := idx_row_col]} |} in
  let replaced :=
    ([lookup_of r; Put (with_id (Some 1) r)],
     Committed {| records := <[1 := with_id (Some 1) r]> {[1 := m]};
                  keygen := 2;
                  indexes := {["idx_row_col" := idx_row_col]} |}) in
  finish (setImageMap2 (session 0 table) (inl r)) = replaced ∧
  finish (setImageMap3 (session 0 table) (inl r)) = replaced.
Proof.
  intros m r table replaced.
  destruct (replace_keeps_id (session 0 table)
              {| tx_db := 0; tx_store := table; tx_requests := [] |} r m 1)
    as [H2 H3].
  - reflexivity.
  - apply table_of_one_consistent.
  - reflexivity.
  - reflexivity.
  - by split.
  - split; [exact H2|]. apply H3. discriminate.
Defined.

Lemma setImageMap2_each_kept begin r tx tx' :
  consistent (tx_store tx) →
  setImageMap2_each begin r tx = Next tt tx' →
  cells_kept (records (tx_store tx)) (records (tx_store tx')).
Proof.
  intros Hs. unfold setImageMap2_each, bind.
  rewrite lookup_same_cell_next by apply Hs.
  destruct (head _) as [m|] eqn:Hhead.
  - apply head_Some_elem_of, index_getAll_elem in Hhead as (km & Hkm & Hr & Hc).
    rewrite (key_at_id _ Hs _ _ Hkm).
    unfold put, write. simpl.
    destruct (store_put _ _) as [e|s1] eqn:Hput; [done|]. intros [= <-]. simpl.
    apply store_record_inr in Hput as (k' & Hk' & _ & _ & Hrec & _).
    destruct Hk' as [[= <-]|[[=] _]]. rewrite Hrec.
    intros k0 m0 Hm0. destruct (decide (k0 = km)) as [->|Hne].
    + rewrite lookup_insert_eq. eexists. split; [done|].
      simplify_eq. split; simpl; congruence.
    + rewrite lookup_insert_ne by done. by exists m0.
  - unfold add, write. simpl.
    destruct (store_add _ _) as [e|s1] eqn:Hadd; [done|]. intros [= <-]. simpl.
    apply store_record_inr in Hadd as (k' & _ & Hfree & _ & Hrec & _).
    specialize (Hfree eq_refl). rewrite Hrec.
    intros k0 m0 Hm0. destruct (decide (k0 = k')) as [->|Hne]; [congruence|].
    rewrite lookup_insert_ne by done. by exists m0.
Qed.

Lemma for_of_each2_kept begin xs tx tx' :
  consistent (tx_store tx) →
  for_of xs (setImageMap2_each begin) tx = Next tt tx' →
  cells_kept (records (tx_store tx)) (records (tx_store tx')).
Proof.
  revert tx. induction xs as [|r xs IH]; intros tx Hs.
  - simpl. unfold ret. intros [= <-]. apply cells_kept_refl.
  - cbn [for_of]. unfold bind.
    destruct (setImageMap2_each begin r tx) as [[] tx1| |] eqn:Hr; [|done..].
    intros Hrest. eapply cells_kept_trans; [by eapply setImageMap2_each_kept|].
    apply IH; [|done].
    pose proof (preserves_setImageMap2_each begin r tx Hs) as Hp. by rewrite Hr in Hp.
Qed.

(** X7.  [setImageMap2] and [setImageMap3] never lose an id: if the call
    commits on a consistent table, every key [k] that held a record still
    holds one, with the id [k] and in the same cell as before (the data
    may be that of the batch). *)
Theorem replacing_upserts_keep_ids begin tx imageMaps reqs s' k m :
  begin IMAGE_MAP readwrite = inr tx → consistent (tx_store tx) →
  finish (setImageMap2 begin imageMaps) = (reqs, Committed s') ∨
  finish (setImageMap3 begin imageMaps) = (reqs, Committed s') →
  records (tx_store tx) !! k = Some m →
  ∃ m', records s' !! k = Some m' ∧ id m' = Some k ∧
        row m' = row m ∧ col m' = col m.
Proof.
  intros Hbegin Hs Hcommit Hm.
  assert (consistent s') as Hs'.
  { destruct Hcommit as [H|H];
      eauto using setImageMap2_consistent, setImageMap3_consistent. }
  assert (cells_kept (records (tx_store tx)) (records s')) as Hkept.
  { destruct Hcommit as [H|H].
    - apply finish_committed in H as (tx0 & tx' & Hbegin' & Hrun & _ & ->).
      rewrite Hbegin in Hbegin'. simplify_eq. by eapply for_of_each2_kept.
    - rewrite (setImageMap3_body begin tx) in H by (done || apply Hs).
      destruct (for_of _ _ _) as [[] tx'| |] eqn:Hrun; [|done..].
      rewrite finish_Next in H. injection H as <- <-.
      by apply (for_of_then_written (tx_store tx)) in Hrun as [_ ?];
        [|done|done|apply cells_kept_refl]. }
  destruct (Hkept k m Hm) as (m' & Hm' & Hr & Hc).
  exists m'. split; [done|]. split; [by apply (key_at_id _ Hs')|done].
Qed.

Lemma replacing_upserts_keep_ids_witness :
  let m := {| id := Some 1; row := 0; col := 0; data := [Byte.x01] |} in
  let r := {| id := None; row := 0; col := 0; data := [Byte.x02] |} in
  let b := {| id := None; row := 0; col := 1; data := [Byte.x03] |} in
  let table :=
    {| records := {[1 := m]}; keygen := 2;
       indexes := {["idx_row_col" := idx_row_col]} |} in
  let s' :=
    {| records := {[1 := with_id (Some 1) r; 2 := with_id (Some 2) b]}; keygen := 3;
       indexes := {["idx_row_col" := idx_row_col]} |} in
  (finish (setImageMap3 (session 0 table) (inr [b; r]))).2 = Committed s' ∧
  ∃ m', records s' !! 1 = Some m' ∧ id m' = Some 1 ∧ row m' = 0 ∧ col m' = 0.
Proof.
  intros m r b table s'. split; [vm_compute; reflexivity|].
  apply (replacing_upserts_keep_ids (session 0 table)
           {| tx_db := 0; tx_store := table; tx_requests := [] |} (inr [b; r])
           (finish (setImageMap3 (session 0 table) (inr [b; r]))).1 s' 1 m).
  - reflexivity.
  - apply table_of_one_consistent.
  - right. vm_compute. reflexivity.
  - reflexivity.
Defined.

(** X8.  [setImageMap] on a cell that is held under the id 0: the test
    [_imageMap && _imageMap.id] fails for the id 0, so nothing is
    deleted; the add is refused by the unique index and the transaction
    is rolled back with a ConstraintError, after the lookup and the add
    and nothing else. *)
Theorem setImageMap_zero_id_aborts begin tx r m :
  begin IMAGE_MAP readwrite = inr tx →
  consistent (tx_store tx) →
  records (tx_store tx) !! 0 = Some m → same_cell m r →
  finish (setImageMap begin (inl r)) =
    (tx_requests tx ++ [lookup_of r; Add r], Aborted ConstraintError).
Proof.
  intros Hbegin Hs Hm [Hr Hc]. unfold setImageMap, begin_readwrite.
  rewrite Hbegin. cbn [as_array]. rewrite for_of_singleton.
  unfold setImageMap_each, bind. rewrite lookup_same_cell_next by apply Hs.
  rewrite (index_getAll_found _ _ _ 0 m) by (done || apply Hs).
  cbn [head]. rewrite and_id_zero by by apply (key_at_id _ Hs).
  unfold ret at 1. unfold add, write. cbn [tx_store executed].
  rewrite (store_add_cell_taken _ 0 m) by done.
  simpl. by rewrite <- app_assoc.
Qed.

Lemma setImageMap_zero_id_aborts_witness :
  let m := {| id := Some 0; row := 0; col := 0; data := [Byte.x01] |} in
  let r := {| id := None; row := 0; col := 0; data := [Byte.x02] |} in
  let table :=
    {| records := {[0 := m]}; keygen := 1;
       indexes := {["idx_row_col" := idx_row_col]} |} in
  finish (setImageMap (session 0 table) (inl r)) =
    ([lookup_of r; Add r], Aborted ConstraintError).
Proof.
  intros m r table.
  apply (setImageMap_zero_id_aborts (session 0 table)
           {| tx_db := 0; tx_store := table; tx_requests := [] |} r m).
  - reflexivity.
  - apply table_of_zero_consistent.
  - reflexivity.
  - by split.
Defined.

(** ** A free cell named twice in a batch *)

Lemma for_of_middle {A} (xs : list A) y ys (body : A → M unit) tx tx' :
  for_of (xs ++ y :: ys) body tx = Next tt tx' →
  ∃ ta tb, for_of xs body tx = Next tt ta ∧ body y ta = Next tt tb ∧
           for_of ys body tb = Next tt tx'.
Proof.
  rewrite for_of_app. unfold bind at 1.
  destruct (for_of xs body tx) as [[] ta| |]; [|done..].
  cbn [for_of]. unfold bind at 1.
  destruct (body y ta) as [[] tb| |] eqn:Hy; [|done..].
  intros Hys. by exists ta, tb.
Qed.

Lemma store_record_inl no_overwrite v s e :
  store_record no_overwrite v s = inl e → e = ConstraintError.
Proof.
  unfold store_record. intros H.
  repeat (case_match; simplify_eq); done.
Qed.

Lemma setImageMap3_then_outcome task tx :
  (∃ tx', setImageMap3_then task tx = Next tt tx') ∨
  (∃ tx', setImageMap3_then task tx = Fail ConstraintError tx').
Proof.
  destruct task as [r found]. unfold setImageMap3_then.
  destruct (and_id found) as [k|]; unfold put, add, write.
  - destruct (store_put _ _) as [e|s1] eqn:H; [|left; by eexists].
    apply store_record_inl in H as ->. right. by eexists.
  - destruct (store_add _ _) as [e|s1] eqn:H; [|left; by eexists].
    apply store_record_inl in H as ->. right. by eexists.
Qed.

Lemma for_of_then_outcome tasks tx :
  (∃ tx', for_of tasks setImageMap3_then tx = Next tt tx') ∨
  (∃ tx', for_of tasks setImageMap3_then tx = Fail ConstraintError tx').
Proof.
  revert tx. induction tasks as [|task tasks IH]; intros tx.
  - left. by eexists.
  - cbn [for_of]. unfold bind.
    destruct (setImageMap3_then_outcome task tx) as [[tx1 ->]|[tx1 ->]].
    + apply IH.
    + right. by eexists.
Qed.

(** X9.  [setImageMap3] cannot take a batch that names a free cell twice:
    both lookups are answered from the table as it was, so both records
    are added, and the second add is refused.  On a consistent table, for
    a batch with two records of one cell that is free in the table, the
    call ends with the transaction rolled back by a ConstraintError,
    whatever else the batch holds. *)
Theorem setImageMap3_new_cell_twice begin tx pre r1 mid r2 post :
  begin IMAGE_MAP readwrite = inr tx →
  consistent (tx_store tx) →
  cell_free r1 (tx_store tx) → same_cell r2 r1 →
  ∃ reqs,
    finish (setImageMap3 begin (inr (pre ++ r1 :: mid ++ r2 :: post))) =
      (reqs, Aborted ConstraintError).
Proof.
  intros Hbegin Hs Hfree [Hr Hc].
  rewrite (setImageMap3_body begin tx) by (done || apply Hs).
  cbn [as_array].
  set (tx1 := {| tx_db := tx_db tx; tx_store := tx_store tx; tx_requests := _ |}).
  set (body := λ r, setImageMap3_then (r, found_in (tx_store tx) r)).
  assert ((∃ tx', for_of (pre ++ r1 :: mid ++ r2 :: post) body tx1 = Next tt tx') ∨
          (∃ tx', for_of (pre ++ r1 :: mid ++ r2 :: post) body tx1 =
                    Fail ConstraintError tx')) as [[tx' Hrun]|[tx' ->]].
  { unfold body. rewrite <- (for_of_fmap (λ r, (r, found_in (tx_store tx) r))).
    apply for_of_then_outcome. }
  2: { by eexists. }
  exfalso.
  apply for_of_middle in Hrun as (ta & tb & Hpre & Hr1 & Hrest).
  apply for_of_middle in Hrest as (tc & td & Hmid & Hr2 & _).
  assert (consistent (tx_store ta) ∧
          cells_kept (records (tx_store tx)) (records (tx_store ta))) as [Hsa Hka].
  { split.
    - pose proof (preserves_for_of pre body
        (λ r, preserves_setImageMap3_then (r, _)) tx1 Hs) as Hp.
      by rewrite Hpre in Hp.
    - by apply (for_of_then_written (tx_store tx)) in Hpre as [_ ?];
        [|done|done|apply cells_kept_refl]. }
  destruct (setImageMap3_then_written _ _ _ _ Hs Hka Hr1) as [(k1 & Hk1 & _) Hkb].
  assert (consistent (tx_store tb)) as Hsb.
  { pose proof (preserves_setImageMap3_then (r1, found_in (tx_store tx) r1) ta Hsa) as Hp.
    unfold body in Hr1. by rewrite Hr1 in Hp. }
  assert (consistent (tx_store tc) ∧
          cells_kept (records (tx_store tb)) (records (tx_store tc))) as [Hsc Hkc].
  { split.
    - pose proof (preserves_for_of mid body
        (λ r, preserves_setImageMap3_then (r, _)) tb Hsb) as Hp.
      by rewrite Hmid in Hp.
    - apply (for_of_then_written (tx_store tx)) in Hmid as [_ ?]; [done..|].
      by eapply cells_kept_trans. }
  destruct (Hkc _ _ Hk1) as (m' & Hm' & Hr' & Hc'). simpl in Hr', Hc'.
  unfold body in Hr2. rewrite (found_in_free _ r2) in Hr2.
  - unfold setImageMap3_then in Hr2. cbn [and_id mbind option_bind] in Hr2.
    unfold add, write in Hr2.
    rewrite (store_add_cell_taken _ k1 m') in Hr2 by (done || congruence). done.
  - intros k v Hv [Hvr Hvc]. apply (Hfree k v Hv). split; congruence.
Qed.

Lemma setImageMap3_new_cell_twice_witness :
  let table :=
    {| records := ∅; keygen := 1; indexes := {["idx_row_col" := idx_row_col]} |} in
  let a := {| id := None; row := 0; col := 0; data := [Byte.x01] |} in
  let b := {| id := None; row := 0; col := 1; data := [Byte.x02] |} in
  let c := {| id := None; row := 0; col := 0; data := [Byte.x03] |} in
  ∃ reqs,
    finish (setImageMap3 (session 0 table) (inr ([] ++ a :: [b] ++ c :: []))) =
      (reqs, Aborted ConstraintError).
Proof.
  intros table a b c.
  apply (setImageMap3_new_cell_twice (session 0 table)
           {| tx_db := 0; tx_store := table; tx_requests := [] |} [] a [b] c []).
  - reflexivity.
  - apply empty_store_with_index_consistent.
  - apply cell_free_empty.
  - by split.
Defined.

(** X10.  [setImageMap] and [setImageMap2] take a batch that names a free
    cell twice, and the second record wins.  For two records without ids
    of one free cell, on a consistent table whose only index is
    [idx_row_col] and whose key generator [k] is positive with two keys
    left: [setImageMap2] adds the first and puts the second over it, so
    the cell ends under the key [k]; [setImageMap] adds the first, deletes
    it and adds the second, so the cell ends under the key [k + 1] and
    the key [k] is spent. *)
Theorem setImageMap_new_cell_twice begin tx r1 r2 :
  begin IMAGE_MAP readwrite = inr tx →
  consistent (tx_store tx) → sole_index (tx_store tx) →
  cell_free r1 (tx_store tx) → same_cell r2 r1 →
  id r1 = None → id r2 = None →
  0 < keygen (tx_store tx) → keygen (tx_store tx) + 1 ≤ KEY_MAX →
  let s := tx_store tx in
  let k := keygen s in
  finish (setImageMap2 begin (inr [r1; r2])) =
    (tx_requests tx ++ [lookup_of r1; Add r1; lookup_of r2; Put (with_id (Some k) r2)],
     Committed {| records := <[k := with_id (Some k) r2]> (records s);
                  keygen := k + 1;
                  indexes := indexes s |}) ∧
  finish (setImageMap begin (inr [r1; r2])) =
    (tx_requests tx ++ [lookup_of r1; Add r1; lookup_of r2; Delete k; Add r2],
     Committed {| records := <[k + 1 := with_id (Some (k + 1)) r2]> (records s);
                  keygen := k + 2;
                  indexes := indexes s |}).
Proof.
  intros Hbegin Hs Hsole Hfree [Hr Hc] Hid1 Hid2 Hpos Hmax. cbv zeta.
  assert (keygen (tx_store tx) ≤ KEY_MAX) as Hkey by lia.
  assert (records (tx_store tx) !! keygen (tx_store tx) = None) as Hnone.
  { destruct (records (tx_store tx) !! keygen (tx_store tx)) as [v|] eqn:Hv; [|done].
    pose proof (keygen_past _ Hs Hkey _ _ Hv). lia. }
  set (tx1 := {| tx_db := tx_db tx; tx_store := added r1 (tx_store tx);
                 tx_requests := tx_requests tx ++ [lookup_of r1; Add r1] |}).
  assert (consistent (tx_store tx1)) as Hs1 by by apply added_consistent.
  assert (records (tx_store tx1) !! keygen (tx_store tx) =
            Some (with_id (Some (keygen (tx_store tx))) r1)) as Hk1
    by apply lookup_insert_eq.
  split.
  - unfold setImageMap2, begin_readwrite. rewrite Hbegin. cbn [as_array for_of].
    unfold bind at 1. rewrite setImageMap2_each_free by done. fold tx1.
    unfold bind at 1.
    rewrite (setImageMap2_each_found begin r2 tx1 _ _ Hs1 Hsole Hk1) by done.
    unfold ret. simpl. rewrite insert_insert_eq, <- app_assoc. simpl.
    do 3 f_equal. unfold bump_keygen.
    rewrite Z.min_l by lia. destruct (Z.leb_spec (keygen (tx_store tx) + 1) (keygen (tx_store tx))); [lia|done].
  - unfold setImageMap, begin_readwrite. rewrite Hbegin. cbn [as_array for_of].
    unfold bind at 1. rewrite setImageMap_each_free by done. fold tx1.
    unfold bind at 1. unfold setImageMap_each, bind.
    rewrite lookup_same_cell_next by apply Hs1.
    rewrite (index_getAll_found _ _ _ _ _ (index_holds _ Hs1) Hk1) by done.
    cbn [head]. rewrite (and_id_Some _ (keygen (tx_store tx))) by (done || lia).
    unfold delete at 1, write at 1.
    set (tx2 := executed (Delete _) _ _).
    assert (records (tx_store tx2) = records (tx_store tx)) as Hrec2.
    { simpl. by rewrite delete_insert_id. }
    assert (keygen (tx_store tx2) = keygen (tx_store tx) + 1) as Hkg2 by done.
    rewrite add_free.
    + unfold ret. rewrite finish_Next. f_equal.
      * simpl. by rewrite <- !app_assoc.
      * cbn [tx_store executed]. fold (tx_store tx2). unfold added.
        rewrite Hrec2, Hkg2. do 2 f_equal. lia.
    + apply store_delete_consistent. by apply store_record_consistent with true r1 (tx_store tx), store_add_free.
    + done.
    + done.
    + simpl. lia.
    + intros k0 v. rewrite Hrec2. intros Hv [Hvr Hvc].
      apply (Hfree k0 v Hv). split; congruence.
Qed.

Lemma setImageMap_new_cell_twice_witness :
  let table :=
    {| records := ∅; keygen := 1; indexes := {["idx_row_col" := idx_row_col]} |} in
  let a := {| id := None; row := 0; col := 0; data := [Byte.x01] |} in
  let c := {| id := None; row := 0; col := 0; data := [Byte.x03] |} in
  finish (setImageMap2 (session 0 table) (inr [a; c])) =
    ([lookup_of a; Add a; lookup_of c; Put (with_id (Some 1) c)],
     Committed {| records := <[1 := with_id (Some 1) c]> ∅; keygen := 1 + 1;
                  indexes := {["idx_row_col" := idx_row_col]} |}) ∧
  finish (setImageMap (session 0 table) (inr [a; c])) =
    ([lookup_of a; Add a; lookup_of c; Delete 1; Add c],
     Committed {| records := <[1 + 1 := with_id (Some (1 + 1)) c]> ∅; keygen := 1 + 2;
                  indexes := {["idx_row_col" := idx_row_col]} |}).
Proof.
  intros table a c.
  apply (setImageMap_new_cell_twice (session 0 table)
           {| tx_db := 0; tx_store := table; tx_requests := [] |} a c).
  - reflexivity.
  - apply empty_store_with_index_consistent.
  - reflexivity.
  - apply cell_free_empty.
  - by split.
  - reflexivity.
  - reflexivity.
  - reflexivity.
  - vm_compute. discriminate.
Defined.

(** ** The requests that the upserts place *)

Lemma places_ret P {A} (a : A) : places P (ret a).
Proof. intros tx. exists []. simpl. by rewrite app_nil_r. Qed.

Lemma places_bind P {A B} (c : M A) (k : A → M B) :
  places P c → (∀ a, places P (k a)) → places P (bind c k).
Proof.
  intros Hc Hk tx. unfold bind. destruct (Hc tx) as (placed1 & Hreq1 & HP1).
  destruct (c tx) as [a tx1|e tx1|e tx1]; simpl in *.
  - destruct (Hk a tx1) as (placed2 & Hreq2 & HP2).
    exists (placed1 ++ placed2). rewrite Hreq2, Hreq1, app_assoc.
    split; [done|]. by apply Forall_app.
  - by exists placed1.
  - by exists placed1.
Qed.

Lemma places_for_of P {A} (xs : list A) (body : A → M unit) :
  (∀ x, places P (body x)) → places P (for_of xs body).
Proof.
  intros Hbody. induction xs as [|x xs IH]; simpl.
  - apply places_ret.
  - apply places_bind; [done|]. by intros [].
Qed.

Lemma places_map_requests P {A B} (f : A → M B) (xs : list A) :
  (∀ x, places P (f x)) → places P (map_requests f xs).
Proof.
  intros Hf. induction xs as [|x xs IH]; simpl.
  - apply places_ret.
  - apply places_bind; [done|]. intros b.
    apply places_bind; [done|]. intros bs. apply places_ret.
Qed.

Lemma places_write (P : Request → Prop) q res : P q → places P (write q res).
Proof.
  intros Hq tx. exists [q]. unfold write.
  destruct res; simpl; (split; [done|by constructor]).
Qed.

Lemma places_lookup_same_cell (P : Request → Prop) begin r :
  (∀ i k, P (GetAll i k)) → places P (lookup_same_cell begin r).
Proof.
  intros HP. unfold lookup_same_cell. apply places_bind; [|intros; apply places_ret].
  intros tx. unfold await, getImageMaps. simpl. unfold index_getAll_only.
  destruct (indexes (tx_store tx) !! "idx_row_col").
  - exists [GetAll "idx_row_col" [row r; col r]]. simpl. split; [done|].
    by constructor.
  - exists []. simpl. by rewrite app_nil_r.
Qed.

Lemma finish_requests {A} (s : Step A) : (finish (InTx s)).1 = tx_requests (tx_of s).
Proof. by destruct s. Qed.

(** X11.  Which requests the upserts place, whatever the outcome
    (commit, rollback or exception): they only add requests to their
    transaction; [setImageMap] never places a put; [setImageMap2] and
    [setImageMap3] never place a delete; and, when the table has the index
    [idx_row_col], [setImageMap3] places the lookups of all its records,
    in the order of the batch, before its first write. *)
Theorem upsert_requests_shape begin tx imageMaps :
  begin IMAGE_MAP readwrite = inr tx →
  (∃ placed, (finish (setImageMap begin imageMaps)).1 = tx_requests tx ++ placed ∧
             Forall not_Put placed) ∧
  (∃ placed, (finish (setImageMap2 begin imageMaps)).1 = tx_requests tx ++ placed ∧
             Forall not_Delete placed) ∧
  (∃ placed, (finish (setImageMap3 begin imageMaps)).1 = tx_requests tx ++ placed ∧
             Forall not_Delete placed) ∧
  (indexes (tx_store tx) !! "idx_row_col" = Some idx_row_col →
   ∃ writes,
     (finish (setImageMap3 begin imageMaps)).1 =
       tx_requests tx ++ (lookup_of <$> as_array imageMaps) ++ writes ∧
     Forall is_write writes).
Proof.
  intros Hbegin.
  assert (∀ (P : Request → Prop) v, P (Add v) → places P (add v)) as Hadd.
  { intros P v HP tx0. by apply places_write. }
  assert (∀ (P : Request → Prop) v, P (Put v) → places P (put v)) as Hput.
  { intros P v HP tx0. by apply places_write. }
  assert (∀ (P : Request → Prop) k, P (Delete k) → places P (delete k)) as Hdel.
  { intros P k HP tx0. by apply places_write. }
  assert (∀ P task, (∀ v, P (Add v)) → (∀ v, P (Put v)) →
            places P (setImageMap3_then task)) as Hthen.
  { intros P [r found] HA HP. unfold setImageMap3_then.
    destruct (and_id found); [by apply Hput|by apply Hadd]. }
  split_and!.
  - unfold setImageMap, begin_readwrite. rewrite Hbegin, finish_requests.
    apply places_for_of. intros r. unfold setImageMap_each.
    apply places_bind; [by apply places_lookup_same_cell|]. intros found.
    apply places_bind; [|intros; by apply Hadd].
    destruct (and_id found); [by apply Hdel|apply places_ret].
  - unfold setImageMap2, begin_readwrite. rewrite Hbegin, finish_requests.
    apply places_for_of. intros r. unfold setImageMap2_each.
    apply places_bind; [by apply places_lookup_same_cell|]. intros found.
    destruct found; [by apply Hput|by apply Hadd].
  - unfold setImageMap3, begin_readwrite. rewrite Hbegin, finish_requests.
    apply places_bind.
    + apply places_map_requests. intros r. by apply places_lookup_same_cell.
    + intros found. apply places_for_of. intros task. by apply Hthen.
  - intros Hix. rewrite (setImageMap3_body begin tx) by done.
    rewrite finish_requests.
    rewrite <- (for_of_fmap (λ r, (r, found_in (tx_store tx) r))).
    set (tx1 := {| tx_db := tx_db tx; tx_store := tx_store tx; tx_requests := _ |}).
    destruct (places_for_of is_write
                ((λ r, (r, found_in (tx_store tx) r)) <$> as_array imageMaps)
                setImageMap3_then (λ task, Hthen is_write task (λ _, I) (λ _, I)) tx1)
      as (writes & Hreq & Hw).
    exists writes. rewrite Hreq. simpl. by rewrite <- app_assoc.
Qed.

Lemma upsert_requests_shape_witness :
  let m := {| id := Some 1; row := 0; col := 0; data := [Byte.x01] |} in
  let r := {| id := None; row := 0; col := 0; data := [Byte.x02] |} in
  let b := {| id := None; row := 0; col := 1; data := [Byte.x03] |} in
  let table :=
    {| records := {[1 := m]}; keygen := 2;
       indexes := {["idx_row_col" := idx_row_col]} |} in
  (finish (setImageMap3 (session 0 table) (inr [b; r]))).1 =
    [lookup_of b; lookup_of r; Add b; Put (with_id (Some 1) r)] ∧
  ∃ writes,
    (finish (setImageMap3 (session 0 table) (inr [b; r]))).1 =
      [] ++ (lookup_of <$> [b; r]) ++ writes ∧
    Forall is_write writes.
Proof.
  intros m r b table. split; [vm_compute; reflexivity|].
  destruct (upsert_requests_shape (session 0 table)
              {| tx_db := 0; tx_store := table; tx_requests := [] |} (inr [b; r])
              eq_refl) as (_ & _ & _ & H).
  apply H. reflexivity.
Defined.

(** X12.  Two edges of the three entry points.  When [beginTransaction]
    fails, the call rejects with that error and places no request.  When
    the batch is empty, the call places no request and its transaction
    completes with the table as it was. *)
Theorem upsert_without_work begin u :
  (∀ e, begin IMAGE_MAP readwrite = inl e →
        finish (upsert begin u) = ([], Uncaught e None)) ∧
  (∀ tx, begin IMAGE_MAP readwrite = inr tx → batch_of u = [] →
         finish (upsert begin u) = (tx_requests tx, Committed (tx_store tx))).
Proof.
  split.
  - intros e Hbegin. destruct u as [b|b|b]; simpl;
      unfold setImageMap, setImageMap2, setImageMap3, begin_readwrite;
      by rewrite Hbegin.
  - intros tx Hbegin Hnil. destruct u as [b|b|b]; simpl in *;
      unfold setImageMap, setImageMap2, setImageMap3, begin_readwrite;
      rewrite Hbegin, Hnil; done.
Qed.

(** ** Upserts one after the other *)

(** X13.  From the table that the first [open] creates (no record, the
    key generator at 1, the unique index [idx_row_col]), whatever calls of
    [setImageMap], [setImageMap2] and [setImageMap3] follow one another,
    committed or rolled back, the table stays consistent: no cell ever
    holds two records, and every record carries its key as its id. *)
Theorem upserts_from_open_stay_consistent (us : list Upsert) :
  let s := foldl table_after opened_table us in
  opened_table =
    {| records := ∅; keygen := 1; indexes := {["idx_row_col" := idx_row_col]} |} ∧
  consistent s ∧
  (∀ r c, (cell_count r c (records s) ≤ 1)%nat) ∧
  (∀ k v, records s !! k = Some v → id v = Some k).
Proof.
  cbv zeta. split; [reflexivity|].
  assert (∀ s, consistent s → consistent (foldl table_after s us)) as Hfold.
  { induction us as [|u us IH]; intros s Hs; simpl; [done|].
    by apply IH, table_after_consistent. }
  pose proof (Hfold _ opened_table_consistent) as Hs.
  split; [done|]. split.
  - intros r c. apply cell_count_le_1, Hs.
  - apply Hs.
Qed.

(** ** More on the query *)

(** X14.  On a consistent table, [getImageMaps] with a complete key
    [(r, c)] and a transaction at hand places one [getAll] on the index,
    leaves the table as it is and resolves with at most one record: the
    record of the cell [(r, c)] when there is one, and the empty list
    exactly when the cell is free. *)
Theorem getImageMaps_at_most_one begin tx r c :
  consistent (tx_store tx) →
  ∃ found,
    getImageMaps begin {| q_row := JNumber r; q_col := JNumber c |}
                 {| transaction := Some tx |} =
      InTx (Next found (executed (GetAll "idx_row_col" [r; c]) (tx_store tx) tx)) ∧
    (length found ≤ 1)%nat ∧
    (∀ m, found = [m] ↔
          ∃ k, records (tx_store tx) !! k = Some m ∧ row m = r ∧ col m = c) ∧
    (found = [] ↔
       ∀ k m, records (tx_store tx) !! k = Some m → ¬ (row m = r ∧ col m = c)).
Proof.
  intros Hs. exists (index_getAll idx_row_col [r; c] (tx_store tx)).
  split; [apply getImageMaps_numbers, Hs|].
  assert (∀ k m, records (tx_store tx) !! k = Some m → row m = r → col m = c →
            index_getAll idx_row_col [r; c] (tx_store tx) = [m]) as Hfound.
  { intros k m Hm Hr Hc. eapply index_getAll_found; [apply Hs|done..]. }
  destruct (index_getAll idx_row_col [r; c] (tx_store tx)) as [|m0 l] eqn:Hall.
  - split; [simpl; lia|]. split.
    + intros m. split; [done|]. intros (k & Hm & Hr & Hc).
      by specialize (Hfound k m Hm Hr Hc).
    + split; [|done]. intros _ k m Hm [Hr Hc].
      by specialize (Hfound k m Hm Hr Hc).
  - assert (m0 ∈ index_getAll idx_row_col [r; c] (tx_store tx)) as Hin
      by (rewrite Hall; left).
    apply index_getAll_elem in Hin as (k0 & Hm0 & Hr0 & Hc0).
    pose proof (Hfound k0 m0 Hm0 Hr0 Hc0) as [= ->].
    split; [simpl; lia|]. split.
    + intros m. split.
      * intros [= <-]. by exists k0.
      * intros (k & Hm & Hr & Hc). by rewrite (Hfound k m Hm Hr Hc).
    + split; [done|]. intros Hnone. by destruct (Hnone k0 m0 Hm0).
Qed.

Lemma getImageMaps_at_most_one_witness :
  let m := {| id := Some 1; row := 0; col := 0; data := [Byte.x01] |} in
  let table :=
    {| records := {[1 := m]}; keygen := 2;
       indexes := {["idx_row_col" := idx_row_col]} |} in
  let tx := {| tx_db := 0; tx_store := table; tx_requests := [] |} in
  ∃ found,
    getImageMaps (session 0 table) {| q_row := JNumber 0; q_col := JNumber 0 |}
                 {| transaction := Some tx |} =
      InTx (Next found (executed (GetAll "idx_row_col" [0; 0]) table tx)) ∧
    (length found ≤ 1)%nat.
Proof.
  intros m table tx.
  destruct (getImageMaps_at_most_one (session 0 table) tx 0 0
              table_of_one_consistent) as (found & Hfound & Hlen & _).
  exists found. by split.
Defined.

(** X15.  How [getImageMaps] fails otherwise.  Without a transaction in
    its options it asks [beginTransaction] before it looks at the query,
    and rejects with the error of [beginTransaction], no request placed.
    With a transaction in its options it never calls [beginTransaction].
    With a complete key on a table that lacks the index [idx_row_col],
    [store.index] throws the engine's NotFoundError and no request is
    placed. *)
Theorem getImageMaps_failures begin query options :
  (∀ e, transaction options = None → begin IMAGE_MAP readonly = inl e →
        finish (getImageMaps begin query options) = ([], Uncaught e None)) ∧
  (∀ tx begin', transaction options = Some tx →
        getImageMaps begin query options = getImageMaps begin' query options) ∧
  (∀ tx r c,
     transaction options = Some tx ∨
     (transaction options = None ∧ begin IMAGE_MAP readonly = inr tx) →
     q_row query = JNumber r → q_col query = JNumber c →
     indexes (tx_store tx) !! "idx_row_col" = None →
     finish (getImageMaps begin query options) =
       (tx_requests tx,
        Uncaught (Some (DOMException "NotFoundError")) (Some (tx_store tx)))).
Proof.
  split_and!.
  - intros e Hnone Hbegin. unfold getImageMaps. by rewrite Hnone, Hbegin.
  - intros tx begin' Htx. unfold getImageMaps. by rewrite Htx.
  - intros tx r c Htx Hr Hc Hix. unfold getImageMaps.
    assert (match transaction options with
            | Some tx => inr tx
            | None => begin IMAGE_MAP readonly
            end = inr tx) as ->.
    { by destruct Htx as [->|[-> ->]]. }
    rewrite Hr, Hc. simpl. unfold index_getAll_only. by rewrite Hix.
Qed.

(** ** What a call of [getSingletonDB] throws and returns *)

Lemma enter_status_own w e :
  (getSingletonDB_enter w).2 = Threw e → getSingletonDB_error e.
Proof.
  unfold getSingletonDB_enter. destruct (db_isActive w); [done|].
  cbn [indexedDB set_db]. destruct (indexedDB w); [done|].
  intros [= <-]. right. by eexists.
Qed.

Lemma resume_status_own settled w e :
  (getSingletonDB_resume settled w).2 = Threw e → getSingletonDB_error e.
Proof.
  destruct settled as [err|_db]; [|done]. simpl.
  destruct (from_option _ _ _); intros [= <-]; [by left|right; by eexists].
Qed.

Lemma settle_race_own c cs settled w :
  (∀ e, status cs = Threw e → getSingletonDB_error e) →
  ∃ cs', calls (settle_race c cs settled w) = <[c := cs']> (calls w) ∧
         ∀ e, status cs' = Threw e → getSingletonDB_error e.
Proof.
  intros Hcs. unfold settle_race. destruct (status cs) eqn:Hst.
  - pose proof (resume_calls settled w) as Hcalls.
    pose proof (resume_status_own settled w) as Hown.
    destruct (getSingletonDB_resume settled w) as [w' st]. simpl in *.
    eexists. split; [by rewrite Hcalls|]. simpl. done.
  - exists cs. split; [done|]. by rewrite Hst.
  - exists cs. split; [done|]. by rewrite Hst.
Qed.

Lemma settle_open_own c cs settled w :
  (∀ e, status cs = Threw e → getSingletonDB_error e) →
  ∃ cs', calls (settle_open c cs settled w) = <[c := cs']> (calls w) ∧
         ∀ e, status cs' = Threw e → getSingletonDB_error e.
Proof.
  intros Hcs. unfold settle_open. destruct (open_settled cs).
  - by exists cs.
  - by apply settle_race_own.
Qed.

Lemma step_own w ev : throws_own_errors w → throws_own_errors (step w ev).
Proof.
  unfold throws_own_errors. intros Hw.
  assert (∀ c' cs', (∀ e, status cs' = Threw e → getSingletonDB_error e) →
            Forall (λ cs, ∀ e, status cs = Threw e → getSingletonDB_error e)
              (<[c' := cs']> (calls w))) as Hins.
  { intros c' cs' Hcs'. apply Forall_insert; done. }
  destruct ev as [|c ev|c]; simpl.
  - pose proof (enter_status_own w) as Hown.
    destruct (getSingletonDB_enter w) as [w' st] eqn:Henter.
    assert (calls w' = calls w) as Hcalls.
    { unfold getSingletonDB_enter in Henter. repeat case_match; by simplify_eq. }
    simpl in *. rewrite Hcalls. apply Forall_app. split; [done|].
    apply Forall_singleton. done.
  - destruct (calls w !! c) as [cs0|] eqn:Hc; [|done].
    assert (∀ e, status cs0 = Threw e → getSingletonDB_error e) as Hcs0.
    { rewrite Forall_lookup in Hw. by apply (Hw c). }
    destruct (request_done cs0); [done|].
    destruct ev; [done|..].
    + destruct (settle_open_own c cs0 (inl open_onblocked) w Hcs0) as (cs' & -> & ?).
      by apply Hins.
    + destruct (settle_open_own c (request_finished cs0)
                  (inl (open_onerror name)) w Hcs0) as (cs' & -> & ?).
      by apply Hins.
    + unfold open_onsuccess.
      destruct (settle_open_own c (request_finished cs0)
                  (inr (length (handles w))) (set_handles (handles w ++ [OPEN]) w) Hcs0)
        as (cs' & -> & ?).
      by apply Hins.
  - destruct (calls w !! c) as [cs0|] eqn:Hc; [|done].
    assert (∀ e, status cs0 = Threw e → getSingletonDB_error e) as Hcs0.
    { rewrite Forall_lookup in Hw. by apply (Hw c). }
    destruct (settle_race_own c cs0 (inl (timeout OPEN_DB_TIMEOUT)) w Hcs0)
      as (cs' & -> & ?).
    by apply Hins.
Qed.

Lemma run_own evs w : throws_own_errors w → throws_own_errors (run evs w).
Proof.
  revert w. induction evs as [|ev evs IH]; intros w Hw; [done|].
  simpl. by apply IH, step_own.
Qed.

(** X16.  [getSingletonDB] throws nothing but its own two errors.  In
    every run, from any state of the handles and of [db], every call that
    has thrown has thrown the [DatabaseTimeoutError] of the timeout or the
    [DatabaseError] of a failed open, which keeps what was caught: an
    instance of [DatabaseError], never the [TimeoutError] of the timer nor
    the [DOMException] of the engine. *)
Theorem getSingletonDB_throws_DatabaseError w evs :
  Forall (λ cs, ∀ e, status cs = Threw e →
            getSingletonDB_error e ∧
            instanceof e ClsDatabaseError = true ∧
            instanceof e ClsTimeoutError = false ∧
            instanceof e ClsDOMException = false)
    (calls (run evs (set_calls [] w))).
Proof.
  assert (throws_own_errors (run evs (set_calls [] w))) as Hown.
  { apply run_own. unfold throws_own_errors. simpl. constructor. }
  eapply Forall_impl; [exact Hown|]. intros cs Hcs e He.
  specialize (Hcs e He). split; [done|].
  destruct Hcs as [->|[err ->]]; done.
Qed.

Lemma enter_keeps w :
  handles (getSingletonDB_enter w).1 = handles w ∧
  calls (getSingletonDB_enter w).1 = calls w ∧
  (db (getSingletonDB_enter w).1 = db w ∨ db (getSingletonDB_enter w).1 = None).
Proof.
  unfold getSingletonDB_enter. destruct (db_isActive w); [by auto|].
  cbn [indexedDB set_db]. destruct (indexedDB w); simpl; auto.
Qed.

Lemma db_known_step w ev : db_known w → db_known (step w ev).
Proof.
  intros Hw.
  assert (∀ c cs settled w0,
            db_known w0 →
            match settled with
            | inr _db => (_db < length (handles w0))%nat
            | inl _ => True
            end →
            db_known (settle_race c cs settled w0)) as Hrace.
  { intros c cs settled w0 Hw0 Hnew. unfold settle_race.
    destruct (status cs); [|done..].
    destruct settled as [err|_db]; [done|]. simpl.
    destruct (db_isActive w0).
    - intros h Hh. cbn in *. rewrite !length_insert. by apply Hw0.
    - intros h [= <-]. done. }
  assert (∀ c cs settled w0,
            db_known w0 →
            match settled with
            | inr _db => (_db < length (handles w0))%nat
            | inl _ => True
            end →
            db_known (settle_open c cs settled w0)) as Hopen.
  { intros c cs settled w0 Hw0 Hnew. unfold settle_open.
    destruct (open_settled cs); [done|]. by apply Hrace. }
  destruct ev as [|c ev|c]; simpl.
  - destruct (enter_keeps w) as (Hh & _ & Hdb).
    destruct (getSingletonDB_enter w) as [w0 st]. simpl in *.
    intros h Hdbh. cbn in *. rewrite Hh.
    destruct Hdb as [Hdb|Hdb]; rewrite Hdb in Hdbh; [by apply Hw|done].
  - destruct (calls w !! c) as [cs|]; [|done].
    destruct (request_done cs); [done|].
    destruct ev; [done|by apply Hopen..|].
    unfold open_onsuccess. apply Hopen.
    + intros h Hh. cbn in *. rewrite length_app. specialize (Hw h Hh). simpl. lia.
    + cbn. rewrite length_app. simpl. lia.
  - destruct (calls w !! c) as [cs|]; [|done]. by apply Hrace.
Qed.

Lemma db_known_run evs w : db_known w → db_known (run evs w).
Proof.
  revert w. induction evs as [|ev evs IH]; intros w Hw; [done|].
  simpl. by apply IH, db_known_step.
Qed.

Lemma returns_open_session_step w ev c s :
  db_known w →
  status <$> calls w !! c ≠ Some (Returned s) →
  status <$> calls (step w ev) !! c = Some (Returned s) →
  ∃ h, s = Some h ∧ db (step w ev) = Some h ∧ isActive (step w ev) h = true.
Proof.
  intros Hw Hbefore Hafter.
  destruct ev as [|c' ev|c'].
  - (* a new call *)
    unfold step in *.
    pose proof (enter_keeps w) as (Hh & Hc & _).
    destruct (getSingletonDB_enter w) as [w0 st] eqn:Henter. simpl in Hh, Hc.
    cbn [calls set_calls] in Hafter. rewrite Hc in Hafter.
    destruct (decide (c < length (calls w))%nat) as [Hlt|Hge].
    { rewrite lookup_app_l in Hafter by done. done. }
    destruct (decide (c = length (calls w))) as [->|Hne].
    2: { rewrite lookup_ge_None_2 in Hafter; [done|].
         rewrite length_app. simpl. lia. }
    rewrite lookup_new_call in Hafter. simpl in Hafter.
    unfold getSingletonDB_enter in Henter.
    destruct (db_isActive w) eqn:Hact.
    + simplify_eq. apply db_isActive_true in Hact as (h & Hdb & Hopen).
      exists h. split; [done|]. split; [done|].
      unfold isActive. cbn. by apply bool_decide_eq_true.
    + cbn [indexedDB set_db] in Henter. destruct (indexedDB w); by simplify_eq.
  - (* an event of an open request *)
    unfold step in *. destruct (calls w !! c') as [cs0|] eqn:Hc'; [|done].
    destruct (request_done cs0) eqn:Hdone; [done|].
    assert (∀ cs1 settled w0, calls w0 = calls w → status cs1 = status cs0 →
              status <$> calls (settle_open c' cs1 settled w0) !! c =
                Some (Returned s) →
              (getSingletonDB_resume settled w0).2 = Returned s ∧
              db (settle_open c' cs1 settled w0) =
                db (getSingletonDB_resume settled w0).1 ∧
              handles (settle_open c' cs1 settled w0) =
                handles (getSingletonDB_resume settled w0).1) as Hsettle.
    { intros cs1 settled w0 Hcalls Hst1. unfold settle_open, settle_race.
      cbn [open_settled status request_done].
      assert (∀ cs2 w2, calls w2 = calls w → status cs2 = status cs0 →
                status <$> calls (set_call c' cs2 w2) !! c = Some (Returned s) →
                False) as Hsame.
      { intros cs2 w2 Hcalls2 Hst2. unfold set_call. cbn [calls set_calls].
        rewrite Hcalls2. destruct (decide (c = c')) as [->|Hne].
        - rewrite list_lookup_insert_eq by (by eapply lookup_lt_Some).
          simpl. intros [= Hst]. rewrite Hc' in Hbefore. simpl in Hbefore.
          congruence.
        - rewrite list_lookup_insert_ne by done. done. }
      destruct (open_settled cs1).
      { intros Hret. by destruct (Hsame cs1 w0). }
      rewrite Hst1. destruct (status cs0) eqn:Hst.
      - pose proof (resume_calls settled w0) as Hrc.
        destruct (getSingletonDB_resume settled w0) as [w1 st] eqn:Hres.
        simpl in Hrc. unfold set_call. cbn [calls set_calls]. rewrite Hrc, Hcalls.
        destruct (decide (c = c')) as [->|Hne].
        + rewrite list_lookup_insert_eq by (by eapply lookup_lt_Some).
          simpl. intros [= ->]. done.
        + rewrite list_lookup_insert_ne by done. done.
      - intros Hret. exfalso. by eapply (Hsame _ w0 Hcalls); [|exact Hret].
      - intros Hret. exfalso. by eapply (Hsame _ w0 Hcalls); [|exact Hret]. }
    destruct ev.
    + done.
    + apply Hsettle in Hafter as (Hres & _); [|done..]. discriminate Hres.
    + apply Hsettle in Hafter as (Hres & _); [|done..].
      simpl in Hres. discriminate Hres.
    + unfold open_onsuccess in *.
      apply Hsettle in Hafter as (Hres & -> & Hhandles); [|done..].
      unfold isActive. rewrite Hhandles. clear Hhandles.
      simpl in Hres. cbn [getSingletonDB_resume fst].
      set (w1 := set_handles (handles w ++ [OPEN]) w) in *.
      destruct (db_isActive w1) eqn:Hact.
      * apply db_isActive_true in Hact as (h & Hdb & Hopen).
        assert (h < length (handles w))%nat as Hlt by by apply Hw.
        injection Hres as <-. exists h. split; [done|]. split; [done|].
        unfold close. cbn. apply bool_decide_eq_true.
        rewrite !list_lookup_insert_ne by lia. done.
      * injection Hres as <-. exists (length (handles w)).
        split; [done|]. split; [done|].
        cbn. apply bool_decide_eq_true. by rewrite list_lookup_middle.
  - (* the timer *)
    unfold step in *. destruct (calls w !! c') as [cs0|] eqn:Hc'; [|done].
    unfold settle_race in Hafter.
    assert (∀ cs1 w0, calls w0 = calls w → (status cs1 = status cs0 ∨ ∃ e, status cs1 = Threw e) →
              status <$> calls (set_call c' cs1 w0) !! c = Some (Returned s) → False)
      as Hset.
    { intros cs1 w0 Hcalls Hst1. unfold set_call. cbn [calls set_calls]. rewrite Hcalls.
      destruct (decide (c = c')) as [->|Hne].
      - rewrite list_lookup_insert_eq by (by eapply lookup_lt_Some).
        simpl. intros [= Hst]. destruct Hst1 as [Hst1|[e Hst1]]; [|congruence].
        rewrite Hc' in Hbefore. simpl in Hbefore. congruence.
      - rewrite list_lookup_insert_ne by done. done. }
    destruct (status cs0) eqn:Hst.
    + simpl in Hafter. exfalso. eapply Hset; [| |exact Hafter]; [done|].
      right. by eexists.
    + exfalso. eapply Hset; [| |exact Hafter]; [done|]. by left.
    + exfalso. eapply Hset; [| |exact Hafter]; [done|]. by left.
Qed.

(** X17.  What [getSingletonDB] returns is the open session.  In every
    run from the loading of the page, at the step at which a call
    returns, it returns a handle, never [undefined]; that handle is the
    value of [db], and its state is OPEN. *)
Theorem getSingletonDB_returns_open_session evs ev c s :
  let w := run evs initial in
  let w' := step w ev in
  status <$> calls w !! c ≠ Some (Returned s) →
  status <$> calls w' !! c = Some (Returned s) →
  ∃ h, s = Some h ∧ db w' = Some h ∧ isActive w' h = true.
Proof.
  cbv zeta. apply returns_open_session_step, db_known_run. by intros h.
Qed.

Lemma getSingletonDB_returns_open_session_witness :
  let w' := step (run [call] initial) (engine 0 success) in
  status <$> calls (run [call] initial) !! 0%nat = Some Awaiting ∧
  ∃ h, Some 0%nat = Some h ∧ db w' = Some h ∧ isActive w' h = true.
Proof.
  intros w'. split; [reflexivity|].
  apply (getSingletonDB_returns_open_session [call] (engine 0 success) 0 (Some 0%nat)).
  - discriminate.
  - reflexivity.
Defined.

(** ** [beginTransaction] on the session returned *)

(** X18.  [beginTransaction] on the session returned.  In every run from
    the loading of the page, at the step at which its call of
    [getSingletonDB] returns, [beginTransaction] on [image_map] does not
    fail when the database has that table: the handle returned is open, so
    [db.transaction] gives a transaction of the current session on the
    table, with no request yet, which is what the upserts and the query
    are given above.  When the call has thrown, [beginTransaction] rejects
    with the same error; while the call awaits, it has not settled. *)
Theorem beginTransaction_on_session evs ev c s d table mode :
  let w := run evs initial in
  let w' := step w ev in
  status <$> calls w !! c ≠ Some (Returned s) →
  status <$> calls w' !! c = Some (Returned s) →
  objectStores d !! IMAGE_MAP = Some table →
  (∃ h, db w' = Some h ∧
        beginTransaction w' d (Returned s) IMAGE_MAP mode =
          Some (session h table IMAGE_MAP mode)) ∧
  (∀ e, beginTransaction w' d (Threw e) IMAGE_MAP mode = Some (inl (Some e))) ∧
  beginTransaction w' d Awaiting IMAGE_MAP mode = None.
Proof.
  cbv zeta. intros Hbefore Hafter Htable. split; [|done].
  destruct (returns_open_session_step (run evs initial) ev c s) as (h & -> & Hdb & Hact);
    [apply db_known_run; by intros h|done..|].
  exists h. split; [done|].
  unfold beginTransaction, db_transaction. by rewrite Hact, Htable.
Qed.

Lemma beginTransaction_on_session_witness :
  let w' := step (run [call] initial) (engine 0 success) in
  let d := after_open no_database in
  let table :=
    {| records := ∅; keygen := 1; indexes := {["idx_row_col" := idx_row_col]} |} in
  ∃ h, db w' = Some h ∧
       beginTransaction w' d (Returned (Some 0%nat)) IMAGE_MAP readwrite =
         Some (session h table IMAGE_MAP readwrite).
Proof.
  intros w' d table.
  destruct (beginTransaction_on_session [call] (engine 0 success) 0 (Some 0%nat)
              d table readwrite) as [H _].
  - discriminate.
  - reflexivity.
  - reflexivity.
  - exact H.
Defined.

(** ** Opens that end in time, late, or badly *)

(** A call made when there is no active session, whose open request
    succeeds before any other event. *)
Lemma open_afresh w :
  db_isActive w = false → indexedDB w = true →
  run [call; engine (length (calls w)) success] w =
    {| indexedDB := indexedDB w;
       handles := handles w ++ [OPEN];
       db := Some (length (handles w));
       calls := calls w ++ [{| request_done := true; open_settled := true;
                               status := Returned (Some (length (handles w))) |}] |}.
Proof.
  intros Hinactive Hidb. unfold run. cbn [foldl].
  rewrite step_call_opens by done.
  erewrite step_success_awaiting; [|apply lookup_new_call|done..].
  cbv zeta. cbn [handles set_calls set_db set_handles db_isActive db calls].
  unfold set_call, set_calls, set_db, set_handles. cbn [calls db handles indexedDB].
  by rewrite insert_new_call.
Qed.

Lemma open_fails w name :
  db_isActive w = false → indexedDB w = true →
  run [call; engine (length (calls w)) (error name)] w =
    {| indexedDB := indexedDB w;
       handles := handles w;
       db := None;
       calls := calls w ++ [{| request_done := true; open_settled := true;
                               status := Threw (open_failure (DOMException <$> name)) |}] |}.
Proof.
  intros Hinactive Hidb. unfold run. cbn [foldl].
  rewrite step_call_opens by done.
  erewrite step_error_awaiting; [|apply lookup_new_call|done..].
  unfold set_call, set_calls, set_db, set_handles. cbn [calls db handles indexedDB].
  by rewrite insert_new_call.
Qed.

Lemma open_times_out w :
  db_isActive w = false → indexedDB w = true →
  run [call; timer (length (calls w))] w =
    {| indexedDB := indexedDB w;
       handles := handles w;
       db := None;
       calls := calls w ++ [{| request_done := false; open_settled := false;
                               status := Threw (new_DatabaseTimeoutError "打开数据库超时。") |}] |}.
Proof.
  intros Hinactive Hidb. unfold run. cbn [foldl].
  rewrite step_call_opens by done.
  erewrite step_timer_awaiting; [|apply lookup_new_call|done].
  unfold set_call, set_calls, set_db, set_handles.
  cbn [calls db handles indexedDB request_done open_settled].
  by rewrite insert_new_call.
Qed.

(** X19.  An open request that ends before the timeout decides the call.
    For a call made when there is no active session, whose open request
    ends after [d < OPEN_DB_TIMEOUT] ms: if it succeeds, the call returns
    the new handle, which is OPEN and becomes [db]; if it fails, the call
    throws the [DatabaseError] of a failed open, which keeps the error of
    the request, and [db] stays undefined.  The timer, which fires later,
    changes nothing. *)
Theorem open_in_time w tie d :
  db_isActive w = false → indexedDB w = true → d < OPEN_DB_TIMEOUT →
  let c := length (calls w) in
  let h := length (handles w) in
  (let w' := run (lone_call tie (Some d) success w) w in
   status <$> calls w' !! c = Some (Returned (Some h)) ∧
   db w' = Some h ∧ handles w' = handles w ++ [OPEN] ∧ isActive w' h = true) ∧
  (∀ name,
     let w' := run (lone_call tie (Some d) (error name) w) w in
     status <$> calls w' !! c = Some (Threw (open_failure (DOMException <$> name))) ∧
     db w' = None ∧ handles w' = handles w).
Proof.
  intros Hinactive Hidb Hd. cbv zeta.
  assert (∀ ev, lone_call tie (Some d) ev w =
            [call; engine (length (calls w)) ev] ++ [timer (length (calls w))]) as Hlone.
  { intros ev. unfold lone_call.
    destruct (Z.ltb_spec OPEN_DB_TIMEOUT d); [lia|].
    destruct (Z.eqb_spec d OPEN_DB_TIMEOUT); [lia|]. by rewrite andb_false_r. }
  assert (∀ evs1 evs2, run (evs1 ++ evs2) w = run evs2 (run evs1 w)) as Happ.
  { intros. apply foldl_app. }
  split; [|intros name]; rewrite Hlone, Happ.
  - rewrite open_afresh by done. unfold run. cbn [foldl].
    erewrite step_timer_settled; [|apply lookup_new_call|done].
    cbn [calls db handles]. rewrite lookup_new_call. split_and!; try done.
    unfold isActive. cbn [handles]. apply bool_decide_eq_true.
    by rewrite list_lookup_middle.
  - rewrite open_fails by done. unfold run. cbn [foldl].
    erewrite step_timer_settled; [|apply lookup_new_call|done].
    cbn [calls db handles]. by rewrite lookup_new_call.
Qed.

Lemma open_in_time_witness :
  let w := run (lone_call false (Some 100) success initial) initial in
  let w' := run (lone_call false (Some 100) (error (Some "UnknownError")) initial)
              initial in
  (status <$> calls w !! 0%nat = Some (Returned (Some 0%nat)) ∧
   db w = Some 0%nat ∧ handles w = [] ++ [OPEN] ∧ isActive w 0 = true) ∧
  status <$> calls w' !! 0%nat =
    Some (Threw (open_failure (Some (DOMException "UnknownError")))) ∧
  db w' = None ∧ handles w' = [].
Proof.
  intros w w'.
  destruct (open_in_time initial false 100 eq_refl eq_refl eq_refl) as [Hok Hfail].
  split; [exact Hok|]. exact (Hfail (Some "UnknownError")).
Defined.

(** X20.  An open request that succeeds after its call has thrown (the
    timer had fired, or the request had been blocked): [onsuccess] still
    sets up the handle, which is OPEN, but [resolve] has no effect any
    more; [db] and the status of every call stay as they were, nothing
    closes the handle, and one more handle is open. *)
Theorem late_open_is_orphaned w c cs e :
  calls w !! c = Some cs → status cs = Threw e → request_done cs = false →
  let h := length (handles w) in
  let w' := step w (engine c success) in
  handles w' = handles w ++ [OPEN] ∧ isActive w' h = true ∧
  db w' = db w ∧ status <$> calls w' = status <$> calls w ∧
  open_handles w' = S (open_handles w).
Proof.
  intros Hc Hst Hdone. cbv zeta.
  assert (∃ cs', status cs' = Threw e ∧
            step w (engine c success) =
              set_call c cs' (set_handles (handles w ++ [OPEN]) w)) as (cs' & Hst' & ->).
  { unfold step. rewrite Hc, Hdone. unfold open_onsuccess, settle_open.
    cbn [request_finished open_settled].
    destruct (open_settled cs); [eexists; split; [|reflexivity]; exact Hst|].
    unfold settle_race. cbn [status request_finished]. rewrite Hst.
    eexists. split; [|reflexivity]. done. }
  unfold set_call, set_calls, set_handles, isActive, open_handles.
  cbn [handles db calls].
  split_and!.
  - done.
  - apply bool_decide_eq_true. by rewrite list_lookup_middle.
  - done.
  - rewrite list_fmap_insert, Hst'. apply list_insert_id.
    by rewrite list_lookup_fmap, Hc, <- Hst.
  - rewrite filter_app, length_app. simpl. lia.
Qed.

Lemma late_open_is_orphaned_witness :
  let w := run [call; timer 0] initial in
  let w' := step w (engine 0 success) in
  status <$> calls w = [Threw (new_DatabaseTimeoutError "打开数据库超时。")] ∧
  handles w' = [] ++ [OPEN] ∧ isActive w' 0 = true ∧
  db w' = None ∧ status <$> calls w' = status <$> calls w ∧
  open_handles w' = 1%nat.
Proof.
  intros w w'. split; [reflexivity|].
  apply (late_open_is_orphaned w 0
           {| request_done := false; open_settled := false;
              status := Threw (new_DatabaseTimeoutError "打开数据库超时。") |}
           (new_DatabaseTimeoutError "打开数据库超时。"));
    reflexivity.
Defined.

(** X21.  A failed call leaves no session behind and is not remembered.
    After a call made when there is no active session has thrown, be it
    for an error of the open request, a blocked request or the timeout,
    [db] is undefined and no handle was added; the next call starts an
    open of its own, and returns the new session when that open
    succeeds. *)
Theorem failed_call_is_retried w name :
  db_isActive w = false → indexedDB w = true →
  let c := length (calls w) in
  ∀ w1,
    w1 = run [call; engine c (error name)] w ∨
    w1 = run [call; engine c blocked] w ∨
    w1 = run [call; timer c] w →
    (∃ e, status <$> calls w1 !! c = Some (Threw e)) ∧
    db w1 = None ∧ handles w1 = handles w ∧
    (getSingletonDB_enter w1).2 = Awaiting ∧
    let w2 := run [call; engine (S c) success] w1 in
    status <$> calls w2 !! S c = Some (Returned (Some (length (handles w)))) ∧
    db w2 = Some (length (handles w)) ∧
    isActive w2 (length (handles w)) = true.
Proof.
  intros Hinactive Hidb. cbv zeta. intros w1 Hw1.
  assert (∃ cs, (∃ e, status cs = Threw e) ∧
            w1 = {| indexedDB := indexedDB w; handles := handles w; db := None;
                    calls := calls w ++ [cs] |}) as (cs & [e He] & ->).
  { destruct Hw1 as [->|[->| ->]].
    - rewrite open_fails by done. eexists. split; [|done]. by eexists.
    - unfold run. cbn [foldl]. rewrite step_call_opens by done.
      erewrite step_blocked_awaiting; [|apply lookup_new_call|done..].
      unfold set_call, set_calls, set_db, set_handles. cbn [calls db handles indexedDB].
      rewrite insert_new_call. eexists. split; [|done]. by eexists.
    - rewrite open_times_out by done. eexists. split; [|done]. by eexists. }
  cbn [calls db handles].
  set (w1 := {| indexedDB := indexedDB w; handles := handles w; db := None;
                calls := calls w ++ [cs] |}).
  assert (length (calls w1) = S (length (calls w))) as Hlen.
  { unfold w1. cbn [calls]. rewrite length_app. simpl. lia. }
  split_and!.
  - exists e. by rewrite lookup_new_call, <- He.
  - done.
  - done.
  - unfold getSingletonDB_enter. cbn. by rewrite Hidb.
  - rewrite <- Hlen, open_afresh by done. cbn [calls].
    rewrite lookup_new_call. done.
  - rewrite <- Hlen, open_afresh by done. done.
  - rewrite <- Hlen, open_afresh by done. unfold isActive. cbn [handles].
    apply bool_decide_eq_true. by rewrite list_lookup_middle.
Qed.

Lemma failed_call_is_retried_witness :
  let w1 := run [call; timer 0] initial in
  let w2 := run [call; engine 1 success] w1 in
  (∃ e, status <$> calls w1 !! 0%nat = Some (Threw e)) ∧
  db w1 = None ∧ handles w1 = [] ∧
  (getSingletonDB_enter w1).2 = Awaiting ∧
  status <$> calls w2 !! 1%nat = Some (Returned (Some 0%nat)) ∧
  db w2 = Some 0%nat ∧ isActive w2 0 = true.
Proof.
  intros w1 w2.
  apply (failed_call_is_retried initial None eq_refl eq_refl w1).
  right; right. reflexivity.
Defined.

(** ** Closing *)

Lemma close_is_closed h w : close h w = on_close_event h w.
Proof. unfold close, on_close_event. by rewrite list_insert_insert_eq. Qed.

(** X22.  The [close] event of the session.  When the engine fires
    [close] on the handle that is the open session, the listener that
    [open] installed sets its state to CLOSED, which is also the state
    that the wrapped [close] leaves; closing again changes nothing, and
    the state of no other handle changes.  The session is no longer
    active, so the next call opens a new one, which becomes [db], while
    the old handle stays CLOSED. *)
Theorem close_event_ends_session w h :
  db w = Some h → handles w !! h = Some OPEN → indexedDB w = true →
  let w1 := on_close_event h w in
  close h w = w1 ∧ close h w1 = w1 ∧ on_close_event h w1 = w1 ∧
  handles w1 !! h = Some CLOSED ∧ db_isActive w1 = false ∧
  (∀ h0, h0 ≠ h → isActive w1 h0 = isActive w h0) ∧
  let c := length (calls w1) in
  let h' := length (handles w1) in
  let w3 := run [call; engine c success] w1 in
  status <$> calls w3 !! c = Some (Returned (Some h')) ∧ h' ≠ h ∧
  db w3 = Some h' ∧ isActive w3 h' = true ∧ isActive w3 h = false.
Proof.
  intros Hdb Hopen Hidb. cbv zeta.
  pose proof (lookup_lt_Some _ _ _ Hopen) as Hlt.
  set (w1 := on_close_event h w).
  assert (handles w1 !! h = Some CLOSED) as Hclosed.
  { unfold w1, on_close_event. cbn [handles set_handles].
    by rewrite list_lookup_insert_eq. }
  assert (on_close_event h w1 = w1) as Hidem.
  { unfold on_close_event at 1. rewrite list_insert_id by done. by destruct w1. }
  assert (db_isActive w1 = false) as Hinactive.
  { unfold db_isActive, isActive. cbn [db w1 on_close_event set_handles]. rewrite Hdb.
    fold (on_close_event h w). fold w1. rewrite Hclosed.
    by apply bool_decide_eq_false. }
  assert (length (handles w1) ≠ h) as Hne.
  { unfold w1, on_close_event. cbn [handles set_handles]. rewrite length_insert. lia. }
  split_and!.
  - apply close_is_closed.
  - by rewrite close_is_closed.
  - done.
  - done.
  - done.
  - intros h0 Hh0. unfold isActive, w1, on_close_event. cbn [handles set_handles].
    by rewrite list_lookup_insert_ne.
  - rewrite open_afresh by done. cbn [calls]. by rewrite lookup_new_call.
  - done.
  - by rewrite open_afresh.
  - rewrite open_afresh by done. unfold isActive. cbn [handles].
    apply bool_decide_eq_true. by rewrite list_lookup_middle.
  - rewrite open_afresh by done. unfold isActive. cbn [handles].
    apply bool_decide_eq_false. rewrite lookup_app_l by (by eapply lookup_lt_Some).
    by rewrite Hclosed.
Qed.

Lemma close_event_ends_session_witness :
  let w := run [call; engine 0 success] initial in
  let w1 := on_close_event 0 w in
  let w3 := run [call; engine 1 success] w1 in
  close 0 w = w1 ∧ close 0 w1 = w1 ∧ on_close_event 0 w1 = w1 ∧
  handles w1 !! 0%nat = Some CLOSED ∧ db_isActive w1 = false ∧
  (∀ h0, h0 ≠ 0%nat → isActive w1 h0 = isActive w h0) ∧
  status <$> calls w3 !! 1%nat = Some (Returned (Some 1%nat)) ∧ 1%nat ≠ 0%nat ∧
  db w3 = Some 1%nat ∧ isActive w3 1 = true ∧ isActive w3 0 = false.
Proof.
  intros w w1 w3.
  apply (close_event_ends_session w 0); reflexivity.
Defined.

(** X23.  Only an [InvalidStateError] makes the promise bridge close the
    connection.  When the error of the request is null or has another
    name, [request2promise] and [transaction2promise] reject with it and
    change nothing; nor do a success, a completed transaction, or an
    aborted one, which rejects with the [DatabaseError]
    'Transaction aborted'.  A session that was active is then what the
    next [getSingletonDB] returns, without an open. *)
Theorem only_InvalidStateError_closes {T} w (request : IDBRequest T) tx :
  is_InvalidStateError (req_error request) = false →
  request2promise request request_error w = (w, Rejected (req_error request)) ∧
  transaction2promise tx (tx_error request) w = (w, Rejected (req_error request)) ∧
  request2promise request request_success w = (w, Resolved (req_result request)) ∧
  transaction2promise (T:=T) tx tx_complete w = (w, Resolved tt) ∧
  transaction2promise (T:=T) tx tx_abort w =
    (w, Rejected (Some (new_DatabaseError "Transaction aborted" None))) ∧
  (db_isActive w = true → getSingletonDB_enter w = (w, Returned (db w))).
Proof.
  intros Hother. unfold request2promise, transaction2promise. rewrite Hother.
  split_and!; try done.
  intros Hactive. unfold getSingletonDB_enter. by rewrite Hactive.
Qed.

Lemma only_InvalidStateError_closes_witness :
  let w := run [call; engine 0 success] initial in
  let tx := {| tx_db := 0; tx_store := empty_store; tx_requests := [] |} in
  let e := DOMException "ConstraintError" in
  let request :=
    {| req_result := tt; req_error := Some e; req_transaction := Some tx |} in
  request2promise request request_error w = (w, Rejected (Some e)) ∧
  transaction2promise tx (tx_error request) w = (w, Rejected (Some e)) ∧
  request2promise request request_success w = (w, Resolved tt) ∧
  transaction2promise (T:=unit) tx tx_complete w = (w, Resolved tt) ∧
  transaction2promise (T:=unit) tx tx_abort w =
    (w, Rejected (Some (new_DatabaseError "Transaction aborted" None))) ∧
  getSingletonDB_enter w = (w, Returned (Some 0%nat)).
Proof.
  intros w tx e request.
  destruct (only_InvalidStateError_closes w request tx eq_refl)
    as (H1 & H2 & H3 & H4 & H5 & H6).
  split_and!; [exact H1|exact H2|exact H3|exact H4|exact H5|].
  apply H6. reflexivity.
Defined.

(** ** [errorWrapper] *)

Lemma instanceof_Error e : instanceof e ClsError = true.
Proof. by destruct e as [[] ? ? ?]. Qed.

(** X24.  [errorWrapper] wraps once.  What it returns is always an
    instance of [DatabaseError], and is returned as it is when wrapped
    again; it throws only what [JSON.stringify] throws, on a value that is
    neither a string nor an error.  A [DatabaseError], of the class itself
    or of a subclass, is returned as it is; any other error [e] becomes a
    new [DatabaseError] with the message [e.name + ': ' + e.message] that
    keeps the stack of [e]; a string becomes a [DatabaseError] with that
    message. *)
Theorem errorWrapper_wraps_once err :
  (∀ e, errorWrapper err = Returns e →
     instanceof e ClsDatabaseError = true ∧ errorWrapper (RError e) = Returns e) ∧
  (∀ e, errorWrapper err = Throws e → err = ROther (Raises e)) ∧
  (∀ e, err = RError e → instanceof e ClsDatabaseError = true →
     errorWrapper err = Returns e) ∧
  (∀ e, err = RError e → instanceof e ClsDatabaseError = false →
     errorWrapper err =
       Returns (MkError ClsDatabaseError "DatabaseError"
                  (err_name e +:+ ": " +:+ err_message e) (Some e))) ∧
  (∀ s, err = RString s →
     errorWrapper err = Returns (MkError ClsDatabaseError "DatabaseError" s None)).
Proof.
  split_and!.
  - intros e He.
    assert (instanceof e ClsDatabaseError = true) as Hinst.
    { destruct err as [s|e0|[s| |e0]]; simpl in He; try by simplify_eq.
      destruct (instanceof e0 ClsDatabaseError) eqn:He0; by simplify_eq. }
    split; [done|]. simpl. by rewrite Hinst.
  - intros e He. destruct err as [s|e0|[s| |e0]]; simpl in He; try by simplify_eq.
    by destruct (instanceof e0 ClsDatabaseError).
  - intros e -> He. simpl. by rewrite He.
  - intros e -> He. simpl. rewrite He. unfold new_DatabaseError, new_DatabaseError_as.
    by rewrite instanceof_Error.
  - by intros s ->.
Qed.

(** ** The first open *)

(** X25.  The first open.  On a database without the table [image_map],
    the upgrade handler calls [createObjectStore] and then [createIndex],
    and both succeed: the table is created empty, with its key generator
    at 1 and the unique index [idx_row_col] as its only index, which is a
    consistent table; the other object stores are left as they are; and,
    the stored version being below 1, the open request ends with the
    version 1. *)
Theorem first_open_creates_table d :
  objectStores d !! IMAGE_MAP = None →
  let table :=
    {| records := ∅; keygen := 1; indexes := {["idx_row_col" := idx_row_col]} |} in
  onupgradeneeded d =
    ([CreateObjectStore IMAGE_MAP; CreateIndex IMAGE_MAP "idx_row_col"],
     inr {| version := version d;
            objectStores := <[IMAGE_MAP := table]> (objectStores d) |}) ∧
  consistent table ∧ sole_index table ∧
  (version d < DATABASE_VERSION →
     open_database d =
       ([CreateObjectStore IMAGE_MAP; CreateIndex IMAGE_MAP "idx_row_col"],
        inr {| version := DATABASE_VERSION;
               objectStores := <[IMAGE_MAP := table]> (objectStores d) |})) ∧
  (∀ name, name ≠ IMAGE_MAP →
     objectStores (after_open d) !! name = objectStores d !! name).
Proof.
  intros Hnone. cbv zeta.
  assert (onupgradeneeded d =
    ([CreateObjectStore IMAGE_MAP; CreateIndex IMAGE_MAP "idx_row_col"],
     inr {| version := version d;
            objectStores :=
              <[IMAGE_MAP := {| records := ∅; keygen := 1;
                                indexes := {["idx_row_col" := idx_row_col]} |}]>
                (objectStores d) |})) as Hup.
  { assert (createIndex "idx_row_col" idx_row_col empty_store =
              inr {| records := ∅; keygen := 1;
                     indexes := {["idx_row_col" := idx_row_col]} |}) as Hci
      by reflexivity.
    unfold onupgradeneeded, createObjectStore. rewrite Hnone.
    rewrite bool_decide_eq_false_2 by (by intros [? ?]).
    cbn [negb objectStores]. rewrite lookup_insert_eq.
    change (bool_decide (is_Some (indexes empty_store !! "idx_row_col"))) with false.
    cbn [negb app]. rewrite Hci.
    cbn [version objectStores]. by rewrite insert_insert_eq. }
  split_and!.
  - done.
  - apply empty_store_with_index_consistent.
  - done.
  - intros Hv. unfold open_database. rewrite Hup.
    destruct (Z.ltb_spec DATABASE_VERSION (version d)); [lia|].
    destruct (Z.ltb_spec (version d) DATABASE_VERSION); [done|lia].
  - intros name Hname. unfold after_open, open_database. rewrite Hup.
    destruct (Z.ltb_spec DATABASE_VERSION (version d)); [done|].
    destruct (Z.ltb_spec (version d) DATABASE_VERSION); [|done].
    cbn. by rewrite lookup_insert_ne.
Qed.

Lemma first_open_creates_table_witness :
  let table :=
    {| records := ∅; keygen := 1; indexes := {["idx_row_col" := idx_row_col]} |} in
  onupgradeneeded no_database =
    ([CreateObjectStore IMAGE_MAP; CreateIndex IMAGE_MAP "idx_row_col"],
     inr {| version := 0; objectStores := <[IMAGE_MAP := table]> ∅ |}) ∧
  open_database no_database =
    ([CreateObjectStore IMAGE_MAP; CreateIndex IMAGE_MAP "idx_row_col"],
     inr {| version := 1; objectStores := <[IMAGE_MAP := table]> ∅ |}).
Proof.
  intros table.
  destruct (first_open_creates_table no_database eq_refl) as (H1 & _ & _ & H2 & _).
  split; [exact H1|]. apply H2. reflexivity.
Defined.
